(** * HablaBeat: the timing-judgment core of [components/ddr-game.tsx]

    A shallow embedding of the note scheduler ([createNotes]), the judgment
    of a lane press ([handleKey], [handleTouch]), the auto-miss pass of the
    render loop ([render]) and the end-of-session grade ([getGrade]).

    JavaScript numbers that carry time (word timestamps, the audio clock,
    the hit windows, the grade percentage) are IEEE 754 binary64 values and
    are modelled by Rocq's primitive floats, with the comparisons of the
    source ([<], [<=], [>], [>=]) as [PrimFloat.ltb] and [PrimFloat.leb].
    Counters (score, combo, hits) and array indices only ever hold small
    non-negative integers, which binary64 represents exactly; they are
    modelled by [Z] and [nat]. *)

From Stdlib Require Import Floats ZArith ZifyNat Lia Ascii.
From stdpp Require Import base list strings pretty sorting.

Set Warnings "-inexact-float".

(** ** Data model (the interfaces of the source) *)

Module KaraokeWord.
Record t := mk {
  id : Z;
  text : string;
  duration : float;
  timestamp : float
}.
End KaraokeWord.

Module KaraokeLine.
Record t := mk {
  id : Z;
  words : list KaraokeWord.t
}.
End KaraokeLine.

Module TimingData.
Record t := mk {
  songNumber : Z;
  title : string;
  audioUrl : string;
  lyrics : list KaraokeLine.t
}.
End TimingData.

Module Note.
Record t := mk {
  text : string;
  english : string;
  timestamp : float;
  duration : float;
  lane : nat;
  hit : bool;
  id : string
}.

(** The assignment [note.hit = b] on a note object. *)
Definition set_hit (b : bool) (n : t) : t :=
  mk (text n) (english n) (timestamp n) (duration n) (lane n) b (id n).
End Note.

(** [const HIT_WINDOWS = { PERFECT: 0.08, GOOD: 0.15, MISS: 0.25 }] *)
Module HIT_WINDOWS.
Definition PERFECT : float := 0.08%float.
Definition GOOD : float := 0.15%float.
Definition MISS : float := 0.25%float.
End HIT_WINDOWS.

(** ** Array helpers *)

(** [arr.forEach((x, i) => ...)]: the callback runs on every element, from
    index [i] on, and threads the state [s] it mutates. *)
Fixpoint forEach_from {A St : Type} (f : A → nat → St → St)
    (i : nat) (arr : list A) (s : St) : St :=
  match arr with
  | [] => s
  | x :: rest => forEach_from f (S i) rest (f x i s)
  end.

Definition forEach {A St : Type} (f : A → nat → St → St) (arr : list A) (s : St) : St :=
  forEach_from f 0 arr s.

(** [arr.filter((x, i) => ...)]: the elements the callback accepts, in order. *)
Fixpoint filter_from {A : Type} (p : A → nat → bool) (i : nat) (arr : list A) : list A :=
  match arr with
  | [] => []
  | x :: rest =>
      if p x i then x :: filter_from p (S i) rest else filter_from p (S i) rest
  end.

Definition filter_index {A : Type} (p : A → nat → bool) (arr : list A) : list A :=
  filter_from p 0 arr.

(** [arr.reduce(f)] without an initial value on a non-empty array
    [first :: rest]: the accumulator starts at [first]. *)
Definition reduce {A : Type} (f : A → A → A) (first : A) (rest : list A) : A :=
  fold_left f rest first.

(** ** createNotes *)
Section Scheduler.

(** [translateWord] comes from [@/lib/spanish-dictionary]; note generation
    only stores what it returns. *)
Variable translateWord : string → string.

(** The body of the inner [forEach]: [allNotes.push({...})]. *)
Definition pushNote (lineIndex wordIndex : nat) (word : KaraokeWord.t)
    (allNotes : list Note.t) : list Note.t :=
  allNotes ++
  [ {| Note.text := KaraokeWord.text word;
       Note.english := translateWord (KaraokeWord.text word);
       Note.timestamp := KaraokeWord.timestamp word;
       Note.duration := KaraokeWord.duration word;
       Note.lane := (lineIndex + wordIndex) mod 4;
       Note.hit := false;
       Note.id := pretty lineIndex +:+ "-" +:+ pretty wordIndex |} ].

(** The callback of the difficulty filter. *)
Definition difficultyFilter (difficulty : Z) (index : nat) : bool :=
  if (difficulty =? 5)%Z then true
  else if (difficulty =? 4)%Z then negb (index mod 4 =? 3)
  else if (difficulty =? 3)%Z then index mod 2 =? 0
  else if (difficulty =? 2)%Z then index mod 3 =? 0
  else index mod 5 =? 0.

Definition createNotes (timingData : option TimingData.t) (difficulty : Z)
    : list Note.t :=
  match timingData with
  | None => []
  | Some data =>
      let allNotes :=
        forEach (fun line lineIndex =>
          forEach (fun word wordIndex => pushNote lineIndex wordIndex word)
                  (KaraokeLine.words line))
          (TimingData.lyrics data) [] in
      filter_index (fun _ index => difficultyFilter difficulty index) allNotes
  end.

(** *** The scheduler as the specification words it

    Flatten all words of all lines in (line, word) order; each note gets
    lane [(lineIndex + wordIndex) mod 4], id ["<lineIndex>-<wordIndex>"] and
    [hit = false]; then keep the flattened indices the difficulty selects. *)
Definition specNote (lineIndex wordIndex : nat) (word : KaraokeWord.t) : Note.t :=
  Note.mk (KaraokeWord.text word) (translateWord (KaraokeWord.text word))
          (KaraokeWord.timestamp word) (KaraokeWord.duration word)
          ((lineIndex + wordIndex) mod 4) false
          (pretty lineIndex +:+ "-" +:+ pretty wordIndex).

Definition specFlatten (track : TimingData.t) : list Note.t :=
  concat (imap (fun lineIndex line => imap (specNote lineIndex) (KaraokeLine.words line))
               (TimingData.lyrics track)).

(** The keep rule of the difficulty table; only levels 1 to 5 have one. *)
Definition specKeep (difficulty : Z) : option (nat → bool) :=
  match difficulty with
  | 5%Z => Some (fun _ => true)
  | 4%Z => Some (fun index => negb (index mod 4 =? 3))
  | 3%Z => Some Nat.even
  | 2%Z => Some (fun index => bool_decide (3 | index))
  | 1%Z => Some (fun index => bool_decide (5 | index))
  | _ => None
  end.

(** The notes at the selected indices, in index order. *)
Definition specSelect (keep : nat → bool) (notes : list Note.t) : list Note.t :=
  omap (fun index => if keep index then notes !! index else None)
       (seq 0 (length notes)).

Definition specGenerate (track : TimingData.t) (difficulty : Z) : option (list Note.t) :=
  keep ← specKeep difficulty;
  Some (specSelect keep (specFlatten track)).

End Scheduler.

(** ** Session state: the reference cells of the component *)
Record Session := mkSession {
  notesRef : list Note.t;
  scoreRef : Z;
  comboRef : Z;
  maxComboRef : Z;
  totalHitsRef : Z
}.

(** [startGame]: without timing data nothing happens; otherwise the notes are
    created and every counter is zeroed. *)
Definition startGame (translateWord : string → string)
    (timingData : option TimingData.t) (difficulty : Z) (s : Session) : Session :=
  match timingData with
  | None => s
  | Some _ =>
      {| notesRef := createNotes translateWord timingData difficulty;
         scoreRef := 0; comboRef := 0; maxComboRef := 0; totalHitsRef := 0 |}
  end.

(** ** Judging a lane press

    [handleKey] and [handleTouch] run the same statements once the lane and
    the clock are known; [judge] is that shared block. *)

Inductive Tier := PERFECT | GOOD | OK.

(** [Math.abs(n.timestamp - currentTime)] *)
Definition timeDeltaOf (currentTime : float) (n : Note.t) : float :=
  PrimFloat.abs (Note.timestamp n - currentTime)%float.

(** The three-way [if] on [timeDelta]. *)
Definition classify (timeDelta : float) : Tier :=
  if PrimFloat.leb timeDelta HIT_WINDOWS.PERFECT then PERFECT
  else if PrimFloat.leb timeDelta HIT_WINDOWS.GOOD then GOOD
  else OK.

(** What each branch assigns to [judgment], [points] and [judgmentColor]. *)
Definition judgmentOf (showTranslations : bool) (tier : Tier) : string :=
  match tier with
  | PERFECT => if showTranslations then "PERFECT" else "PERFECTO"
  | GOOD => if showTranslations then "GOOD" else "BIEN"
  | OK => "OK"
  end.

Definition pointsOf (tier : Tier) : Z :=
  match tier with
  | PERFECT => 25
  | GOOD => 25
  | OK => 25
  end.

Definition judgmentColorOf (tier : Tier) : string :=
  match tier with
  | PERFECT => "text-yellow-300"
  | GOOD => "text-green-300"
  | OK => "text-blue-300"
  end.

(** A reference to a note object of [notesRef.current]: its index in the
    array, together with the object it points to. *)
Definition NoteRef : Type := nat * Note.t.

(** The predicate of [notesRef.current.filter(...)]. *)
Definition isCandidate (lane : nat) (currentTime : float) (n : Note.t) : bool :=
  (Note.lane n =? lane) && negb (Note.hit n)
  && PrimFloat.leb (timeDeltaOf currentTime n) HIT_WINDOWS.MISS.

Definition candidatesOf (lane : nat) (currentTime : float) (notes : list Note.t)
    : list NoteRef :=
  List.filter (fun r : NoteRef => isCandidate lane currentTime r.2)
              (imap pair notes).

(** The callback of [candidates.reduce((a, b) => ...)]. *)
Definition closer (currentTime : float) (a b : NoteRef) : NoteRef :=
  if PrimFloat.ltb (timeDeltaOf currentTime a.2) (timeDeltaOf currentTime b.2)
  then a else b.

(** What a successful press hands on: the lane, the tier with its label,
    points and colour, and the judged note [closest]. *)
Record Judgment := mkJudgment {
  j_lane : nat;
  j_tier : Tier;
  j_judgment : string;
  j_points : Z;
  j_judgmentColor : string;
  j_closest : NoteRef
}.

Definition judge (showTranslations : bool) (lane : nat) (currentTime : float)
    (s : Session) : Session * option Judgment :=
  match candidatesOf lane currentTime (notesRef s) with
  | [] => (s, None)
  | first :: rest =>
      let closest := reduce (closer currentTime) first rest in
      let timeDelta := timeDeltaOf currentTime closest.2 in
      let tier := classify timeDelta in
      let points := pointsOf tier in
      let combo := (comboRef s + 1)%Z in
      ({| notesRef := alter (Note.set_hit true) closest.1 (notesRef s);
          scoreRef := scoreRef s + points;
          comboRef := combo;
          totalHitsRef := totalHitsRef s + 1;
          maxComboRef := Z.max (maxComboRef s) combo |},
       Some {| j_lane := lane;
               j_tier := tier;
               j_judgment := judgmentOf showTranslations tier;
               j_points := points;
               j_judgmentColor := judgmentColorOf tier;
               j_closest := closest |})
  end.

(** [laneMap]: the four arrow keys. *)
Definition laneMap (key : string) : option nat :=
  if String.eqb key "ArrowLeft" then Some 0
  else if String.eqb key "ArrowDown" then Some 1
  else if String.eqb key "ArrowUp" then Some 2
  else if String.eqb key "ArrowRight" then Some 3
  else None.

(** [handleKey]: [audio] is [None] when [audioRef.current] is null, and
    otherwise holds [audio.currentTime]. *)
Definition handleKey (showTranslations : bool) (key : string) (audio : option float)
    (s : Session) : Session * option Judgment :=
  match laneMap key with
  | None => (s, None)
  | Some lane =>
      match audio with
      | None => (s, None)
      | Some currentTime => judge showTranslations lane currentTime s
      end
  end.

(** The [for] loop of [handleTouch] over [changedTouches]; each touch is
    given by the lane [Math.floor((x / rect.width) * 4)] it falls in, and
    the clock does not move while the handler runs. *)
Fixpoint handleTouch_loop (showTranslations : bool) (lanes : list Z)
    (currentTime : float) (s : Session) : Session * list Judgment :=
  match lanes with
  | [] => (s, [])
  | lane :: rest =>
      if ((lane <? 0) || (lane >? 3))%Z
      then handleTouch_loop showTranslations rest currentTime s
      else
        let '(s1, j) := judge showTranslations (Z.to_nat lane) currentTime s in
        let '(s2, js) := handleTouch_loop showTranslations rest currentTime s1 in
        (s2, option_list j ++ js)
  end.

Definition handleTouch (showTranslations : bool) (lanes : list Z)
    (audio : option float) (s : Session) : Session * list Judgment :=
  match audio with
  | None => (s, [])
  | Some currentTime => handleTouch_loop showTranslations lanes currentTime s
  end.

(** ** The auto-miss pass of the render loop *)

(** The body of [notesRef.current.forEach((note) => ...)] as far as it
    touches the note and the combo: an unhit note whose window has passed is
    flagged and the combo is reset. *)
Definition autoMiss (currentTime : float) (note : Note.t) (combo : Z) : Note.t * Z :=
  if negb (Note.hit note) then
    if PrimFloat.ltb (Note.timestamp note + HIT_WINDOWS.MISS)%float currentTime
    then (Note.set_hit true note, 0%Z)
    else (note, combo)
  else (note, combo).

Fixpoint sweep (currentTime : float) (notes : list Note.t) (combo : Z)
    : list Note.t * Z :=
  match notes with
  | [] => ([], combo)
  | note :: rest =>
      let '(note1, combo1) := autoMiss currentTime note combo in
      let '(rest1, combo2) := sweep currentTime rest combo1 in
      (note1 :: rest1, combo2)
  end.

(** [render]: [audio] is [None] when the frame returns before the loop
    (no audio, audio paused, or no container).  Drawing the notes and the
    fade-out once every note is done do not touch the session and are left
    out. *)
Definition render (audio : option float) (s : Session) : Session :=
  match audio with
  | None => s
  | Some currentTime =>
      let '(notes, combo) := sweep currentTime (notesRef s) (comboRef s) in
      {| notesRef := notes;
         scoreRef := scoreRef s;
         comboRef := combo;
         maxComboRef := maxComboRef s;
         totalHitsRef := totalHitsRef s |}
  end.

(** ** A session as a sequence of events *)
Inductive Event :=
| keydown (key : string) (audio : option float)
| touchstart (lanes : list Z) (audio : option float)
| animationFrame (audio : option float).

Definition step (showTranslations : bool) (e : Event) (s : Session)
    : Session * list Judgment :=
  match e with
  | keydown key audio =>
      let '(s1, j) := handleKey showTranslations key audio s in (s1, option_list j)
  | touchstart lanes audio => handleTouch showTranslations lanes audio s
  | animationFrame audio => (render audio s, [])
  end.

(** The states a run goes through, the initial one first, and every
    judgment it produced, in order. *)
Fixpoint run (showTranslations : bool) (events : list Event) (s : Session)
    : list Session * list Judgment :=
  match events with
  | [] => ([s], [])
  | e :: rest =>
      let '(s1, js) := step showTranslations e s in
      let '(states, js') := run showTranslations rest s1 in
      (s :: states, js ++ js')
  end.

(** The state a run ends in. *)
Fixpoint finalState (showTranslations : bool) (events : list Event) (s : Session)
    : Session :=
  match events with
  | [] => s
  | e :: rest => finalState showTranslations rest (step showTranslations e s).1
  end.

(** ** getGrade *)

(** An integer counter read as a JavaScript number; the conversion is exact
    below 2^53, far above any note count. *)
Definition toNumber (n : Z) : float := PrimFloat.of_uint63 (Uint63.of_Z n).

Record Grade := mkGrade { grade : string; color : string }.

Definition percentage (totalHits : Z) (total : nat) : float :=
  ((toNumber totalHits / toNumber (Z.of_nat total)) * 100)%float.

Definition gradeOf (totalHits : Z) (total : nat) : Grade :=
  if total =? 0 then mkGrade "F" "text-red-400"
  else
    let pct := percentage totalHits total in
    if PrimFloat.leb 97 pct then mkGrade "A+" "text-yellow-300"
    else if PrimFloat.leb 93 pct then mkGrade "A" "text-yellow-400"
    else if PrimFloat.leb 90 pct then mkGrade "A-" "text-yellow-500"
    else if PrimFloat.leb 87 pct then mkGrade "B+" "text-green-300"
    else if PrimFloat.leb 83 pct then mkGrade "B" "text-green-400"
    else if PrimFloat.leb 80 pct then mkGrade "B-" "text-green-500"
    else if PrimFloat.leb 77 pct then mkGrade "C+" "text-blue-300"
    else if PrimFloat.leb 73 pct then mkGrade "C" "text-blue-400"
    else if PrimFloat.leb 70 pct then mkGrade "C-" "text-blue-500"
    else if PrimFloat.leb 67 pct then mkGrade "D+" "text-orange-300"
    else if PrimFloat.leb 63 pct then mkGrade "D" "text-orange-400"
    else if PrimFloat.leb 60 pct then mkGrade "D-" "text-orange-500"
    else mkGrade "F" "text-red-400".

Definition getGrade (s : Session) : Grade :=
  gradeOf (totalHitsRef s) (length (notesRef s)).

(** *** The grade as the specification words it: the first threshold of
    the table that the percentage reaches, and F when there is none or when
    there are no notes. *)
Definition gradeTable : list (float * string) :=
  [ (97, "A+"); (93, "A"); (90, "A-"); (87, "B+"); (83, "B"); (80, "B-");
    (77, "C+"); (73, "C"); (70, "C-"); (67, "D+"); (63, "D"); (60, "D-") ]%float.

Definition specGrade (hitCount : Z) (totalNoteCount : nat) : string :=
  match totalNoteCount with
  | 0 => "F"
  | _ =>
      let pct := percentage hitCount totalNoteCount in
      match List.find (fun row : float * string => PrimFloat.leb row.1 pct)
                      gradeTable with
      | Some row => row.2
      | None => "F"
      end
  end.

(** The grade from the exact ratio: the threshold k is reached when
    100 * hitCount >= k * totalNoteCount. *)
Definition exactGrade (hitCount : Z) (totalNoteCount : nat) : string :=
  let reaches (k : Z) := (k * Z.of_nat totalNoteCount <=? 100 * hitCount)%Z in
  match totalNoteCount with
  | 0 => "F"
  | _ =>
      if reaches 97%Z then "A+" else if reaches 93%Z then "A"
      else if reaches 90%Z then "A-" else if reaches 87%Z then "B+"
      else if reaches 83%Z then "B" else if reaches 80%Z then "B-"
      else if reaches 77%Z then "C+" else if reaches 73%Z then "C"
      else if reaches 70%Z then "C-" else if reaches 67%Z then "D+"
      else if reaches 63%Z then "D" else if reaches 60%Z then "D-"
      else "F"
  end.

(** Whether the computed grade is the exact one for every hit count up to
    the total, for every total up to [bound]. *)
Definition gradesExactUpTo (bound : nat) : bool :=
  forallb (fun total =>
    forallb (fun hits =>
      String.eqb (grade (gradeOf (Z.of_nat hits) total))
                 (exactGrade (Z.of_nat hits) total))
      (seq 0 (S total)))
    (seq 0 (S bound)).

(** Whether [p] holds of 0, 1, ..., n - 1. *)
Definition allBelow (p : Z → bool) (n : positive) : bool :=
  (Pos.iter (fun st : Z * bool => ((st.1 + 1)%Z, st.2 && p st.1)) (0%Z, true) n).2.

(** ** Presentation helpers that read the session *)

(** A double read as the integer below it, for a finite value. *)
Definition floorZ (x : float) : Z :=
  match Prim2SF x with
  | S754_finite s m e =>
      let v := if s then Z.neg m else Z.pos m in
      if (0 <=? e)%Z then (v * 2 ^ e)%Z else (v / 2 ^ (- e))%Z
  | _ => 0%Z
  end.

(** [`${Math.floor(x)}`]: the decimal digits of the floor for a finite
    value (of magnitude below 1e21, where JavaScript prints digits), and
    the names JavaScript gives to the other values. *)
Definition floorText (x : float) : string :=
  match Prim2SF x with
  | S754_nan => "NaN"
  | S754_infinity s => if s then "-Infinity" else "Infinity"
  | _ => pretty (floorZ x)
  end.

(** [totalNotes]: the words of all lines, 0 without timing data. *)
Definition totalNotes (timingData : option TimingData.t) : nat :=
  match timingData with
  | None => 0
  | Some data =>
      fold_left (fun sum line => sum + length (KaraokeLine.words line))
                (TimingData.lyrics data) 0
  end.

(** The number [getNoteCountText] floors for a difficulty from 1 to 4,
    from [totalNotes] as a double. *)
Definition estimateOf (difficulty : Z) (total : float) : float :=
  if (difficulty =? 1)%Z then (total / 5)%float
  else if (difficulty =? 2)%Z then (total / 3)%float
  else if (difficulty =? 3)%Z then (total / 2)%float
  else (total * 0.75)%float.

Definition estimatedNotes (difficulty : Z) (total : nat) : float :=
  estimateOf difficulty (toNumber (Z.of_nat total)).

(** [getNoteCountText]: [texts[difficulty] || ""]. *)
Definition getNoteCountText (timingData : option TimingData.t) (difficulty : Z)
    : string :=
  let total := totalNotes timingData in
  if ((1 <=? difficulty) && (difficulty <=? 4))%Z
  then "~" +:+ floorText (estimatedNotes difficulty total) +:+ " notes"
  else if (difficulty =? 5)%Z then "All " +:+ pretty total +:+ " notes!"
  else "".

(** [checkEncouragement]: the message for a streak, if it has one. *)
Record Message := mkMessage { msg_text : string; msg_color : string }.

Definition overflowMsg : Message := mkMessage "Â¡IMPARABLE!" "text-orange-400".

Definition spanishMessages (currentCombo : Z) : option Message :=
  if (currentCombo =? 3)%Z then Some (mkMessage "Â¡Vamos!" "text-green-300")
  else if (currentCombo =? 5)%Z then Some (mkMessage "Â¡Bien Hecho!" "text-green-400")
  else if (currentCombo =? 8)%Z then Some (mkMessage "Â¡SÃºper!" "text-cyan-400")
  else if (currentCombo =? 10)%Z then Some (mkMessage "Â¡Excelente!" "text-blue-400")
  else if (currentCombo =? 13)%Z then Some (mkMessage "Â¡Genial!" "text-indigo-400")
  else if (currentCombo =? 15)%Z then Some (mkMessage "Â¡IncreÃ­ble!" "text-purple-400")
  else if (currentCombo =? 18)%Z then Some (mkMessage "Â¡Asombroso!" "text-violet-400")
  else if (currentCombo =? 20)%Z then Some (mkMessage "Â¡FantÃ¡stico!" "text-pink-400")
  else if (currentCombo =? 25)%Z then Some (mkMessage "Â¡Tremendo!" "text-rose-400")
  else if (currentCombo =? 30)%Z then Some (mkMessage "Â¡IMPRESIONANTE!" "text-yellow-300")
  else if (currentCombo =? 35)%Z then Some (mkMessage "Â¡MAGNÃFICO!" "text-amber-400")
  else if (currentCombo =? 40)%Z then Some (mkMessage "Â¡FENOMENAL!" "text-red-400")
  else if (currentCombo =? 45)%Z then Some (mkMessage "Â¡ESPECTACULAR!" "text-orange-300")
  else if (currentCombo =? 50)%Z then Some (mkMessage "Â¡ERES INCREÃBLE!" "text-yellow-400")
  else None.

Definition checkEncouragement (currentCombo : Z) : option Message :=
  match spanishMessages currentCombo with
  | Some msg => Some msg
  | None =>
      if ((50 <? currentCombo) && (currentCombo mod 25 =? 0))%Z
      then Some overflowMsg else None
  end.

(** [RAINBOW_COLORS] and the colour [showHitEffect] picks for a hit. *)
Definition RAINBOW_COLORS : list string :=
  [ "#EF4444"; "#F97316"; "#EAB308"; "#22C55E"; "#3B82F6"; "#A855F7" ].

Definition rainbowColor (hitColorIndex : nat) : option string :=
  RAINBOW_COLORS !! (hitColorIndex mod length RAINBOW_COLORS).

(** The note [showHitEffect] looks up for the coin: the first note of the
    lane that is hit and within [HIT_WINDOWS.MISS + 0.1] of the clock. *)
Definition isHitNote (lane : nat) (currentTime : float) (n : Note.t) : bool :=
  (Note.lane n =? lane) && Note.hit n
  && PrimFloat.leb (timeDeltaOf currentTime n) (HIT_WINDOWS.MISS + 0.1)%float.

Definition hitNoteOf (lane : nat) (audio : option float) (notes : list Note.t)
    : option Note.t :=
  let currentTime := match audio with Some t => t | None => 0%float end in
  List.find (isHitNote lane currentTime) notes.

(** ** Observations on events and runs, used to state the properties *)

(** The clock value an event reads, if it gets that far. *)
Definition eventClock (e : Event) : option float :=
  match e with
  | keydown _ audio => audio
  | touchstart _ audio => audio
  | animationFrame audio => audio
  end.

(** The lanes an input event presses. *)
Definition pressedLanes (e : Event) : list nat :=
  match e with
  | keydown key _ => option_list (laneMap key)
  | touchstart lanes _ =>
      Z.to_nat <$> List.filter (fun lane => negb ((lane <? 0) || (lane >? 3))%Z) lanes
  | animationFrame _ => []
  end.

(** The guard of the auto-miss: the note is unhit and
    [currentTime > note.timestamp + HIT_WINDOWS.MISS]. *)
Definition expired (currentTime : float) (note : Note.t) : bool :=
  negb (Note.hit note)
  && PrimFloat.ltb (Note.timestamp note + HIT_WINDOWS.MISS)%float currentTime.

(** The [hit] flag of the note at [index], if there is one. *)
Definition hitAt (index : nat) (s : Session) : option bool :=
  Note.hit <$> notesRef s !! index.

(** How often the flag of note [index] goes from [before] to [after]
    between consecutive states. *)
Fixpoint flips (before after : bool) (index : nat) (states : list Session) : nat :=
  match states with
  | s1 :: ((s2 :: _) as rest) =>
      (if bool_decide (hitAt index s1 = Some before ∧ hitAt index s2 = Some after)
       then 1 else 0) + flips before after index rest
  | _ => 0
  end.

(** [marks notes notes']: position by position, the note is untouched or was
    unhit and got its flag set. *)
Definition marks (notes notes' : list Note.t) : Prop :=
  Forall2 (fun n n' => n' = n ∨ (Note.hit n = false ∧ n' = Note.set_hit true n))
          notes notes'.

(** [judgedAt t notes j]: the judgment [j] was made at clock [t] on a note
    that [notes] holds, unhit, in the pressed lane and within the miss
    window, and its tier, label, points and colour come from the delta. *)
Definition judgedAt (showTranslations : bool) (t : float)
    (notes : list Note.t) (j : Judgment) : Prop :=
  notes !! (j_closest j).1 = Some (j_closest j).2
  ∧ isCandidate (j_lane j) t (j_closest j).2 = true
  ∧ j_tier j = classify (timeDeltaOf t (j_closest j).2)
  ∧ j_judgment j = judgmentOf showTranslations (j_tier j)
  ∧ j_points j = pointsOf (j_tier j)
  ∧ j_judgmentColor j = judgmentColorOf (j_tier j).

(** The score and the hit count after [k] judgments. *)
Definition scored (s s' : Session) (k : nat) : Prop :=
  scoreRef s' = (scoreRef s + 25 * Z.of_nat k)%Z
  ∧ totalHitsRef s' = (totalHitsRef s + Z.of_nat k)%Z.

(** What holds of the judgments [js] an event made between [s] and [s']. *)
Definition judgments_ok (showTranslations : bool) (e : Event) (s s' : Session)
    (js : list Judgment) : Prop :=
  marks (notesRef s) (notesRef s')
  ∧ Forall (fun j => (∃ t, eventClock e = Some t
                            ∧ judgedAt showTranslations t (notesRef s) j)
                     ∧ j_lane j ∈ pressedLanes e
                     ∧ hitAt (j_closest j).1 s' = Some true) js
  ∧ NoDup ((fun j => (j_closest j).1) <$> js)
  ∧ scored s s' (length js).

(** ** Scenarios of the specification *)

(** A word of the timing track at a given timestamp. *)
Definition wordAt (text : string) (timestamp : float) : KaraokeWord.t :=
  KaraokeWord.mk 0 text 0.5 timestamp.

(** One line with four words at 1.0, 1.0, 2.0 and 2.0 seconds. *)
Definition fourWords : TimingData.t :=
  TimingData.mk 1 "cancion" "/audio/song-1.mp3"
    [ KaraokeLine.mk 0 [ wordAt "uno" 1.0; wordAt "dos" 1.0;
                         wordAt "tres" 2.0; wordAt "cuatro" 2.0 ] ].

Definition noSession : Session := mkSession [] 0 0 0 0.

Definition fourWordsSession : Session :=
  startGame (fun word => word) (Some fourWords) 5 noSession.

(** An unhit note in lane 0 at a given timestamp. *)
Definition laneZeroNote (id : string) (timestamp : float) : Note.t :=
  Note.mk "hola" "hello" timestamp 0.5 0 false id.



(** The judgment of the scenario: lane 0 pressed at 1.02 on the four-word
    track. *)
Definition perfectPress : Judgment :=
  mkJudgment 0 PERFECT "PERFECT" 25 "text-yellow-300"
             (0, Note.mk "uno" "uno" 1.0 0.5 0 false "0-0").

(** ** Invariants of a session, used to state the properties *)

(** The notes that are flagged. *)
Definition hitNotes (s : Session) : nat :=
  length (List.filter Note.hit (notesRef s)).

(** The counters are consistent with each other and with the notes. *)
Definition session_ok (s : Session) : Prop :=
  (0 ≤ comboRef s)%Z
  ∧ (comboRef s ≤ maxComboRef s)%Z
  ∧ (maxComboRef s ≤ totalHitsRef s)%Z
  ∧ (totalHitsRef s ≤ Z.of_nat (hitNotes s))%Z
  ∧ scoreRef s = (25 * totalHitsRef s)%Z.

(** Score, best streak and hit count have not gone down from [s] to [s']. *)
Definition grows (s s' : Session) : Prop :=
  (scoreRef s ≤ scoreRef s')%Z
  ∧ (maxComboRef s ≤ maxComboRef s')%Z
  ∧ (totalHitsRef s ≤ totalHitsRef s')%Z.

(** A double that is a number: neither NaN nor an infinity. *)
Definition finite (x : float) : Prop :=
  match Prim2SF x with
  | S754_zero _ | S754_finite _ _ _ => True
  | _ => False
  end.

(** The numeric rank of a grade letter, F lowest. *)
Definition gradeRank (letter : string) : nat :=
  if String.eqb letter "A+" then 12 else if String.eqb letter "A" then 11
  else if String.eqb letter "A-" then 10 else if String.eqb letter "B+" then 9
  else if String.eqb letter "B" then 8 else if String.eqb letter "B-" then 7
  else if String.eqb letter "C+" then 6 else if String.eqb letter "C" then 5
  else if String.eqb letter "C-" then 4 else if String.eqb letter "D+" then 3
  else if String.eqb letter "D" then 2 else if String.eqb letter "D-" then 1
  else 0.

(** How many of [total] flattened notes the difficulty filter keeps: the
    indices below [total] that pass it. *)
Definition keptNotes (difficulty : Z) (total : nat) : nat :=
  if (difficulty =? 5)%Z then total
  else if (difficulty =? 4)%Z then total - total / 4
  else if (difficulty =? 3)%Z then (total + 1) / 2
  else if (difficulty =? 2)%Z then (total + 2) / 3
  else (total + 4) / 5.

(** The integer the setup screen shows for a difficulty from 1 to 4. *)
Definition shownNotes (difficulty : Z) (total : Z) : Z :=
  if (difficulty =? 1)%Z then (total / 5)%Z
  else if (difficulty =? 2)%Z then (total / 3)%Z
  else if (difficulty =? 3)%Z then (total / 2)%Z
  else (3 * total / 4)%Z.

(** Whether, for a total of [k] notes, the floored doubles of
    [getNoteCountText] are those integers. *)
Definition estimateIsShown (k : Z) : bool :=
  forallb (fun difficulty =>
    match Prim2SF (estimateOf difficulty (toNumber k)) with
    | S754_nan | S754_infinity _ => false
    | _ => (floorZ (estimateOf difficulty (toNumber k)) =? shownNotes difficulty k)%Z
    end) [1; 2; 3; 4]%Z.

(** The streaks that have a message of their own. *)
Definition milestones : list Z :=
  [3; 5; 8; 10; 13; 15; 18; 20; 25; 30; 35; 40; 45; 50]%Z.

(** A hit note in lane 0, and a session in which the note at 1.0 is already
    hit when the note at 1.2 is still to come. *)
Definition hitLaneZeroNote (id : string) (timestamp : float) : Note.t :=
  Note.set_hit true (laneZeroNote id timestamp).

Definition afterFirstHit : Session :=
  mkSession [ hitLaneZeroNote "0-0" 1.0; laneZeroNote "0-4" 1.2 ] 25 1 1 1.

(** The grade rank the exact ratio gives: the number of thresholds that
    100 * hitCount / totalNoteCount reaches. *)
Definition exactRank (hitCount : Z) (totalNoteCount : nat) : nat :=
  let reaches (k : Z) := (k * Z.of_nat totalNoteCount <=? 100 * hitCount)%Z in
  match totalNoteCount with
  | 0 => 0
  | _ =>
      if reaches 97%Z then 12 else if reaches 93%Z then 11
      else if reaches 90%Z then 10 else if reaches 87%Z then 9
      else if reaches 83%Z then 8 else if reaches 80%Z then 7
      else if reaches 77%Z then 6 else if reaches 73%Z then 5
      else if reaches 70%Z then 4 else if reaches 67%Z then 3
      else if reaches 63%Z then 2 else if reaches 60%Z then 1
      else 0
  end.

(** ** The component: screens, displayed state, reference cells and timers

    The [useState] values that are displayed, the reference cells the
    handlers work on, the screen ([gameState]) that decides which controls
    and listeners exist, and the fade-out intervals that [render] has
    started and that have not run to their end yet.  The [songNumber] prop
    is fixed, so the timing data is fetched once, while the screen is still
    "loading". *)
Inductive GameState := loading | setup | playing | ended.

Module Game.
Record t := mk {
  gameState : GameState;
  timingData : option TimingData.t;
  score : Z;
  combo : Z;
  maxCombo : Z;
  totalHits : Z;
  difficulty : Z;
  showTranslations : bool;
  encouragement : option Message;
  refs : Session;
  hitColorIndexRef : nat;
  fadeIntervals : nat
}.
End Game.

(** The state after mounting. *)
Definition initialGame : Game.t :=
  Game.mk loading None 0 0 0 0 5 true None (mkSession [] 0 0 0 0) 0 0.

(** [setGameState]. *)
Definition setGameState (screen : GameState) (g : Game.t) : Game.t :=
  Game.mk screen (Game.timingData g) (Game.score g) (Game.combo g)
          (Game.maxCombo g) (Game.totalHits g) (Game.difficulty g)
          (Game.showTranslations g) (Game.encouragement g) (Game.refs g)
          (Game.hitColorIndexRef g) (Game.fadeIntervals g).

(** [startGame] on the component: nothing without timing data; otherwise
    new notes, reference cells and displayed counters at zero, and the
    playing screen. *)
Definition startGameUI (translateWord : string → string) (g : Game.t) : Game.t :=
  match Game.timingData g with
  | None => g
  | Some _ =>
      Game.mk playing (Game.timingData g) 0 0 0 0 (Game.difficulty g)
              (Game.showTranslations g) (Game.encouragement g)
              (startGame translateWord (Game.timingData g) (Game.difficulty g)
                         (Game.refs g))
              (Game.hitColorIndexRef g) (Game.fadeIntervals g)
  end.

(** [resetGame]: back to the setup screen with the displayed counters at
    zero; the reference cells keep their values, and an interval that is
    still fading the audio out is not cleared. *)
Definition resetGame (g : Game.t) : Game.t :=
  Game.mk setup (Game.timingData g) 0 0 0 0 (Game.difficulty g)
          (Game.showTranslations g) (Game.encouragement g) (Game.refs g)
          (Game.hitColorIndexRef g) (Game.fadeIntervals g).

(** What a handler does after its judgments, the streak having been
    [combo] before them: the displayed counters are set from the reference
    cells, each judgment advances the colour index, and each streak value
    reached is checked for a message. *)
Definition encouragementAfter (combo : Z) (judgments : nat)
    (shown : option Message) : option Message :=
  fold_left (fun enc k =>
               match checkEncouragement (combo + Z.of_nat k) with
               | Some msg => Some msg
               | None => enc
               end)
            (seq 1 judgments) shown.

Definition afterJudgments (g : Game.t) (s' : Session) (judgments : nat) : Game.t :=
  match judgments with
  | 0 =>
      Game.mk (Game.gameState g) (Game.timingData g) (Game.score g)
              (Game.combo g) (Game.maxCombo g) (Game.totalHits g)
              (Game.difficulty g) (Game.showTranslations g)
              (Game.encouragement g) s' (Game.hitColorIndexRef g)
              (Game.fadeIntervals g)
  | _ =>
      Game.mk (Game.gameState g) (Game.timingData g) (scoreRef s')
              (comboRef s') (maxComboRef s') (totalHitsRef s')
              (Game.difficulty g) (Game.showTranslations g)
              (encouragementAfter (comboRef (Game.refs g)) judgments
                                  (Game.encouragement g))
              s' (Game.hitColorIndexRef g + judgments)
              (Game.fadeIntervals g)
  end.

(** The test at the end of [render], made on the notes after the auto-miss
    pass: every note is flagged, there is a last note, and the clock is
    more than 2 s past it.  When it holds, [render] starts an interval that
    fades the audio out. *)
Definition fadeStarts (currentTime : float) (notes : list Note.t) : bool :=
  forallb Note.hit notes
  && match last notes with
     | Some lastNote => PrimFloat.ltb (Note.timestamp lastNote + 2) currentTime
     | None => false
     end.

(** One run of [render]: nothing when the audio is missing or paused
    ([audio] is [None]); otherwise the auto-miss pass, with [setCombo(0)]
    when it flags a note, and the end-of-notes test. *)
Definition afterFrame (g : Game.t) (audio : option float) : Game.t :=
  match audio with
  | None => g
  | Some currentTime =>
      let swept := existsb (expired currentTime) (notesRef (Game.refs g)) in
      let refs' := render audio (Game.refs g) in
      Game.mk (Game.gameState g) (Game.timingData g) (Game.score g)
              (if swept then 0%Z else Game.combo g) (Game.maxCombo g)
              (Game.totalHits g) (Game.difficulty g) (Game.showTranslations g)
              (Game.encouragement g) refs' (Game.hitColorIndexRef g)
              (Game.fadeIntervals g
               + (if fadeStarts currentTime (notesRef refs') then 1 else 0))
  end.

(** The start button: [startGame] and, the screen being "playing" from
    then on, the run of [render] that the render-loop effect makes at once
    unless the audio is paused. *)
Definition pressStartUI (translateWord : string → string) (audio : option float)
    (g : Game.t) : Game.t :=
  match Game.timingData g with
  | None => g
  | Some _ => afterFrame (startGameUI translateWord g) audio
  end.

(** The last tick of a fade-out interval: the interval is cleared and the
    screen set to "ended", whatever the screen is by then. *)
Definition fadeEndsUI (g : Game.t) : Game.t :=
  match Game.fadeIntervals g with
  | 0 => g
  | S rest =>
      Game.mk ended (Game.timingData g) (Game.score g) (Game.combo g)
              (Game.maxCombo g) (Game.totalHits g) (Game.difficulty g)
              (Game.showTranslations g) (Game.encouragement g) (Game.refs g)
              (Game.hitColorIndexRef g) rest
  end.

(** What can happen to the component.  [pressStart audio] carries the clock
    the first run of [render] reads, [None] when the audio is paused. *)
Inductive Action :=
| timingLoaded (data : TimingData.t)
| toggleTranslations
| changeDifficulty (value : Z)
| pressStart (audio : option float)
| pressPlayAgain
| inputEvent (e : Event)
| songEnds
| fadeEnds
| encouragementExpires.

(** One action.  The fetch resolves on the loading screen; the
    translations switch, the difficulty slider and the start button exist on
    the setup screen only; the key, touch and frame listeners are installed
    on the playing screen only, where the audio plays and can end; the
    play-again button exists on the end screen only.  The timers are not
    bound to a screen: a fade-out interval that has been started runs to
    its end, and so does the timeout that removes a message.  A frame may
    come at any time on the playing screen; the source requests none after
    the run of [render] that starts the fade-out. *)
Definition act (translateWord : string → string) (a : Action) (g : Game.t)
    : Game.t :=
  match a, Game.gameState g with
  | timingLoaded data, loading =>
      Game.mk setup (Some data) (Game.score g) (Game.combo g) (Game.maxCombo g)
              (Game.totalHits g) (Game.difficulty g) (Game.showTranslations g)
              (Game.encouragement g) (Game.refs g) (Game.hitColorIndexRef g)
              (Game.fadeIntervals g)
  | toggleTranslations, setup =>
      Game.mk setup (Game.timingData g) (Game.score g) (Game.combo g)
              (Game.maxCombo g) (Game.totalHits g) (Game.difficulty g)
              (negb (Game.showTranslations g)) (Game.encouragement g)
              (Game.refs g) (Game.hitColorIndexRef g) (Game.fadeIntervals g)
  | changeDifficulty value, setup =>
      Game.mk setup (Game.timingData g) (Game.score g) (Game.combo g)
              (Game.maxCombo g) (Game.totalHits g) value
              (Game.showTranslations g) (Game.encouragement g)
              (Game.refs g) (Game.hitColorIndexRef g) (Game.fadeIntervals g)
  | pressStart audio, setup => pressStartUI translateWord audio g
  | pressPlayAgain, ended => resetGame g
  | inputEvent (animationFrame audio), playing => afterFrame g audio
  | inputEvent e, playing =>
      let '(s', js) := step (Game.showTranslations g) e (Game.refs g) in
      afterJudgments g s' (length js)
  | songEnds, playing => setGameState ended g
  | fadeEnds, _ => fadeEndsUI g
  | encouragementExpires, _ =>
      Game.mk (Game.gameState g) (Game.timingData g) (Game.score g)
              (Game.combo g) (Game.maxCombo g) (Game.totalHits g)
              (Game.difficulty g) (Game.showTranslations g) None
              (Game.refs g) (Game.hitColorIndexRef g) (Game.fadeIntervals g)
  | _, _ => g
  end.

Definition play (translateWord : string → string) (actions : list Action)
    : Game.t :=
  fold_left (fun g a => act translateWord a g) actions initialGame.

(** The displayed counters are those of the reference cells. *)
Definition shows_refs (g : Game.t) : Prop :=
  Game.score g = scoreRef (Game.refs g)
  ∧ Game.combo g = comboRef (Game.refs g)
  ∧ Game.maxCombo g = maxComboRef (Game.refs g)
  ∧ Game.totalHits g = totalHitsRef (Game.refs g).

(** The displayed counters are all zero. *)
Definition shows_zero (g : Game.t) : Prop :=
  Game.score g = 0%Z ∧ Game.combo g = 0%Z
  ∧ Game.maxCombo g = 0%Z ∧ Game.totalHits g = 0%Z.

(** What holds of the component at any time. *)
Definition game_ok (translateWord : string → string) (g : Game.t) : Prop :=
  session_ok (Game.refs g)
  ∧ (shows_refs g ∨ shows_zero g)
  ∧ match Game.gameState g with
    | loading => Game.timingData g = None ∧ Game.fadeIntervals g = 0
    | setup | ended => is_Some (Game.timingData g)
    | playing =>
        shows_refs g
        ∧ ∃ data,
            Game.timingData g = Some data
            ∧ marks (createNotes translateWord (Some data) (Game.difficulty g))
                    (notesRef (Game.refs g))
    end.

(** What the playing screen shows, against the reference cells and the
    loaded track. *)
Definition matches_engine (translateWord : string → string) (g : Game.t)
    : Prop :=
  ∃ data,
    Game.timingData g = Some data
    ∧ shows_refs g
    ∧ marks (createNotes translateWord (Some data) (Game.difficulty g))
            (notesRef (Game.refs g))
    ∧ length (notesRef (Game.refs g))
      = keptNotes (Game.difficulty g) (totalNotes (Some data))
    ∧ Game.score g = (25 * Game.totalHits g)%Z
    ∧ (0 ≤ Game.combo g ≤ Game.maxCombo g)%Z
    ∧ (Game.maxCombo g ≤ Game.totalHits g
       ≤ Z.of_nat (length (notesRef (Game.refs g))))%Z
    ∧ getGrade (Game.refs g)
      = gradeOf (Game.totalHits g)
                (keptNotes (Game.difficulty g) (totalNotes (Some data))).

(** The two controls of the setup screen that change a setting. *)
Definition isSetting (a : Action) : bool :=
  match a with
  | toggleTranslations | changeDifficulty _ => true
  | _ => false
  end.

(** A game in which every note is hit, the fade-out starts, the song ends
    on its own before the fade-out is over, and Play Again is pressed. *)
Definition fullGameThenPlayAgain : list Action :=
  [ timingLoaded fourWords; pressStart (Some 0%float);
    inputEvent (keydown "ArrowLeft" (Some 1.0%float));
    inputEvent (keydown "ArrowDown" (Some 1.0%float));
    inputEvent (keydown "ArrowUp" (Some 2.0%float));
    inputEvent (keydown "ArrowRight" (Some 2.0%float));
    inputEvent (animationFrame (Some 4.5%float));
    songEnds; pressPlayAgain ].

(** A string without the separator of the note ids. *)
Fixpoint noDash (s : string) : Prop :=
  match s with
  | EmptyString => True
  | String c rest => c ≠ "-"%char ∧ noDash rest
  end.

(** The id [createNotes] writes for the word at a position. *)
Definition noteId (lineIndex wordIndex : nat) : string :=
  pretty lineIndex +:+ "-" +:+ pretty wordIndex.

(** ** The value of a binary64 number

    [FloatAxioms] specifies the arithmetic on [spec_float], the sign,
    mantissa and exponent of a number.  [scaled x] is the value of [x] times
    2^1074, an integer for every binary64 number, since no exponent is below
    -1074. *)
Definition scaled (x : spec_float) : Z :=
  match x with
  | S754_finite s m e => cond_Zopp s (Z.pos m * 2 ^ (e + 1074))%Z
  | _ => 0%Z
  end.

(** Neither NaN nor an infinity. *)
Definition numeric (x : spec_float) : Prop :=
  match x with
  | S754_zero _ | S754_finite _ _ _ => True
  | _ => False
  end.

(** [halved M k r]: the record [r] is [M] shifted right by [k] bits, its
    round bit and sticky bit telling where the bits shifted out stand
    against one half. *)
Definition halved (M k : Z) (r : shr_record) : Prop :=
  (0 ≤ k)%Z ∧ shr_m r = (M / 2 ^ k)%Z
  ∧ (shr_r r = true ↔ (2 ^ k ≤ 2 * (M mod 2 ^ k))%Z)
  ∧ (shr_s r = false → (M mod 2 ^ k = 0 ∨ 2 * (M mod 2 ^ k) = 2 ^ k)%Z).

(** ** The order of binary64 values

    The source compares times with [<] and [<=].  [FloatAxioms] specifies
    these through [SFcompare] on [spec_float]; the lemmas below derive the
    order properties the judgment code relies on: a strict comparison
    excludes the converse, and away from NaN the order is total and
    transitive. *)
Module FloatOrder.

Definition is_nan (x : float) : Prop := Prim2SF x = S754_nan.

Lemma SFcompare_antisym (x y : spec_float) (c : comparison) :
  SFcompare x y = Some c → SFcompare y x = Some (CompOpp c).
Proof.
  destruct x as [sx|sx| |sx mx ex], y as [sy|sy| |sy my ey]; simpl;
    try discriminate; intros [= <-];
    repeat match goal with s : bool |- _ => destruct s end;
    simpl; try reflexivity.
  - rewrite (Z.compare_antisym ex ey).
    destruct (ex ?= ey)%Z; simpl; try reflexivity.
    change (Pos.compare_cont Eq my mx) with (my ?= mx)%positive.
    change (Pos.compare_cont Eq mx my) with (mx ?= my)%positive.
    rewrite (Pos.compare_antisym mx my).
    by destruct (mx ?= my)%positive.
  - rewrite (Z.compare_antisym ex ey).
    destruct (ex ?= ey)%Z; simpl; try reflexivity.
    change (Pos.compare_cont Eq my mx) with (my ?= mx)%positive.
    change (Pos.compare_cont Eq mx my) with (mx ?= my)%positive.
    rewrite (Pos.compare_antisym mx my).
    by destruct (mx ?= my)%positive.
Qed.

Lemma SFcompare_total (x y : spec_float) :
  x ≠ S754_nan → y ≠ S754_nan → ∃ c, SFcompare x y = Some c.
Proof.
  destruct x, y; simpl; intros; try congruence; eauto.
Qed.

Lemma SFcompare_nan_l (x y : spec_float) (c : comparison) :
  SFcompare x y = Some c → x ≠ S754_nan.
Proof. destruct x; simpl; congruence. Qed.

Lemma SFcompare_nan_r (x y : spec_float) (c : comparison) :
  SFcompare x y = Some c → y ≠ S754_nan.
Proof. destruct x, y; simpl; congruence. Qed.

Lemma SFcompare_refl (x : spec_float) :
  x ≠ S754_nan → SFcompare x x = Some Eq.
Proof.
  destruct x as [s|s| |s m e]; simpl; intros; try congruence;
    destruct s; try reflexivity;
    change (Pos.compare_cont Eq m m) with (m ?= m)%positive;
    rewrite Z.compare_refl, Pos.compare_refl; reflexivity.
Qed.

(** [x <= y] as decided by [SFcompare]. *)
Definition SFle (x y : spec_float) : Prop :=
  SFcompare x y = Some Lt ∨ SFcompare x y = Some Eq.

Lemma SFle_trans (x y z : spec_float) : SFle x y → SFle y z → SFle x z.
Proof.
  unfold SFle.
  destruct x as [sx|sx| |sx mx ex], y as [sy|sy| |sy my ey],
    z as [sz|sz| |sz mz ez]; simpl;
    repeat match goal with s : bool |- _ => destruct s end;
    simpl; intros [H1|H1] [H2|H2]; try discriminate; auto;
    repeat match goal with
    | H : Some _ = Some _ |- _ => apply (inj Some) in H
    end;
    revert H1 H2;
    repeat match goal with
    | |- context [Pos.compare_cont Eq ?a ?b] =>
        change (Pos.compare_cont Eq a b) with (a ?= b)%positive
    end;
    destruct (Z.compare_spec ex ey), (Z.compare_spec ey ez),
      (Z.compare_spec ex ez); try lia; try discriminate; auto;
    destruct (Pos.compare_spec mx my), (Pos.compare_spec my mz),
      (Pos.compare_spec mx mz); simpl; try lia; try discriminate; auto.
Qed.

Lemma ltb_compare (x y : float) :
  PrimFloat.ltb x y = true ↔ SFcompare (Prim2SF x) (Prim2SF y) = Some Lt.
Proof.
  rewrite ltb_spec. unfold SFltb.
  destruct (SFcompare _ _) as [[]|]; split; congruence.
Qed.

Lemma leb_compare (x y : float) :
  PrimFloat.leb x y = true ↔ SFle (Prim2SF x) (Prim2SF y).
Proof.
  rewrite leb_spec. unfold SFleb, SFle.
  destruct (SFcompare _ _) as [[]|]; split; intros; try tauto; try congruence;
    destruct H; congruence.
Qed.

Lemma leb_not_nan_l (x y : float) : PrimFloat.leb x y = true → ¬ is_nan x.
Proof.
  rewrite leb_compare. unfold is_nan.
  intros [H|H]; exact (SFcompare_nan_l _ _ _ H).
Qed.

Lemma leb_refl (x : float) : ¬ is_nan x → PrimFloat.leb x x = true.
Proof.
  intros H. apply leb_compare. right. by apply SFcompare_refl.
Qed.

Lemma leb_trans (x y z : float) :
  PrimFloat.leb x y = true → PrimFloat.leb y z = true →
  PrimFloat.leb x z = true.
Proof. rewrite !leb_compare. apply SFle_trans. Qed.

Lemma ltb_leb (x y : float) :
  PrimFloat.ltb x y = true → PrimFloat.leb x y = true.
Proof. rewrite ltb_compare, leb_compare. by left. Qed.

(** A strict comparison excludes the converse weak one. *)
Lemma ltb_not_leb (x y : float) :
  PrimFloat.ltb x y = true → PrimFloat.leb y x = false.
Proof.
  rewrite ltb_compare. intros H%SFcompare_antisym.
  apply not_true_is_false. rewrite leb_compare. unfold SFle.
  simpl in H. intros [?|?]; congruence.
Qed.

Lemma leb_not_ltb (x y : float) :
  PrimFloat.leb x y = true → PrimFloat.ltb y x = false.
Proof.
  intros H. apply not_true_is_false. intros H'%ltb_not_leb. congruence.
Qed.

(** Away from NaN the order is total. *)
Lemma not_ltb_leb (x y : float) :
  ¬ is_nan x → ¬ is_nan y →
  PrimFloat.ltb x y = false → PrimFloat.leb y x = true.
Proof.
  unfold is_nan. intros Hx Hy Hlt.
  destruct (SFcompare_total _ _ Hx Hy) as [c Hc].
  apply leb_compare. unfold SFle.
  rewrite (SFcompare_antisym _ _ _ Hc).
  destruct c; simpl; auto.
  apply ltb_compare in Hc. congruence.
Qed.

Lemma ltb_leb_trans (x y z : float) :
  PrimFloat.ltb x y = true → PrimFloat.leb z x = true →
  PrimFloat.leb y z = false.
Proof.
  intros Hxy Hzx. apply not_true_is_false. intros Hyz.
  pose proof (leb_trans _ _ _ Hyz Hzx) as Hyx.
  apply ltb_not_leb in Hxy. congruence.
Qed.

End FloatOrder.

(** ** Rounding in binary64 addition

    The auto-miss guard compares two sums.  [FloatAxioms.add_spec] gives a
    sum as [SFadd], which aligns the mantissas, adds them exactly and rounds
    the result to 53 bits, to nearest and ties to even.  The lemmas below
    bound the rounding error by half a unit in the last place, and conclude
    that adding 0.26 gives more than adding 0.25 to any number below 2^45 in
    magnitude. *)
Section Rounding.

Local Open Scope Z_scope.

Lemma digits2_pos_bounds (m : positive) :
  2 ^ (Z.pos (digits2_pos m) - 1) ≤ Z.pos m < 2 ^ Z.pos (digits2_pos m).
Proof.
  induction m as [m IH|m IH|]; cbn [digits2_pos]; [| |by compute].
  - rewrite Pos2Z.inj_succ, (Pos2Z.inj_xI m).
    replace (Z.succ (Z.pos (digits2_pos m)) - 1) with (Z.succ (Z.pos (digits2_pos m) - 1)) by lia.
    rewrite !Z.pow_succ_r by lia. lia.
  - rewrite Pos2Z.inj_succ, (Pos2Z.inj_xO m).
    replace (Z.succ (Z.pos (digits2_pos m)) - 1) with (Z.succ (Z.pos (digits2_pos m) - 1)) by lia.
    rewrite !Z.pow_succ_r by lia. lia.
Qed.

(** The number of digits is the only [d] with [2^(d-1) <= m < 2^d]. *)
Lemma digits2_pos_unique (m : positive) (d : Z) :
  2 ^ (d - 1) ≤ Z.pos m < 2 ^ d → Z.pos (digits2_pos m) = d.
Proof.
  intros [Hl Hu]. destruct (digits2_pos_bounds m) as [Hl' Hu'].
  assert (0 < d) as Hd.
  { destruct (Z.lt_ge_cases 0 d) as [|Hle]; [done|].
    rewrite (Z.pow_neg_r 2 (d - 1)) in Hl by lia.
    assert (2 ^ d ≤ 1); [|lia].
    destruct (decide (d = 0)) as [->|]; [done|]. rewrite Z.pow_neg_r; lia. }
  destruct (Z.lt_trichotomy (Z.pos (digits2_pos m)) d) as [Hlt|[Heq|Hgt]]; [|done|].
  - assert (2 ^ Z.pos (digits2_pos m) ≤ 2 ^ (d - 1)); [|lia].
    apply Z.pow_le_mono_r; lia.
  - assert (2 ^ d ≤ 2 ^ (Z.pos (digits2_pos m) - 1)); [|lia].
    apply Z.pow_le_mono_r; lia.
Qed.

Lemma iter_xO_value (m d : positive) :
  Z.pos (Pos.iter xO m d) = Z.pos m * 2 ^ Z.pos d.
Proof.
  change (Pos.iter xO m d) with (shift_pos d m).
  rewrite shift_pos_correct, Z.pow_pos_fold. lia.
Qed.


(** One halving step of a mantissa that is not negative. *)
Lemma shr_1_spec (r : shr_record) :
  0 ≤ shr_m r →
  shr_1 r = {| shr_m := Z.div2 (shr_m r); shr_r := Z.odd (shr_m r);
               shr_s := shr_r r || shr_s r |}.
Proof. destruct r as [[|[p|p|]|p] rb sb]; simpl; intros; try done; lia. Qed.

Lemma halved_0 (M : Z) : halved M 0 (shr_record_of_loc M loc_Exact).
Proof.
  unfold halved. simpl. rewrite Z.div_1_r, Z.mod_1_r.
  split; [done|]. split; [done|]. split; [|by left]. split; [done|lia].
Qed.

Lemma halved_step (M k : Z) (r : shr_record) :
  0 ≤ M → halved M k r → halved M (k + 1) (shr_1 r).
Proof.
  intros HM (Hk & Hm & Hr & Hs).
  assert (0 < 2 ^ k) as Hpow by (apply Z.pow_pos_nonneg; lia).
  pose proof (Z.div_mod M (2 ^ k) ltac:(lia)) as Hdm.
  pose proof (Z.mod_pos_bound M (2 ^ k) Hpow) as Hrem.
  assert (0 ≤ M / 2 ^ k) as Hq by (apply Z.div_pos; lia).
  rewrite shr_1_spec by lia. rewrite Hm.
  pose proof (Z.div2_odd (M / 2 ^ k)) as Hodd.
  set (q := M / 2 ^ k) in *. set (rem := M mod 2 ^ k) in *.
  set (q' := Z.div2 q) in *.
  assert (2 ^ (k + 1) = 2 * 2 ^ k) as Hpow' by (rewrite Z.pow_add_r by lia; lia).
  assert (M = 2 ^ (k + 1) * q' + (Z.b2z (Z.odd q) * 2 ^ k + rem)) as Hsplit.
  { rewrite Hpow'. destruct (Z.odd q); simpl Z.b2z in *; lia. }
  assert (0 ≤ Z.b2z (Z.odd q) * 2 ^ k + rem < 2 ^ (k + 1)) as Hbound.
  { rewrite Hpow'. destruct (Z.odd q); simpl Z.b2z; lia. }
  assert (M / 2 ^ (k + 1) = q') as Hdiv.
  { symmetry. by apply (Z.div_unique_pos M _ q' _ Hbound). }
  assert (M mod 2 ^ (k + 1) = Z.b2z (Z.odd q) * 2 ^ k + rem) as Hmod.
  { symmetry. by apply (Z.mod_unique_pos M _ q' _ Hbound). }
  unfold halved. cbn [shr_m shr_r shr_s]. rewrite Hdiv, Hmod, Hpow'.
  split; [lia|]. split; [done|].
  destruct (Z.odd q); simpl Z.b2z.
  - split; [split; [lia|done]|].
    intros [Hr0 Hs0]%orb_false_iff. right.
    destruct (Hs Hs0) as [?|?]; [lia|].
    assert (shr_r r = true) by (apply Hr; lia). congruence.
  - split; [split; [done|lia]|].
    intros [Hr0 Hs0]%orb_false_iff. left.
    destruct (Hs Hs0) as [?|?]; [lia|].
    assert (shr_r r = true) by (apply Hr; lia). congruence.
Qed.

Lemma halved_iter (M : Z) (p : positive) :
  0 ≤ M → ∀ k r, halved M k r → halved M (k + Z.pos p) (SpecFloat.iter_pos shr_1 p r).
Proof.
  intros HM. induction p as [p IH|p IH|]; intros k r Hr; cbn [SpecFloat.iter_pos].
  - replace (k + Z.pos p~1) with (k + 1 + Z.pos p + Z.pos p) by lia.
    by apply IH, IH, halved_step.
  - replace (k + Z.pos p~0) with (k + Z.pos p + Z.pos p) by lia.
    by apply IH, IH.
  - by apply halved_step.
Qed.

(** Rounding to nearest moves the shifted mantissa by at most one half. *)
Lemma round_nearest_even_near (M k : Z) (r : shr_record) :
  0 ≤ M → halved M k r →
  M / 2 ^ k ≤ round_nearest_even (shr_m r) (loc_of_shr_record r) ≤ M / 2 ^ k + 1
  ∧ 2 * Z.abs (round_nearest_even (shr_m r) (loc_of_shr_record r) * 2 ^ k - M)
    ≤ 2 ^ k.
Proof.
  intros HM (Hk & Hm & Hr & Hs).
  assert (0 < 2 ^ k) as Hpow by (apply Z.pow_pos_nonneg; lia).
  pose proof (Z.div_mod M (2 ^ k) ltac:(lia)) as Hdm.
  pose proof (Z.mod_pos_bound M (2 ^ k) Hpow) as Hrem.
  destruct r as [m rb sb]. cbn [shr_m shr_r shr_s] in *. subst m.
  set (q := M / 2 ^ k) in *. set (rem := M mod 2 ^ k) in *.
  destruct rb, sb; cbn [loc_of_shr_record round_nearest_even].
  - assert (2 ^ k ≤ 2 * rem) by (by apply Hr). nia.
  - assert (2 ^ k ≤ 2 * rem) by (by apply Hr).
    destruct (Hs eq_refl) as [?|?]; [lia|].
    destruct (Z.even q); nia.
  - assert (¬ 2 ^ k ≤ 2 * rem) by (intros ?%Hr; done). nia.
  - assert (¬ 2 ^ k ≤ 2 * rem) by (intros ?%Hr; done). nia.
Qed.


Lemma fexp_64 (e : Z) : fexp prec emax e = Z.max (e - 53) (-1074).
Proof. reflexivity. Qed.

(** A mantissa that already has its canonical exponent is kept as it is. *)
Lemma binary_round_aux_canonical (sx : bool) (m : positive) (e : Z) :
  fexp prec emax (Z.pos (digits2_pos m) + e) = e → e ≤ 971 →
  binary_round_aux prec emax sx (Z.pos m) e loc_Exact = S754_finite sx m e.
Proof.
  intros Hc He. unfold binary_round_aux, shr_fexp. cbn [Zdigits2].
  rewrite Hc, Z.sub_diag. cbn [shr shr_record_of_loc shr_m loc_of_shr_record
                               round_nearest_even Zdigits2].
  rewrite Hc, Z.sub_diag. cbn [shr shr_record_of_loc shr_m].
  assert ((e <=? emax - prec) = true) as ->; [|done].
  apply Z.leb_le. change (emax - prec) with 971. lia.
Qed.

Lemma digits2_pos_shift (m d : positive) :
  Z.pos (digits2_pos (Pos.iter xO m d)) = Z.pos (digits2_pos m) + Z.pos d.
Proof.
  apply digits2_pos_unique. rewrite iter_xO_value.
  destruct (digits2_pos_bounds m) as [Hl Hu].
  replace (Z.pos (digits2_pos m) + Z.pos d - 1)
    with (Z.pos (digits2_pos m) - 1 + Z.pos d) by lia.
  rewrite !Z.pow_add_r by lia.
  assert (0 < 2 ^ Z.pos d) by (apply Z.pow_pos_nonneg; lia). nia.
Qed.

Lemma shl_align_value (m : positive) (e ez : Z) :
  ez ≤ e → Z.pos (shl_align m e ez).1 = Z.pos m * 2 ^ (e - ez).
Proof.
  intros Hle. unfold shl_align.
  destruct (ez - e) as [|d|d] eqn:Hd; cbn [fst]; try lia.
  - replace (e - ez) with 0 by lia. lia.
  - rewrite iter_xO_value. f_equal. f_equal. lia.
Qed.

(** Rounding [mx * 2^(b - 1074)], a value below [2^46], to binary64 gives a
    number within [2^-8] of it. *)
Lemma binary_round_near (sx : bool) (mx : positive) (b : Z) :
  0 ≤ b → Z.pos mx * 2 ^ b < 2 ^ 1120 →
  ∃ m' e',
    binary_round prec emax sx mx (b - 1074) = S754_finite sx m' e'
    ∧ 0 ≤ e' + 1074
    ∧ Z.abs (Z.pos m' * 2 ^ (e' + 1074) - Z.pos mx * 2 ^ b) ≤ 2 ^ 1066.
Proof.
  intros Hb Hlt.
  destruct (digits2_pos_bounds mx) as [Hl Hu].
  set (D := Z.pos (digits2_pos mx)) in *.
  assert (0 < 2 ^ b) as Hpb by (apply Z.pow_pos_nonneg; lia).
  assert (D + b ≤ 1120) as HDb.
  { assert (2 ^ (D - 1 + b) < 2 ^ 1120) as Hp.
    { rewrite Z.pow_add_r by lia. nia. }
    apply Z.pow_lt_mono_r_iff in Hp; lia. }
  unfold binary_round. fold D. rewrite fexp_64.
  destruct (Z.le_gt_cases D 53) as [Hsmall|Hbig].
  - (* no bit is lost *)
    set (et := Z.max (D + (b - 1074) - 53) (-1074)).
    assert (et ≤ b - 1074) as Het by lia.
    assert (-1074 ≤ et) as Het' by lia.
    unfold shl_align.
    destruct (et - (b - 1074)) as [|d|d] eqn:Hd; try lia.
    + assert (et = b - 1074) as Heq by lia.
      rewrite binary_round_aux_canonical.
      * exists mx, (b - 1074). split; [done|]. split; [lia|].
        replace (b - 1074 + 1074) with b by lia. rewrite Z.sub_diag. simpl. lia.
      * rewrite fexp_64. fold D. lia.
      * lia.
    + rewrite binary_round_aux_canonical.
      * exists (Pos.iter xO mx d), et. split; [done|]. split; [lia|].
        rewrite iter_xO_value.
        assert (Z.pos mx * 2 ^ Z.pos d * 2 ^ (et + 1074) = Z.pos mx * 2 ^ b) as ->.
        { rewrite <- Z.mul_assoc, <- Z.pow_add_r by lia. do 2 f_equal. lia. }
        rewrite Z.sub_diag. simpl. lia.
      * rewrite fexp_64, digits2_pos_shift. fold D. lia.
      * lia.
  - (* the low bits are rounded away *)
    assert (Z.max (D + (b - 1074) - 53) (-1074) = b - 1074 + (D - 53)) as -> by lia.
    unfold shl_align.
    destruct (b - 1074 + (D - 53) - (b - 1074)) as [|p|p] eqn:Hp; try lia.
    assert (Z.pos p = D - 53) as Hn by lia.
    assert (shr_fexp prec emax (Z.pos mx) (b - 1074) loc_Exact
            = (SpecFloat.iter_pos shr_1 p (shr_record_of_loc (Z.pos mx) loc_Exact),
               b - 1074 + Z.pos p)) as Hfirst.
    { unfold shr_fexp. cbn [Zdigits2]. fold D. rewrite fexp_64.
      assert (Z.max (D + (b - 1074) - 53) (-1074) - (b - 1074) = Z.pos p) as ->
        by lia.
      reflexivity. }
    unfold binary_round_aux. rewrite Hfirst. clear Hfirst. unfold shr_fexp.
    pose proof (halved_iter (Z.pos mx) p ltac:(lia) 0 _ (halved_0 (Z.pos mx))) as Hh.
    rewrite Z.add_0_l in Hh.
    set (r := SpecFloat.iter_pos shr_1 p (shr_record_of_loc (Z.pos mx) loc_Exact)) in *.
    destruct (round_nearest_even_near (Z.pos mx) (Z.pos p) r ltac:(lia) Hh)
      as [Hq Herr].
    set (m1 := round_nearest_even (shr_m r) (loc_of_shr_record r)) in *.
    assert (0 < 2 ^ Z.pos p) as Hpp by (apply Z.pow_pos_nonneg; lia).
    assert (2 ^ 52 ≤ Z.pos mx / 2 ^ Z.pos p < 2 ^ 53) as Hqb.
    { assert (2 ^ (D - 1) = 2 ^ 52 * 2 ^ Z.pos p) as Hl'
        by (rewrite <- Z.pow_add_r by lia; f_equal; lia).
      assert (2 ^ D = 2 ^ 53 * 2 ^ Z.pos p) as Hu'
        by (rewrite <- Z.pow_add_r by lia; f_equal; lia).
      split.
      - apply Z.div_le_lower_bound; lia.
      - apply Z.div_lt_upper_bound; lia. }
    assert (2 * Z.abs (m1 * 2 ^ (b + Z.pos p) - Z.pos mx * 2 ^ b) ≤ 2 * 2 ^ 1066)
      as Hclose.
    { rewrite Z.pow_add_r by lia.
      replace (m1 * (2 ^ b * 2 ^ Z.pos p) - Z.pos mx * 2 ^ b)
        with ((m1 * 2 ^ Z.pos p - Z.pos mx) * 2 ^ b) by ring.
      rewrite Z.abs_mul, (Z.abs_eq (2 ^ b)) by lia.
      assert (2 ^ Z.pos p * 2 ^ b ≤ 2 * 2 ^ 1066) as Hpw.
      { rewrite <- Z.pow_add_r by lia. change (2 * 2 ^ 1066) with (2 ^ 1067).
        apply Z.pow_le_mono_r; lia. }
      nia. }
    destruct (decide (m1 = 2 ^ 53)) as [Hm1|Hm1].
    + rewrite Hm1 in *. rewrite fexp_64.
      change (Zdigits2 (2 ^ 53)) with 54.
      change (shr_record_of_loc (2 ^ 53) loc_Exact)
        with (Build_shr_record 9007199254740992 false false).
      assert (Z.max (54 + (b - 1074 + Z.pos p) - 53) (-1074) - (b - 1074 + Z.pos p) = 1)
        as -> by lia.
      cbn [shr SpecFloat.iter_pos shr_1 shr_record_of_loc shr_m].
      assert ((b - 1074 + Z.pos p + 1 <=? emax - prec) = true) as ->
        by (apply Z.leb_le; change (emax - prec) with 971; lia).
      exists (2 ^ 52)%positive, (b - 1074 + Z.pos p + 1). split; [done|].
      split; [lia|].
      replace (b - 1074 + Z.pos p + 1 + 1074) with (b + Z.pos p + 1) by lia.
      rewrite (Z.pow_add_r 2 (b + Z.pos p) 1) by lia.
      change (2 ^ 53) with (2 ^ 52 * 2 ^ 1) in Hclose.
      change (Z.pos (2 ^ 52)) with (2 ^ 52).
      rewrite (Z.mul_comm (2 ^ (b + Z.pos p))), Z.mul_assoc. lia.
    + destruct m1 as [|pm|pm] eqn:Em1; try lia.
      assert (Zdigits2 (Z.pos pm) = 53) as Hd53.
      { cbn [Zdigits2]. apply digits2_pos_unique. change (53 - 1) with 52. lia. }
      rewrite Hd53, fexp_64.
      assert (Z.max (53 + (b - 1074 + Z.pos p) - 53) (-1074) - (b - 1074 + Z.pos p) = 0)
        as -> by lia.
      cbn [shr shr_record_of_loc shr_m].
      assert ((b - 1074 + Z.pos p <=? emax - prec) = true) as ->
        by (apply Z.leb_le; change (emax - prec) with 971; lia).
      exists pm, (b - 1074 + Z.pos p). split; [done|]. split; [lia|].
      replace (b - 1074 + Z.pos p + 1074) with (b + Z.pos p) by lia. lia.
Qed.


Lemma binary_normalize_near (M b : Z) :
  0 ≤ b → Z.abs M * 2 ^ b < 2 ^ 1120 →
  numeric (binary_normalize prec emax M (b - 1074) false)
  ∧ Z.abs (scaled (binary_normalize prec emax M (b - 1074) false) - M * 2 ^ b)
    ≤ 2 ^ 1066.
Proof.
  intros Hb Hlt. destruct M as [|m|m]; cbn [binary_normalize].
  - split; [done|]. simpl. lia.
  - destruct (binary_round_near false m b Hb) as (m' & e' & -> & He & Herr);
      [by rewrite Z.abs_eq in Hlt by lia|].
    split; [done|]. exact Herr.
  - destruct (binary_round_near true m b Hb) as (m' & e' & -> & He & Herr);
      [by rewrite <- Pos2Z.opp_pos, Z.abs_opp, Z.abs_eq in Hlt by lia|].
    split; [done|]. cbn [scaled cond_Zopp]. rewrite <- Pos2Z.opp_pos. lia.
Qed.

(** A valid finite number has at most 53 digits and an exponent from
    -1074 on. *)
Lemma valid_finite (s : bool) (m : positive) (e : Z) :
  valid_binary (S754_finite s m e) = true →
  -1074 ≤ e ∧ Z.pos m < 2 ^ 53 ∧ (-1074 < e → 2 ^ 52 ≤ Z.pos m).
Proof.
  cbn [SpecFloat.valid_binary]. unfold bounded, canonical_mantissa.
  intros [Hc%Z.eqb_eq _]%andb_true_iff. rewrite fexp_64 in Hc.
  destruct (digits2_pos_bounds m) as [Hl Hu].
  set (D := Z.pos (digits2_pos m)) in *.
  split; [lia|]. split.
  - assert (2 ^ D ≤ 2 ^ 53); [|lia]. apply Z.pow_le_mono_r; lia.
  - intros He. assert (D = 53) as HD by lia. rewrite HD in Hl. exact Hl.
Qed.

(** Adding a positive constant with exponent -54 to a number below [2^45]
    in magnitude: the sum is a number within [2^-8] of the exact sum. *)
Lemma SFadd_near (x : spec_float) (mc : positive) :
  numeric x → valid_binary x = true → Z.abs (scaled x) < 2 ^ 1119 →
  Z.pos mc < 2 ^ 53 →
  numeric (SFadd prec emax x (S754_finite false mc (-54)))
  ∧ Z.abs (scaled (SFadd prec emax x (S754_finite false mc (-54)))
           - (scaled x + Z.pos mc * 2 ^ 1020)) ≤ 2 ^ 1066.
Proof.
  intros Hx Hv Hlt Hmc. destruct x as [s| | |s m e]; try done.
  - cbn [SFadd scaled cond_Zopp]. split; [done|].
    change (-54 + 1074) with 1020. lia.
  - destruct (valid_finite s m e Hv) as (He & _).
    cbn [SFadd]. cbv zeta.
    set (ez := Z.min e (-54)).
    set (M := cond_Zopp s (Z.pos (shl_align m e ez).1)
              + cond_Zopp false (Z.pos (shl_align mc (-54) ez).1)).
    assert (0 ≤ ez + 1074) as Hb by lia.
    assert (0 < 2 ^ (ez + 1074)) as Hpb by (apply Z.pow_pos_nonneg; lia).
    assert (M * 2 ^ (ez + 1074) = scaled (S754_finite s m e) + Z.pos mc * 2 ^ 1020)
      as HM.
    { unfold M. rewrite !shl_align_value by lia. cbn [scaled cond_Zopp].
      assert (2 ^ (e - ez) * 2 ^ (ez + 1074) = 2 ^ (e + 1074)) as H1
        by (rewrite <- Z.pow_add_r by lia; f_equal; lia).
      assert (2 ^ (-54 - ez) * 2 ^ (ez + 1074) = 2 ^ 1020) as H2
        by (rewrite <- Z.pow_add_r by lia; f_equal; lia).
      destruct s; cbn [cond_Zopp]; nia. }
    replace ez with (ez + 1074 - 1074) at 1 2 by lia.
    assert (Z.abs M * 2 ^ (ez + 1074) < 2 ^ 1120) as Hbound.
    { rewrite <- (Z.abs_eq (2 ^ (ez + 1074))) at 1 by lia.
      rewrite <- Z.abs_mul, HM.
      assert (Z.pos mc * 2 ^ 1020 < 2 ^ 1073)
        by (change (2 ^ 1073) with (2 ^ 53 * 2 ^ 1020); nia).
      change (2 ^ 1120) with (2 * 2 ^ 1119).
      assert (2 ^ 1073 < 2 ^ 1119) by (apply Z.pow_lt_mono_r; lia). lia. }
    destruct (binary_normalize_near M (ez + 1074) Hb Hbound) as [Hn Herr].
    split; [exact Hn|]. by rewrite <- HM.
Qed.

Lemma compare_cont_Eq (m1 m2 : positive) :
  Pos.compare_cont Eq m1 m2 = (Z.pos m1 ?= Z.pos m2).
Proof. reflexivity. Qed.

(** Of two valid numbers with the same sign, the one with the smaller
    exponent is the smaller in magnitude. *)
Lemma valid_exponent_lt (s1 s2 : bool) (m1 m2 : positive) (e1 e2 : Z) :
  valid_binary (S754_finite s1 m1 e1) = true →
  valid_binary (S754_finite s2 m2 e2) = true →
  e1 < e2 →
  Z.pos m1 * 2 ^ (e1 + 1074) < Z.pos m2 * 2 ^ (e2 + 1074).
Proof.
  intros (He1 & Hm1 & _)%valid_finite (He2 & _ & Hm2)%valid_finite Hlt.
  specialize (Hm2 ltac:(lia)).
  assert (0 < 2 ^ (e1 + 1074)) as Hp1 by (apply Z.pow_pos_nonneg; lia).
  assert (2 * 2 ^ (e1 + 1074) ≤ 2 ^ (e2 + 1074)) as Hp.
  { replace (2 * 2 ^ (e1 + 1074)) with (2 ^ (e1 + 1074 + 1))
      by (rewrite Z.pow_add_r by lia; lia).
    apply Z.pow_le_mono_r; lia. }
  change (2 ^ 53) with (2 * 2 ^ 52) in Hm1. nia.
Qed.

(** The comparison of binary64 numbers is the comparison of their values. *)
Lemma SFcompare_scaled (x y : spec_float) :
  numeric x → numeric y →
  valid_binary x = true → valid_binary y = true →
  scaled x < scaled y → SFcompare x y = Some Lt.
Proof.
  intros Hx Hy Hvx Hvy.
  destruct x as [sx| | |sx mx ex], y as [sy| | |sy my ey]; try done;
    cbn [scaled SFcompare].
  - destruct (valid_finite _ _ _ Hvy) as (He & _).
    assert (0 < 2 ^ (ey + 1074)) by (apply Z.pow_pos_nonneg; lia).
    destruct sy; cbn [cond_Zopp]; intros Hlt; [nia|done].
  - destruct (valid_finite _ _ _ Hvx) as (He & _).
    assert (0 < 2 ^ (ex + 1074)) by (apply Z.pow_pos_nonneg; lia).
    destruct sx; cbn [cond_Zopp]; intros Hlt; [done|nia].
  - destruct (valid_finite _ _ _ Hvx) as (Hex & _).
    destruct (valid_finite _ _ _ Hvy) as (Hey & _).
    assert (0 < 2 ^ (ex + 1074)) by (apply Z.pow_pos_nonneg; lia).
    assert (0 < 2 ^ (ey + 1074)) by (apply Z.pow_pos_nonneg; lia).
    rewrite compare_cont_Eq.
    destruct sx, sy; cbn [cond_Zopp]; intros Hlt; try done; try nia.
    + destruct (Z.compare_spec ex ey) as [->|Hc|Hc].
      * destruct (Z.compare_spec (Z.pos mx) (Z.pos my)); simpl; try done; nia.
      * pose proof (valid_exponent_lt _ _ _ _ _ _ Hvx Hvy Hc). lia.
      * done.
    + destruct (Z.compare_spec ex ey) as [->|Hc|Hc].
      * destruct (Z.compare_spec (Z.pos mx) (Z.pos my)); simpl; try done; nia.
      * done.
      * pose proof (valid_exponent_lt _ _ _ _ _ _ Hvy Hvx Hc). lia.
Qed.

(** What [|x| < 2^45] says about [x]. *)
Lemma below_2_45 (x : float) :
  PrimFloat.ltb (abs x) 0x1p45 = true →
  numeric (Prim2SF x) ∧ Z.abs (scaled (Prim2SF x)) < 2 ^ 1119.
Proof.
  rewrite ltb_spec, abs_spec. pose proof (Prim2SF_valid x) as Hv.
  change (Prim2SF 0x1p45) with (S754_finite false 4503599627370496 (-7)).
  destruct (Prim2SF x) as [s|s| |s m e]; try done.
  - destruct (valid_finite _ _ _ Hv) as (He & Hm & _).
    unfold SFltb. cbn [SFabs SFcompare]. rewrite compare_cont_Eq.
    intros Hlt. split; [done|]. cbn [scaled].
    assert (0 < 2 ^ (e + 1074)) by (apply Z.pow_pos_nonneg; lia).
    assert (Z.abs (cond_Zopp s (Z.pos m * 2 ^ (e + 1074)))
            = Z.pos m * 2 ^ (e + 1074)) as -> by (destruct s; cbn [cond_Zopp]; nia).
    destruct (Z.compare_spec e (-7)) as [->|Hc|Hc]; [| |done].
    + destruct (Z.compare_spec (Z.pos m) 4503599627370496) as [|Hm'|]; try done.
      change (-7 + 1074) with 1067.
      change (2 ^ 1119) with (4503599627370496 * 2 ^ 1067). nia.
    + assert (2 ^ (e + 1074) ≤ 2 ^ 1066) by (apply Z.pow_le_mono_r; lia).
      change (2 ^ 1119) with (2 ^ 53 * 2 ^ 1066). nia.
Qed.

(** Below [2^45] in magnitude, the hundredth of a second between the two
    sums is not lost to rounding. *)
Lemma add_026_above_025 (ts : float) :
  PrimFloat.ltb (abs ts) 0x1p45 = true →
  PrimFloat.ltb (ts + 0.25) (ts + 0.26) = true.
Proof.
  intros [Hn Hlt]%below_2_45.
  pose proof (Prim2SF_valid ts) as Hv.
  pose proof (Prim2SF_valid (ts + 0.25)) as Hv25.
  pose proof (Prim2SF_valid (ts + 0.26)) as Hv26.
  rewrite ltb_spec, !add_spec. rewrite add_spec in Hv25, Hv26.
  unfold SF64add in *.
  change (Prim2SF 0.25) with (S754_finite false 4503599627370496 (-54)) in *.
  change (Prim2SF 0.26) with (S754_finite false 4683743612465316 (-54)) in *.
  destruct (SFadd_near (Prim2SF ts) 4503599627370496 Hn Hv Hlt ltac:(done))
    as [Hn25 He25].
  destruct (SFadd_near (Prim2SF ts) 4683743612465316 Hn Hv Hlt ltac:(done))
    as [Hn26 He26].
  unfold SFltb. rewrite (SFcompare_scaled _ _ Hn25 Hn26 Hv25 Hv26); [done|].
  assert (2 * 2 ^ 1066 < (4683743612465316 - 4503599627370496) * 2 ^ 1020)
    as Hgap by done.
  lia.
Qed.

End Rounding.

(** ** Note generation agrees with its specification *)
Section SchedulerFacts.

Variable translateWord : string → string.

Lemma pushNote_snoc lineIndex wordIndex word allNotes :
  pushNote translateWord lineIndex wordIndex word allNotes
  = allNotes ++ [specNote translateWord lineIndex wordIndex word].
Proof. reflexivity. Qed.

Lemma forEach_words lineIndex (ws : list KaraokeWord.t) :
  ∀ i allNotes,
    forEach_from (fun word wordIndex => pushNote translateWord lineIndex wordIndex word)
                 i ws allNotes
    = allNotes ++ imap (fun k => specNote translateWord lineIndex (i + k)) ws.
Proof.
  induction ws as [|w ws IH]; intros i allNotes; simpl.
  - by rewrite app_nil_r.
  - rewrite IH, pushNote_snoc, <- app_assoc. simpl.
    f_equal. f_equal; [by rewrite Nat.add_0_r|].
    apply imap_ext. intros k x _. simpl. f_equal. lia.
Qed.

Lemma forEach_lines (ls : list KaraokeLine.t) :
  ∀ i allNotes,
    forEach_from
      (fun line lineIndex =>
         forEach (fun word wordIndex => pushNote translateWord lineIndex wordIndex word)
                 (KaraokeLine.words line))
      i ls allNotes
    = allNotes ++
      concat (imap (fun k line => imap (specNote translateWord (i + k))
                                       (KaraokeLine.words line)) ls).
Proof.
  induction ls as [|l ls IH]; intros i allNotes; simpl.
  - by rewrite app_nil_r.
  - rewrite IH. unfold forEach. rewrite forEach_words, <- app_assoc.
    f_equal. f_equal; [by rewrite Nat.add_0_r|].
    f_equal. apply imap_ext. intros k x _. simpl.
    by replace (i + S k) with (S i + k) by lia.
Qed.

(** The notes before the difficulty filter are the flattened track. *)
Lemma allNotes_flatten (track : TimingData.t) :
  forEach (fun line lineIndex =>
             forEach (fun word wordIndex => pushNote translateWord lineIndex wordIndex word)
                     (KaraokeLine.words line))
          (TimingData.lyrics track) []
  = specFlatten translateWord track.
Proof. unfold forEach. by rewrite forEach_lines. Qed.

Lemma filter_from_ext {A} (p q : A → nat → bool) (l : list A) :
  (∀ x i, p x i = q x i) → ∀ i, filter_from p i l = filter_from q i l.
Proof.
  intros Hpq. induction l as [|x l IH]; intros i; simpl; [done|].
  by rewrite Hpq, !IH.
Qed.

Lemma filter_from_select (keep : nat → bool) (l : list Note.t) :
  ∀ pre : list Note.t,
    filter_from (fun _ index => keep index) (length pre) l
    = omap (fun index => if keep index then (pre ++ l) !! index else None)
           (seq (length pre) (length l)).
Proof.
  induction l as [|x l IH]; intros pre; simpl; [done|].
  specialize (IH (pre ++ [x])).
  rewrite length_app, Nat.add_1_r, <- app_assoc in IH. simpl in IH.
  rewrite IH. destruct (keep (length pre)); [|done].
  by rewrite list_lookup_middle.
Qed.

Lemma filter_index_select (keep : nat → bool) (l : list Note.t) :
  filter_index (fun _ index => keep index) l = specSelect keep l.
Proof. exact (filter_from_select keep l []). Qed.

Lemma filter_from_sublist {A} (p : A → nat → bool) (l : list A) :
  ∀ i, filter_from p i l `sublist_of` l.
Proof.
  induction l as [|x l IH]; intros i; simpl; [constructor|].
  destruct (p x i); by constructor.
Qed.

Lemma filter_from_all {A} (l : list A) :
  ∀ i, filter_from (fun _ _ => true) i l = l.
Proof. induction l as [|x l IH]; intros i; simpl; [done|]. by rewrite IH. Qed.

Lemma even_mod2 (i : nat) : Nat.even i = (i mod 2 =? 0).
Proof.
  destruct (Nat.even i) eqn:He; symmetry.
  - apply Nat.eqb_eq. apply Nat.even_spec in He as [k ->].
    by rewrite Nat.mul_comm, Nat.Div0.mod_mul.
  - apply Nat.eqb_neq. intros Hm. apply Nat.Div0.mod_divides in Hm as [k ->].
    rewrite Nat.even_mul in He. done.
Qed.

Lemma divide_mod (n i : nat) : bool_decide (n | i) = (i mod n =? 0).
Proof.
  destruct (i mod n =? 0) eqn:Hm.
  - apply bool_decide_eq_true. apply Nat.eqb_eq in Hm.
    apply Nat.Lcm0.mod_divide. done.
  - apply bool_decide_eq_false. apply Nat.eqb_neq in Hm.
    intros Hd. apply Hm. by apply Nat.Lcm0.mod_divide.
Qed.

(** On levels 1 to 5 the filter callback is the table's keep rule. *)
Lemma difficultyFilter_specKeep (difficulty : Z) keep :
  specKeep difficulty = Some keep →
  ∀ index, difficultyFilter difficulty index = keep index.
Proof.
  unfold specKeep, difficultyFilter. intros Hk index.
  destruct difficulty as [|[[[]|[]|]|[[]|[]|]|]|]; simplify_eq; simpl;
    auto using even_mod2, divide_mod.
  all: symmetry; auto using even_mod2, divide_mod.
Qed.

(** C1: for every timing track and every difficulty from 1 to 5,
    [createNotes] returns what the specification's generator returns
    (the flattened words in line and word order, each with lane
    (lineIndex + wordIndex) mod 4, id "<lineIndex>-<wordIndex>" and
    hit = false, restricted to the flattened indices the difficulty keeps);
    the result is a subsequence of the flattened list, and difficulty 5
    returns the whole flattened list. *)
Theorem createNotes_generate (track : TimingData.t) (difficulty : Z) :
  (1 ≤ difficulty ≤ 5)%Z →
  specGenerate translateWord track difficulty
    = Some (createNotes translateWord (Some track) difficulty)
  ∧ createNotes translateWord (Some track) difficulty
      `sublist_of` specFlatten translateWord track
  ∧ createNotes translateWord (Some track) 5 = specFlatten translateWord track.
Proof.
  intros Hd. unfold createNotes. cbv zeta. rewrite allNotes_flatten.
  split; [|split].
  - unfold specGenerate.
    assert (∃ keep, specKeep difficulty = Some keep) as [keep Hk].
    { assert (difficulty = 1 ∨ difficulty = 2 ∨ difficulty = 3
              ∨ difficulty = 4 ∨ difficulty = 5)%Z as Hc by lia.
      destruct Hc as [->|[->|[->|[->| ->]]]]; simpl; eauto. }
    rewrite Hk. simpl. f_equal.
    rewrite <- filter_index_select. unfold filter_index.
    apply filter_from_ext. intros _ i. symmetry.
    by apply difficultyFilter_specKeep.
  - apply filter_from_sublist.
  - apply filter_from_all.
Qed.

End SchedulerFacts.

(** ** Facts about candidate selection *)
Section JudgeFacts.

Import FloatOrder.

Implicit Types (s : Session) (c r : NoteRef) (n : Note.t).

Lemma elem_of_candidatesOf lane t (notes : list Note.t) c :
  c ∈ candidatesOf lane t notes
  ↔ notes !! c.1 = Some c.2 ∧ isCandidate lane t c.2 = true.
Proof.
  unfold candidatesOf. rewrite list_elem_of_In, filter_In, <- list_elem_of_In.
  rewrite elem_of_lookup_imap. destruct c as [i n]; simpl. split.
  - intros [(j & x & [= -> ->] & Hx) Hc]. done.
  - intros [Hx Hc]. split; [|done]. by exists i, n.
Qed.

Lemma isCandidate_spec lane t n :
  isCandidate lane t n = true
  ↔ Note.lane n = lane ∧ Note.hit n = false
    ∧ PrimFloat.leb (timeDeltaOf t n) HIT_WINDOWS.MISS = true.
Proof.
  unfold isCandidate. rewrite !andb_true_iff, Nat.eqb_eq, negb_true_iff. tauto.
Qed.

Lemma imap_pair_sorted {A} (l : list A) :
  ∀ i, StronglySorted (fun a b : nat * A => a.1 < b.1)
                      (imap (fun k x => (i + k, x)) l).
Proof.
  induction l as [|x l IH]; intros i; [constructor|].
  rewrite imap_cons. constructor.
  - erewrite imap_ext; [apply (IH (S i))|].
    intros k y _. simpl. f_equal. lia.
  - apply Forall_forall. intros [j y] (k & z & [= -> ->] & _)%elem_of_lookup_imap.
    simpl. lia.
Qed.

Lemma filter_sorted {A} (R : relation A) (p : A → bool) (l : list A) :
  StronglySorted R l → StronglySorted R (List.filter p l).
Proof.
  induction 1 as [|x l Hl IH Hx]; simpl; [constructor|].
  destruct (p x); [|done]. constructor; [done|].
  apply Forall_forall. intros y Hy%list_elem_of_In%filter_In.
  rewrite Forall_forall in Hx. apply Hx, list_elem_of_In, Hy.
Qed.

(** Candidates are listed in the order of the note sequence. *)
Lemma candidatesOf_sorted lane t (notes : list Note.t) :
  StronglySorted (fun a b : NoteRef => a.1 < b.1) (candidatesOf lane t notes).
Proof. apply filter_sorted, (imap_pair_sorted notes 0). Qed.

Lemma candidate_not_nan lane t n :
  isCandidate lane t n = true → ¬ is_nan (timeDeltaOf t n).
Proof. intros (_ & _ & H)%isCandidate_spec. by eapply leb_not_nan_l. Qed.

(** The result of the reduction is one of the candidates, no candidate is
    strictly closer, and among equally close candidates it is the last. *)
Lemma reduce_closer t (rest : list NoteRef) :
  ∀ first,
    Forall (fun c => ¬ is_nan (timeDeltaOf t c.2)) (first :: rest) →
    StronglySorted (fun a b : NoteRef => a.1 < b.1) (first :: rest) →
    let closest := reduce (closer t) first rest in
    closest ∈ first :: rest
    ∧ (∀ c, c ∈ first :: rest →
         PrimFloat.leb (timeDeltaOf t closest.2) (timeDeltaOf t c.2) = true)
    ∧ (∀ c, c ∈ first :: rest →
         PrimFloat.leb (timeDeltaOf t c.2) (timeDeltaOf t closest.2) = true →
         c.1 ≤ closest.1).
Proof.
  induction rest as [|b rest IH] using rev_ind; intros first Hnan Hsorted; simpl.
  - unfold reduce; simpl. split; [by left|]. split.
    + intros c ->%list_elem_of_singleton. apply leb_refl.
      by apply Forall_cons in Hnan as [? _].
    + by intros c ->%list_elem_of_singleton _.
  - rewrite app_comm_cons in Hnan, Hsorted.
    apply Forall_app in Hnan as [Hnan Hb].
    apply Forall_cons in Hb as [Hb _].
    apply StronglySorted_app in Hsorted as (Hlt & Hsorted & _).
    destruct (IH first Hnan Hsorted) as (Hin & Hmin & Htie). clear IH.
    unfold reduce in *. rewrite fold_left_app. simpl.
    set (a := fold_left (closer t) rest first) in *.
    assert (¬ is_nan (timeDeltaOf t a.2)) as Ha.
    { rewrite Forall_forall in Hnan. by apply Hnan. }
    cbv zeta. unfold closer.
    destruct (PrimFloat.ltb (timeDeltaOf t a.2) (timeDeltaOf t b.2)) eqn:Hab.
    + split; [|split].
      * rewrite app_comm_cons. apply elem_of_app. by left.
      * intros c. rewrite app_comm_cons, elem_of_app, list_elem_of_singleton.
        intros [Hc| ->]; [by apply Hmin | by apply ltb_leb].
      * intros c. rewrite app_comm_cons, elem_of_app, list_elem_of_singleton.
        intros [Hc| ->] Hle; [by apply Htie|].
        apply ltb_not_leb in Hab. congruence.
    + pose proof (not_ltb_leb _ _ Ha Hb Hab) as Hba.
      split; [|split].
      * rewrite app_comm_cons. apply elem_of_app. right. by left.
      * intros c. rewrite app_comm_cons, elem_of_app, list_elem_of_singleton.
        intros [Hc| ->]; [|by apply leb_refl].
        eapply leb_trans; [exact Hba | by apply Hmin].
      * intros c. rewrite app_comm_cons, elem_of_app, list_elem_of_singleton.
        intros [Hc| ->] _; [|done].
        apply Nat.lt_le_incl, (Hlt c b); [done | by left].
Qed.

(** What a successful [judge] did, in terms of the candidate list. *)
Lemma judge_Some showTranslations lane t s s' (j : Judgment) :
  judge showTranslations lane t s = (s', Some j) →
  ∃ first rest,
    candidatesOf lane t (notesRef s) = first :: rest
    ∧ j_closest j = reduce (closer t) first rest
    ∧ j_lane j = lane
    ∧ j_tier j = classify (timeDeltaOf t (j_closest j).2)
    ∧ j_judgment j = judgmentOf showTranslations (j_tier j)
    ∧ j_points j = pointsOf (j_tier j)
    ∧ j_judgmentColor j = judgmentColorOf (j_tier j)
    ∧ s' = {| notesRef := alter (Note.set_hit true) (j_closest j).1 (notesRef s);
              scoreRef := scoreRef s + j_points j;
              comboRef := comboRef s + 1;
              totalHitsRef := totalHitsRef s + 1;
              maxComboRef := Z.max (maxComboRef s) (comboRef s + 1) |}.
Proof.
  unfold judge. destruct (candidatesOf lane t (notesRef s)) as [|first rest] eqn:Hc;
    [done|].
  intros [= <- <-]. exists first, rest. simpl. done.
Qed.

Lemma judge_None showTranslations lane t s s' :
  judge showTranslations lane t s = (s', None) →
  candidatesOf lane t (notesRef s) = [] ∧ s' = s.
Proof.
  unfold judge. destruct (candidatesOf lane t (notesRef s)); [|done].
  by intros [= <-].
Qed.

(** The judged note is a candidate of the press. *)
Lemma judge_closest_candidate showTranslations lane t s s' (j : Judgment) :
  judge showTranslations lane t s = (s', Some j) →
  j_closest j ∈ candidatesOf lane t (notesRef s)
  ∧ (∀ c, c ∈ candidatesOf lane t (notesRef s) →
       PrimFloat.leb (timeDeltaOf t (j_closest j).2) (timeDeltaOf t c.2) = true)
  ∧ (∀ c, c ∈ candidatesOf lane t (notesRef s) →
       PrimFloat.leb (timeDeltaOf t c.2) (timeDeltaOf t (j_closest j).2) = true →
       c.1 ≤ (j_closest j).1).
Proof.
  intros (first & rest & Hc & -> & _)%judge_Some.
  rewrite Hc. apply reduce_closer.
  - rewrite <- Hc. apply Forall_forall.
    intros c [_ ?]%elem_of_candidatesOf. by eapply candidate_not_nan.
  - rewrite <- Hc. apply candidatesOf_sorted.
Qed.

End JudgeFacts.

(** ** How the note array evolves

    Notes are never added, removed or reordered after [startGame]; the only
    assignment to a note is [hit = true], by a judgment or by the auto-miss
    pass, and both guard it with [!note.hit]. *)
Section NoteStore.

Import FloatOrder.


Lemma marks_refl notes : marks notes notes.
Proof. apply Forall2_same_length_lookup. split; [done|]. intros; simplify_eq. by left. Qed.

Lemma marks_trans notes1 notes2 notes3 :
  marks notes1 notes2 → marks notes2 notes3 → marks notes1 notes3.
Proof.
  unfold marks. intros H12 H23.
  eapply Forall2_trans; [|exact H12|exact H23].
  intros n1 n2 n3 [->|[H1 ->]] [->|[H2 ->]]; auto.
Qed.

Lemma marks_length notes notes' : marks notes notes' → length notes = length notes'.
Proof. apply Forall2_length. Qed.

Lemma marks_lookup notes notes' i n :
  marks notes notes' → notes !! i = Some n →
  ∃ n', notes' !! i = Some n'
        ∧ (n' = n ∨ (Note.hit n = false ∧ n' = Note.set_hit true n)).
Proof. intros H Hn. by apply (Forall2_lookup_l _ _ _ _ _ H Hn). Qed.

(** A set flag stays set. *)
Lemma marks_hit notes notes' i n :
  marks notes notes' → notes !! i = Some n → Note.hit n = true →
  notes' !! i = Some n.
Proof.
  intros H Hn Hhit. destruct (marks_lookup _ _ _ _ H Hn) as (n' & Hn' & [->|[? _]]);
    [done|congruence].
Qed.

(** A note that is unhit afterwards is the note that was there before. *)
Lemma marks_unhit notes notes' i n' :
  marks notes notes' → notes' !! i = Some n' → Note.hit n' = false →
  notes !! i = Some n'.
Proof.
  intros H Hn' Hhit.
  destruct (Forall2_lookup_r _ _ _ _ _ H Hn') as (n & Hn & [->|[_ ->]]); [done|].
  simpl in Hhit. discriminate.
Qed.

Lemma marks_alter notes i n :
  notes !! i = Some n → Note.hit n = false →
  marks notes (alter (Note.set_hit true) i notes).
Proof.
  intros Hn Hhit. apply Forall2_same_length_lookup. split.
  - by rewrite length_alter.
  - intros j x y Hx Hy. destruct (decide (i = j)) as [<-|Hne].
    + rewrite list_lookup_alter_eq, Hn in Hy. simplify_eq/=. auto.
    + rewrite list_lookup_alter_ne in Hy by done. simplify_eq/=. auto.
Qed.

Lemma hitAt_marks (s s' : Session) i :
  marks (notesRef s) (notesRef s') → hitAt i s = Some true → hitAt i s' = Some true.
Proof.
  unfold hitAt. intros H Hi.
  destruct (notesRef s !! i) as [n|] eqn:Hn; [|done].
  injection Hi as Hi. rewrite (marks_hit _ _ _ _ H Hn Hi). simpl. by f_equal.
Qed.

Lemma hitAt_is_Some (s s' : Session) i :
  marks (notesRef s) (notesRef s') → is_Some (hitAt i s) ↔ is_Some (hitAt i s').
Proof.
  unfold hitAt. intros H%marks_length.
  rewrite !fmap_is_Some, !lookup_lt_is_Some. by rewrite H.
Qed.

(** The judged note was an unhit candidate and is hit afterwards. *)
Lemma judge_marks showTranslations lane t (s s' : Session) (r : option Judgment) :
  judge showTranslations lane t s = (s', r) → marks (notesRef s) (notesRef s').
Proof.
  destruct r as [j|].
  - intros Hj. destruct (judge_closest_candidate _ _ _ _ _ _ Hj) as (Hin & _).
    apply elem_of_candidatesOf in Hin as [Hl (_ & Hh & _)%isCandidate_spec].
    apply judge_Some in Hj as (_ & _ & _ & _ & _ & _ & _ & _ & _ & -> ). simpl.
    by eapply marks_alter.
  - intros [_ ->]%judge_None. apply marks_refl.
Qed.

Lemma judge_hit_after showTranslations lane t (s s' : Session) (j : Judgment) :
  judge showTranslations lane t s = (s', Some j) →
  notesRef s' !! (j_closest j).1 = Some (Note.set_hit true (j_closest j).2).
Proof.
  intros Hj. destruct (judge_closest_candidate _ _ _ _ _ _ Hj) as (Hin & _).
  apply elem_of_candidatesOf in Hin as [Hl _].
  apply judge_Some in Hj as (_ & _ & _ & _ & _ & _ & _ & _ & _ & -> ). simpl.
  by rewrite list_lookup_alter_eq, Hl.
Qed.

Lemma autoMiss_cases t n combo :
  autoMiss t n combo
  = if expired t n then (Note.set_hit true n, 0%Z) else (n, combo).
Proof. unfold autoMiss, expired. by destruct (Note.hit n), (PrimFloat.ltb _ _). Qed.

Lemma sweep_marks t notes :
  ∀ combo, marks notes (sweep t notes combo).1.
Proof.
  induction notes as [|n notes IH]; intros combo; simpl; [constructor|].
  rewrite autoMiss_cases.
  destruct (expired t n) eqn:Hm.
  - specialize (IH 0%Z). destruct (sweep t notes 0) as [rest1 combo2]. simpl in *.
    constructor; [|done]. right. apply andb_true_iff in Hm as [Hh%negb_true_iff _]. done.
  - specialize (IH combo). destruct (sweep t notes combo) as [rest1 combo2]. simpl in *.
    constructor; [|done]. by left.
Qed.

Lemma render_marks audio (s : Session) : marks (notesRef s) (notesRef (render audio s)).
Proof.
  destruct audio as [t|]; simpl; [|apply marks_refl].
  pose proof (sweep_marks t (notesRef s) (comboRef s)) as H.
  by destruct (sweep t (notesRef s) (comboRef s)).
Qed.

End NoteStore.

(** ** Every judgment an event produces *)
Section EventFacts.

Import FloatOrder.

Variable showTranslations : bool.


Lemma judge_judgedAt lane t (s s' : Session) (j : Judgment) :
  judge showTranslations lane t s = (s', Some j) →
  j_lane j = lane ∧ judgedAt showTranslations t (notesRef s) j.
Proof.
  intros Hj. destruct (judge_closest_candidate _ _ _ _ _ _ Hj) as (Hin & _).
  apply elem_of_candidatesOf in Hin as [Hl Hc].
  apply judge_Some in Hj as (_ & _ & _ & _ & Hlane & ? & ? & ? & ? & _).
  rewrite Hlane. unfold judgedAt. by rewrite Hlane.
Qed.

Lemma judgedAt_marks t notes notes1 (j : Judgment) :
  marks notes notes1 →
  judgedAt showTranslations t notes1 j → judgedAt showTranslations t notes j.
Proof.
  intros Hm (Hl & Hc & Hrest). split; [|done].
  pose proof Hc as (_ & Hh & _)%isCandidate_spec.
  by eapply marks_unhit.
Qed.

Lemma judgedAt_unhit t notes (j : Judgment) :
  judgedAt showTranslations t notes j →
  Note.hit <$> notes !! (j_closest j).1 = Some false.
Proof.
  intros (Hl & (_ & Hh & _)%isCandidate_spec & _). by rewrite Hl; simpl; f_equal.
Qed.


Lemma pointsOf_25 (tier : Tier) : pointsOf tier = 25%Z.
Proof. by destruct tier. Qed.

Lemma judge_scored lane t (s s' : Session) (r : option Judgment) :
  judge showTranslations lane t s = (s', r) → scored s s' (length (option_list r)).
Proof.
  destruct r as [j|].
  - intros (_ & _ & _ & _ & _ & _ & _ & Hp & _ & ->)%judge_Some.
    rewrite Hp, pointsOf_25. unfold scored. simpl. lia.
  - intros [_ ->]%judge_None. unfold scored. simpl. lia.
Qed.


Lemma handleTouch_loop_ok t (lanes : list Z) :
  ∀ s s' js,
    handleTouch_loop showTranslations lanes t s = (s', js) →
    judgments_ok showTranslations (touchstart lanes (Some t)) s s' js.
Proof.
  induction lanes as [|lane lanes IH]; intros s s' js; simpl.
  - intros [= <- <-]. split; [apply marks_refl|]. split; [constructor|].
    split; [constructor|]. unfold scored. simpl. lia.
  - destruct ((lane <? 0) || (lane >? 3))%Z eqn:Hrange.
    + intros (Hm & Hjs & Hnd & Hsc)%IH. split; [done|]. split; [|done].
      eapply Forall_impl; [exact Hjs|]. simpl. intros j (Hj & Hl & Hh).
      split; [done|]. split; [|done]. by rewrite Hrange.
    + destruct (judge showTranslations (Z.to_nat lane) t s) as [s1 r] eqn:Hjudge.
      destruct (handleTouch_loop showTranslations lanes t s1) as [s2 js2] eqn:Hloop.
      intros [= <- <-].
      apply IH in Hloop as (Hm2 & Hjs2 & Hnd2 & Hsc2).
      pose proof (judge_marks _ _ _ _ _ _ Hjudge) as Hm1.
      pose proof (judge_scored _ _ _ _ _ Hjudge) as Hsc1.
      assert (Forall (fun j => (∃ t0, Some t = Some t0
                                       ∧ judgedAt showTranslations t0 (notesRef s) j)
                ∧ j_lane j ∈ pressedLanes (touchstart (lane :: lanes) (Some t))
                ∧ hitAt (j_closest j).1 s2 = Some true) js2) as Hjs2'.
      { eapply Forall_impl; [exact Hjs2|]. simpl.
        intros j ((t0 & [= <-] & Hj) & Hl & Hh). rewrite Hrange. simpl.
        split; [|split; [by right|done]].
        exists t. split; [done|]. by eapply judgedAt_marks. }
      split; [by eapply marks_trans|].
      destruct r as [j|]; simpl.
      * pose proof (judge_judgedAt _ _ _ _ _ Hjudge) as [Hlane Hj].
        pose proof (judge_hit_after _ _ _ _ _ _ Hjudge) as Hafter.
        split; [|split].
        -- constructor; [|done]. split; [by exists t|]. split.
           ++ simpl. rewrite Hrange, Hlane. simpl. by left.
           ++ apply (hitAt_marks s1 s2); [done|]. unfold hitAt. by rewrite Hafter.
        -- constructor; [|done].
           intros (j2 & Heq & Hin)%list_elem_of_fmap.
           rewrite Forall_forall in Hjs2.
           destruct (Hjs2 _ Hin) as ((t0 & [= <-] & Hj2) & _).
           apply judgedAt_unhit in Hj2. rewrite <- Heq, Hafter in Hj2.
           simpl in Hj2. discriminate.
        -- unfold scored in *. simpl in *. lia.
      * split; [done|]. split; [done|]. unfold scored in *. simpl in *. lia.
Qed.

Lemma step_ok (e : Event) (s s' : Session) (js : list Judgment) :
  step showTranslations e s = (s', js) → judgments_ok showTranslations e s s' js.
Proof.
  destruct e as [key audio|lanes audio|audio]; simpl.
  - unfold handleKey.
    destruct (laneMap key) as [lane|] eqn:Hkey; [destruct audio as [t|]|].
    + destruct (judge showTranslations lane t s) as [s1 r] eqn:Hjudge.
      intros [= <- <-]. split; [by eapply judge_marks|].
      pose proof (judge_scored _ _ _ _ _ Hjudge) as Hsc.
      destruct r as [j|]; simpl.
      * pose proof (judge_judgedAt _ _ _ _ _ Hjudge) as [Hlane Hj].
        pose proof (judge_hit_after _ _ _ _ _ _ Hjudge) as Hafter.
        split; [|split; [|done]].
        -- constructor; [|done]. split; [by exists t|]. split.
           ++ rewrite Hkey, Hlane. simpl. by left.
           ++ unfold hitAt. by rewrite Hafter.
        -- constructor; [|constructor]. by intros ?%elem_of_nil.
      * split; [constructor|]. split; [constructor|]. done.
    + intros [= <- <-]. split; [apply marks_refl|]. split; [constructor|].
      split; [constructor|]. unfold scored. simpl. lia.
    + intros [= <- <-]. split; [apply marks_refl|]. split; [constructor|].
      split; [constructor|]. unfold scored. simpl. lia.
  - destruct audio as [t|]; simpl.
    + apply handleTouch_loop_ok.
    + intros [= <- <-]. split; [apply marks_refl|]. split; [constructor|].
      split; [constructor|]. unfold scored. simpl. lia.
  - intros [= <- <-]. split; [apply render_marks|]. split; [constructor|].
    split; [constructor|]. unfold scored. simpl.
    destruct audio as [t|]; simpl; [|lia].
    destruct (sweep t (notesRef s) (comboRef s)); simpl. lia.
Qed.

End EventFacts.


(** ** The tier of a judgment *)
Section Classification.

Import FloatOrder.

Lemma PERFECT_le_GOOD : PrimFloat.leb HIT_WINDOWS.PERFECT HIT_WINDOWS.GOOD = true.
Proof. reflexivity. Qed.

Lemma PERFECT_not_nan : ¬ is_nan HIT_WINDOWS.PERFECT.
Proof. by eapply leb_not_nan_l, PERFECT_le_GOOD. Qed.

Lemma GOOD_not_nan : ¬ is_nan HIT_WINDOWS.GOOD.
Proof. apply (leb_not_nan_l _ HIT_WINDOWS.MISS). reflexivity. Qed.

Lemma classify_PERFECT (d : float) :
  classify d = PERFECT ↔ PrimFloat.leb d HIT_WINDOWS.PERFECT = true.
Proof.
  unfold classify.
  destruct (PrimFloat.leb d HIT_WINDOWS.PERFECT); [done|].
  by destruct (PrimFloat.leb d HIT_WINDOWS.GOOD).
Qed.

Lemma classify_GOOD (d : float) :
  ¬ is_nan d →
  classify d = GOOD
  ↔ PrimFloat.ltb HIT_WINDOWS.PERFECT d = true
    ∧ PrimFloat.leb d HIT_WINDOWS.GOOD = true.
Proof.
  intros Hd. unfold classify. split.
  - destruct (PrimFloat.leb d HIT_WINDOWS.PERFECT) eqn:Hp; [done|].
    destruct (PrimFloat.leb d HIT_WINDOWS.GOOD) eqn:Hg; [|done].
    intros _. split; [|done].
    destruct (PrimFloat.ltb HIT_WINDOWS.PERFECT d) eqn:Hlt; [done|].
    pose proof (not_ltb_leb _ _ PERFECT_not_nan Hd Hlt). congruence.
  - intros [Hlt%ltb_not_leb ->]. by rewrite Hlt.
Qed.

Lemma classify_OK (d : float) :
  ¬ is_nan d →
  classify d = OK ↔ PrimFloat.ltb HIT_WINDOWS.GOOD d = true.
Proof.
  intros Hd. unfold classify. split.
  - destruct (PrimFloat.leb d HIT_WINDOWS.PERFECT) eqn:Hp; [done|].
    destruct (PrimFloat.leb d HIT_WINDOWS.GOOD) eqn:Hg; [done|].
    intros _.
    destruct (PrimFloat.ltb HIT_WINDOWS.GOOD d) eqn:Hlt; [done|].
    pose proof (not_ltb_leb _ _ GOOD_not_nan Hd Hlt). congruence.
  - intros Hlt.
    rewrite (ltb_not_leb _ _ Hlt).
    destruct (PrimFloat.leb d HIT_WINDOWS.PERFECT) eqn:Hp; [|done].
    pose proof (leb_trans d HIT_WINDOWS.PERFECT HIT_WINDOWS.GOOD Hp PERFECT_le_GOOD) as Hg.
    apply ltb_not_leb in Hlt. congruence.
Qed.

End Classification.

(** ** Judgment: the properties *)
Section JudgmentProperties.

Import FloatOrder.

Variable showTranslations : bool.

Lemma step_judgedAt (e : Event) (s : Session) (t : float) (j : Judgment) :
  eventClock e = Some t → j ∈ (step showTranslations e s).2 →
  judgedAt showTranslations t (notesRef s) j ∧ j_lane j ∈ pressedLanes e.
Proof.
  intros Ht Hj.
  destruct (step showTranslations e s) as [s' js] eqn:Hstep.
  apply step_ok in Hstep as (_ & Hjs & _). rewrite Forall_forall in Hjs.
  destruct (Hjs j Hj) as ((t' & Ht' & Hat) & Hl & _).
  rewrite Ht in Ht'. by simplify_eq.
Qed.

(** C2: for every judgment an input event (key or touch) produces, the tier
    is decided by d = |timestamp - t| of the judged note alone, t being the
    clock the event read: PERFECT exactly when d <= 0.08, GOOD exactly when
    0.08 < d <= 0.15, OK exactly when 0.15 < d <= 0.25, and d is never above
    0.25; every tier is worth 25 points, and the event raises the score by
    25 per judgment whatever the tiers.  On the four-word track the lane-3
    note at 2.0 is judged PERFECT at 1.95 and at 2.05, GOOD at 1.9 and at
    2.1, OK at 1.8 and at 2.2, and not at all at 5.0. *)
Theorem tier_by_delta (e : Event) (s : Session) (t : float) (j : Judgment) :
  eventClock e = Some t →
  j ∈ (step showTranslations e s).2 →
  let d := PrimFloat.abs (Note.timestamp (j_closest j).2 - t)%float in
  (j_tier j = PERFECT ↔ PrimFloat.leb d 0.08%float = true)
  ∧ (j_tier j = GOOD ↔ PrimFloat.ltb 0.08%float d = true
                       ∧ PrimFloat.leb d 0.15%float = true)
  ∧ (j_tier j = OK ↔ PrimFloat.ltb 0.15%float d = true
                     ∧ PrimFloat.leb d 0.25%float = true)
  ∧ PrimFloat.leb d 0.25%float = true
  ∧ j_tier j = classify d
  ∧ j_points j = 25%Z
  ∧ (∀ tier, pointsOf tier = 25%Z)
  ∧ scoreRef (step showTranslations e s).1
    = (scoreRef s + 25 * Z.of_nat (length (step showTranslations e s).2))%Z
  ∧ (∀ t0, (t0 = 1.95 ∨ t0 = 2.05)%float →
           j_tier <$> (step showTranslations (keydown "ArrowRight" (Some t0))
                            fourWordsSession).2 = [PERFECT])
  ∧ (∀ t0, (t0 = 1.9 ∨ t0 = 2.1)%float →
           j_tier <$> (step showTranslations (keydown "ArrowRight" (Some t0))
                            fourWordsSession).2 = [GOOD])
  ∧ (∀ t0, (t0 = 1.8 ∨ t0 = 2.2)%float →
           j_tier <$> (step showTranslations (touchstart [3%Z] (Some t0))
                            fourWordsSession).2 = [OK])
  ∧ (step showTranslations (keydown "ArrowRight" (Some 5.0%float))
          fourWordsSession).2 = [].
Proof.
  intros Ht Hj d.
  destruct (step_judgedAt e s t j Ht Hj) as [(_ & Hc & Htier & _ & Hp & _) _].
  pose proof (candidate_not_nan _ _ _ Hc) as Hd.
  apply isCandidate_spec in Hc as (_ & _ & Hmiss).
  change (timeDeltaOf t (j_closest j).2) with d in Htier, Hd, Hmiss.
  rewrite Htier.
  split; [exact (classify_PERFECT d)|].
  split; [exact (classify_GOOD d Hd)|].
  split; [pose proof (classify_OK d Hd) as HOK; unfold HIT_WINDOWS.GOOD in HOK;
          rewrite HOK; split; [by intros ?|by intros [? _]]|].
  split; [exact Hmiss|]. split; [done|].
  split; [by rewrite Hp, Htier, pointsOf_25|].
  split; [apply pointsOf_25|].
  split.
  { destruct (step showTranslations e s) as [s' js] eqn:Hstep.
    by apply step_ok in Hstep as (_ & _ & _ & Hsc & _). }
  split; [by intros t0 [-> | ->]|].
  split; [by intros t0 [-> | ->]|].
  split; [by intros t0 [-> | ->]|].
  reflexivity.
Qed.

(** C3: for every input event (key or touch) read at clock t, each note it
    judges is a note of the array in a pressed lane, unhit when selected,
    with |timestamp - t| <= 0.25; a note with |timestamp - t| > 0.25 is
    never the judged one, be the press early or late: on the four-word
    track the lane-3 note at 2.0 is judged at 1.75 and at 2.25, and not at
    1.7, at 2.3 or at 5.0. *)
Theorem judged_note_in_window (e : Event) (s : Session) (t : float) (j : Judgment) :
  eventClock e = Some t →
  j ∈ (step showTranslations e s).2 →
  j_lane j ∈ pressedLanes e
  ∧ notesRef s !! (j_closest j).1 = Some (j_closest j).2
  ∧ Note.lane (j_closest j).2 = j_lane j
  ∧ Note.hit (j_closest j).2 = false
  ∧ PrimFloat.leb (PrimFloat.abs (Note.timestamp (j_closest j).2 - t)) 0.25%float
    = true
  ∧ (∀ i n, notesRef s !! i = Some n →
            PrimFloat.ltb 0.25%float (PrimFloat.abs (Note.timestamp n - t)) = true →
            (j_closest j).1 ≠ i)
  ∧ (∀ t0, (t0 = 1.75 ∨ t0 = 2.25)%float →
           (fun j0 => (j_closest j0).1)
             <$> (step showTranslations (keydown "ArrowRight" (Some t0))
                       fourWordsSession).2 = [3])
  ∧ (∀ t0, (t0 = 1.7 ∨ t0 = 2.3 ∨ t0 = 5.0)%float →
           (step showTranslations (keydown "ArrowRight" (Some t0))
                 fourWordsSession).2 = []
           ∧ (step showTranslations (touchstart [3%Z] (Some t0))
                   fourWordsSession).2 = []).
Proof.
  intros Ht Hj.
  destruct (step_judgedAt e s t j Ht Hj) as [(Hl & Hc & _) Hlane].
  apply isCandidate_spec in Hc as (Hln & Hh & Hmiss).
  do 4 (split; [done|]). split; [exact Hmiss|]. split.
  - intros i n Hn Hlt <-. rewrite Hl in Hn. injection Hn as <-.
    change (PrimFloat.ltb HIT_WINDOWS.MISS (timeDeltaOf t (j_closest j).2) = true)
      in Hlt.
    apply ltb_not_leb in Hlt. congruence.
  - split; [by intros t0 [-> | ->]|].
    by intros t0 [-> | [-> | ->]].
Qed.



(** C6: when a press has no candidate (no unhit note of its lane within
    0.25 s of the clock), nothing is judged and the session is returned as
    it was: score, streak, maxStreak, hit count and every note unchanged,
    for a key as for a touch.  With no notes at all this is always the
    case, and the auto-miss pass leaves such a session as it is. *)
Theorem no_candidate_no_effect (lane : nat) (t : float) (s : Session) :
  candidatesOf lane t (notesRef s) = [] →
  judge showTranslations lane t s = (s, None)
  ∧ (∀ key, laneMap key = Some lane →
            handleKey showTranslations key (Some t) s = (s, None))
  ∧ handleTouch showTranslations [Z.of_nat lane] (Some t) s = (s, [])
  ∧ (∀ e s0, notesRef s0 = [] → step showTranslations e s0 = (s0, [])).
Proof.
  intros Hc.
  assert (judge showTranslations lane t s = (s, None)) as Hj.
  { unfold judge. by rewrite Hc. }
  split; [done|]. split; [|split].
  - intros key Hkey. unfold handleKey. by rewrite Hkey.
  - simpl. destruct ((Z.of_nat lane <? 0) || (Z.of_nat lane >? 3))%Z; [done|].
    by rewrite Nat2Z.id, Hj.
  - intros e [notes ? ? ? ?] Hnil. simpl in Hnil. subst notes.
    destruct e as [key audio|lanes audio|audio]; simpl.
    + unfold handleKey. destruct (laneMap key); [|done]. by destruct audio.
    + destruct audio as [t0|]; simpl; [|done].
      induction lanes as [|l lanes IH]; simpl; [done|].
      destruct ((l <? 0) || (l >? 3))%Z; [done|].
      by rewrite IH.
    + by destruct audio.
Qed.

End JudgmentProperties.

(** ** The auto-miss pass: the properties *)
Section SweepProperties.

Lemma sweep_notes t (notes : list Note.t) :
  ∀ combo,
    (sweep t notes combo).1
    = (fun n => if expired t n then Note.set_hit true n else n) <$> notes.
Proof.
  induction notes as [|n notes IH]; intros combo; simpl; [done|].
  rewrite autoMiss_cases. destruct (expired t n).
  - specialize (IH 0%Z). destruct (sweep t notes 0). simpl in *. by rewrite IH.
  - specialize (IH combo). destruct (sweep t notes combo). simpl in *. by rewrite IH.
Qed.

Lemma sweep_combo t (notes : list Note.t) :
  ∀ combo,
    (sweep t notes combo).2 = if existsb (expired t) notes then 0%Z else combo.
Proof.
  induction notes as [|n notes IH]; intros combo; simpl; [done|].
  rewrite autoMiss_cases. destruct (expired t n); simpl.
  - specialize (IH 0%Z). destruct (sweep t notes 0). simpl in *.
    rewrite IH. by destruct (existsb _ _).
  - specialize (IH combo). by destruct (sweep t notes combo).
Qed.

Lemma render_Some t (s : Session) :
  render (Some t) s
  = {| notesRef := (fun n => if expired t n then Note.set_hit true n else n)
                     <$> notesRef s;
       scoreRef := scoreRef s;
       comboRef := if existsb (expired t) (notesRef s) then 0%Z else comboRef s;
       maxComboRef := maxComboRef s;
       totalHitsRef := totalHitsRef s |}.
Proof.
  unfold render.
  pose proof (sweep_notes t (notesRef s) (comboRef s)) as Hn.
  pose proof (sweep_combo t (notesRef s) (comboRef s)) as Hc.
  destruct (sweep t (notesRef s) (comboRef s)). simpl in *. by rewrite Hn, Hc.
Qed.

(** After a pass no note is both unhit and past its window. *)
Lemma swept_not_expired t (notes : list Note.t) :
  existsb (expired t)
          ((fun n => if expired t n then Note.set_hit true n else n) <$> notes)
  = false.
Proof.
  induction notes as [|n notes IH]; [done|].
  rewrite fmap_cons. cbn [existsb]. rewrite IH, orb_false_r.
  destruct (expired t n) eqn:He; [done|]. exact He.
Qed.

Lemma swept_fixed t (notes : list Note.t) :
  (fun n => if expired t n then Note.set_hit true n else n)
    <$> ((fun n => if expired t n then Note.set_hit true n else n) <$> notes)
  = (fun n => if expired t n then Note.set_hit true n else n) <$> notes.
Proof.
  rewrite <- list_fmap_compose. apply list_fmap_ext. intros _ n _. simpl.
  destruct (expired t n) eqn:He; [done|]. by rewrite He.
Qed.

Lemma allBelow_spec (p : Z → bool) (n : positive) :
  allBelow p n = true → ∀ k, (0 ≤ k < Z.pos n)%Z → p k = true.
Proof.
  unfold allBelow.
  set (f := fun st : Z * bool => ((st.1 + 1)%Z, st.2 && p st.1)).
  assert ((Pos.iter f (0%Z, true) n).1 = Z.pos n
          ∧ ((Pos.iter f (0%Z, true) n).2 = true →
             ∀ k, (0 ≤ k < Z.pos n)%Z → p k = true)) as [_ H]; [|exact H].
  induction n as [|n [IH1 IH2]] using Pos.peano_ind.
  - simpl. split; [done|]. intros Hp k Hk.
    assert (k = 0%Z) as -> by lia. exact Hp.
  - rewrite Pos.iter_succ. unfold f at 1 3. cbn [fst snd]. rewrite IH1. split; [lia|].
    intros [Hall Hn]%andb_true_iff k Hk.
    destruct (decide (k = Z.pos n)) as [->|Hne]; [done|].
    apply IH2; [done|lia].
Qed.

(** C7: a pass at clock t flags every note that is unhit with
    t > timestamp + 0.25 and leaves every other note as it is; it resets
    the streak to 0 when it flags a note and never touches score, maxStreak
    or the hit count; a second pass at the same t changes nothing.  A pass
    at t = timestamp + 0.26 flags the note and zeroes the streak, whatever
    the streak was, for every timestamp below 2^45 seconds in magnitude,
    the sums being those of the clock's binary64 arithmetic; for instance
    for a note at 1.0 with a streak of 3. *)
Theorem render_auto_miss (t : float) (s : Session) :
  let s' := render (Some t) s in
  notesRef s'
    = (fun n => if expired t n then Note.set_hit true n else n) <$> notesRef s
  ∧ (∀ i n, notesRef s !! i = Some n → Note.hit n = false →
            PrimFloat.ltb (Note.timestamp n + 0.25) t = true →
            hitAt i s' = Some true ∧ comboRef s' = 0%Z
            ∧ notesRef s' !! i
              = Some (Note.mk (Note.text n) (Note.english n) (Note.timestamp n)
                              (Note.duration n) (Note.lane n) true (Note.id n)))
  ∧ (∀ i n, notesRef s !! i = Some n →
            Note.hit n = true ∨ PrimFloat.ltb (Note.timestamp n + 0.25) t = false →
            notesRef s' !! i = Some n)
  ∧ length (notesRef s') = length (notesRef s)
  ∧ ((∀ n, n ∈ notesRef s →
           Note.hit n = true ∨ PrimFloat.ltb (Note.timestamp n + 0.25) t = false) →
     s' = s)
  ∧ scoreRef s' = scoreRef s
  ∧ maxComboRef s' = maxComboRef s
  ∧ totalHitsRef s' = totalHitsRef s
  ∧ render (Some t) s' = s'
  ∧ (∀ s0 i n,
       notesRef s0 !! i = Some n → Note.hit n = false →
       PrimFloat.ltb (PrimFloat.abs (Note.timestamp n)) 0x1p45 = true →
       hitAt i (render (Some (Note.timestamp n + 0.26)%float) s0) = Some true
       ∧ comboRef (render (Some (Note.timestamp n + 0.26)%float) s0) = 0%Z
       ∧ scoreRef (render (Some (Note.timestamp n + 0.26)%float) s0) = scoreRef s0
       ∧ maxComboRef (render (Some (Note.timestamp n + 0.26)%float) s0)
         = maxComboRef s0)
  ∧ render (Some (1.0 + 0.26)%float)
           (mkSession [Note.mk "hola" "hello" 1.0 0.5 0 false "0-0"] 75 3 3 3)
    = mkSession [Note.mk "hola" "hello" 1.0 0.5 0 true "0-0"] 75 0 3 3.
Proof.
  assert (∀ t0 s0 i n, notesRef s0 !! i = Some n → Note.hit n = false →
            PrimFloat.ltb (Note.timestamp n + HIT_WINDOWS.MISS) t0 = true →
            hitAt i (render (Some t0) s0) = Some true
            ∧ comboRef (render (Some t0) s0) = 0%Z
            ∧ notesRef (render (Some t0) s0) !! i = Some (Note.set_hit true n))
    as Hrule.
  { intros t0 s0 i n Hn Hh Hlt. rewrite render_Some. simpl.
    assert (expired t0 n = true) as He.
    { unfold expired. by rewrite Hh, Hlt. }
    split; [|split].
    - unfold hitAt. simpl. by rewrite list_lookup_fmap, Hn; simpl; rewrite He.
    - assert (existsb (expired t0) (notesRef s0) = true) as ->; [|done].
      apply existsb_exists. exists n. split; [|done].
      apply list_elem_of_In, list_elem_of_lookup. by exists i.
    - by rewrite list_lookup_fmap, Hn; simpl; rewrite He. }
  assert (∀ n, Note.hit n = true
               ∨ PrimFloat.ltb (Note.timestamp n + 0.25) t = false →
               expired t n = false) as Hkeep.
  { intros n [Hh|Hlt]; unfold expired; [by rewrite Hh|].
    apply andb_false_iff. by right. }
  intros s'. subst s'.
  split; [by rewrite render_Some|].
  split; [intros i n; apply (Hrule t s i n)|].
  split.
  { intros i n Hn Hcase. rewrite render_Some. simpl.
    by rewrite list_lookup_fmap, Hn; simpl; rewrite (Hkeep n Hcase). }
  split; [by rewrite render_Some; simpl; rewrite length_fmap|].
  split.
  { intros Hall.
    assert (existsb (expired t) (notesRef s) = false) as Hnone.
    { apply not_true_is_false. intros (n & Hin & He)%existsb_exists.
      apply list_elem_of_In in Hin. rewrite (Hkeep n (Hall n Hin)) in He. done. }
    rewrite render_Some, Hnone.
    destruct s as [notes ? ? ? ?]. simpl in *.
    f_equal. rewrite <- (list_fmap_id notes) at 2.
    apply list_fmap_ext. intros i n Hn. simpl.
    rewrite (Hkeep n); [done|]. apply Hall. by eapply list_elem_of_lookup_2. }
  do 3 (split; [by rewrite render_Some|]).
  split.
  { rewrite !render_Some. simpl. by rewrite swept_not_expired, swept_fixed. }
  split; [|reflexivity].
  intros s0 i n Hn Hh Hbound.
  destruct (Hrule (Note.timestamp n + 0.26)%float s0 i n Hn Hh
                  (add_026_above_025 _ Hbound)) as (Hhit & Hcombo & _).
  split; [exact Hhit|]. split; [exact Hcombo|]. by rewrite render_Some.
Qed.

End SweepProperties.

(** ** Grading: the properties *)
Section GradeProperties.

Lemma gradesExact_300 : gradesExactUpTo 300 = true.
Proof. vm_compute. reflexivity. Qed.

Lemma gradesExactUpTo_spec (bound total hits : nat) :
  gradesExactUpTo bound = true → total ≤ bound → hits ≤ total →
  grade (gradeOf (Z.of_nat hits) total) = exactGrade (Z.of_nat hits) total.
Proof.
  unfold gradesExactUpTo. rewrite forallb_forall. intros H Ht Hh.
  specialize (H total). rewrite forallb_forall in H.
  apply String.eqb_eq, H; apply in_seq; lia.
Qed.

(** C8: the grade is a function of hit count and note count alone; with no
    notes it is F without dividing; otherwise it is the first row of the
    threshold table (97 A+, 93 A, 90 A-, 87 B+, 83 B, 80 B-, 77 C+, 73 C,
    70 C-, 67 D+, 63 D, 60 D-) that the percentage
    (hitCount / totalNoteCount) * 100 reaches, and F below 60.  For up to
    300 notes the computed percentage reaches a threshold exactly when the
    true ratio does.  93 of 100 is A, 90 of 100 is A-, 0 of 0 is F. *)
Theorem getGrade_thresholds (totalHits : Z) (total : nat) :
  grade (gradeOf totalHits total) = specGrade totalHits total
  ∧ (∀ s, totalHitsRef s = totalHits → length (notesRef s) = total →
          getGrade s = gradeOf totalHits total)
  ∧ gradeOf totalHits 0 = mkGrade "F" "text-red-400"
  ∧ (∀ hits n, n ≤ 300 → hits ≤ n →
       grade (gradeOf (Z.of_nat hits) n) = exactGrade (Z.of_nat hits) n)
  ∧ grade (gradeOf 93 100) = "A"
  ∧ grade (gradeOf 90 100) = "A-"
  ∧ grade (gradeOf 0 0) = "F".
Proof.
  split; [|split; [|split; [|split]]].
  - unfold gradeOf, specGrade. destruct total as [|total]; [done|].
    cbn [Nat.eqb gradeTable List.find fst snd].
    repeat (destruct (PrimFloat.leb _ _); [reflexivity|]). reflexivity.
  - intros s <- <-. reflexivity.
  - reflexivity.
  - intros hits n. apply gradesExactUpTo_spec, gradesExact_300.
  - repeat split; vm_compute; reflexivity.
Qed.

End GradeProperties.

(** ** Whole sessions: the properties *)
Section SessionProperties.

Variable showTranslations : bool.

Lemma step_marks (e : Event) (s : Session) :
  marks (notesRef s) (notesRef (step showTranslations e s).1).
Proof.
  destruct (step showTranslations e s) as [s' js] eqn:Hstep.
  by apply step_ok in Hstep as (? & _).
Qed.

Lemma run_cons (e : Event) (events : list Event) (s : Session) :
  run showTranslations (e :: events) s
  = (s :: (run showTranslations events (step showTranslations e s).1).1,
     (step showTranslations e s).2
     ++ (run showTranslations events (step showTranslations e s).1).2).
Proof.
  cbn [run]. destruct (step showTranslations e s) as [s1 js]. cbn [fst snd].
  by destruct (run showTranslations events s1).
Qed.

Lemma run_head (events : list Event) (s : Session) :
  ∃ rest, (run showTranslations events s).1 = s :: rest.
Proof. destruct events; [by exists []|]. rewrite run_cons. by eexists. Qed.

(** Every state of a run started in [s] has the notes of [s], some of them
    flagged since. *)
Lemma run_marks (events : list Event) :
  ∀ s st, st ∈ (run showTranslations events s).1 →
          marks (notesRef s) (notesRef st).
Proof.
  induction events as [|e events IH]; intros s st.
  - simpl. intros ->%list_elem_of_singleton. apply marks_refl.
  - rewrite run_cons. simpl. intros [->|Hin]%elem_of_cons; [apply marks_refl|].
    eapply marks_trans; [apply step_marks | by apply IH].
Qed.

Lemma run_marks_between (events : list Event) :
  ∀ s a b sa sb,
    a ≤ b →
    (run showTranslations events s).1 !! a = Some sa →
    (run showTranslations events s).1 !! b = Some sb →
    marks (notesRef sa) (notesRef sb).
Proof.
  induction events as [|e events IH]; intros s a b sa sb Hab.
  - simpl. destruct a, b; simpl; try done.
    intros [= <-] [= <-]. apply marks_refl.
  - rewrite run_cons. simpl. destruct a as [|a], b as [|b]; simpl; try lia.
    + intros [= <-] [= <-]. apply marks_refl.
    + intros [= <-] Hb. eapply marks_trans; [apply step_marks|].
      eapply run_marks, list_elem_of_lookup_2, Hb.
    + apply IH. lia.
Qed.

Lemma finalState_in_run (events : list Event) :
  ∀ s, finalState showTranslations events s ∈ (run showTranslations events s).1.
Proof.
  induction events as [|e events IH]; intros s; simpl finalState.
  - by left.
  - rewrite run_cons. simpl. right. apply IH.
Qed.

Lemma hitAt_marks_false (s s' : Session) i :
  marks (notesRef s) (notesRef s') → hitAt i s' = Some false → hitAt i s = Some false.
Proof.
  unfold hitAt. intros H Hi.
  destruct (notesRef s' !! i) as [n'|] eqn:Hn'; [|done].
  injection Hi as Hi. rewrite (marks_unhit _ _ _ _ H Hn' Hi). simpl. by f_equal.
Qed.

Lemma flips_cons before after i (s1 s2 : Session) (rest : list Session) :
  flips before after i (s1 :: s2 :: rest)
  = (if bool_decide (hitAt i s1 = Some before ∧ hitAt i s2 = Some after)
     then 1 else 0) + flips before after i (s2 :: rest).
Proof. reflexivity. Qed.

(** A flag never goes from true to false. *)
Lemma flips_down (events : list Event) i :
  ∀ s, flips true false i (run showTranslations events s).1 = 0.
Proof.
  induction events as [|e events IH]; intros s; [done|].
  rewrite run_cons. simpl fst.
  destruct (run_head events (step showTranslations e s).1) as [rest Hrest].
  specialize (IH (step showTranslations e s).1). rewrite Hrest in IH |- *.
  rewrite flips_cons, IH, Nat.add_0_r.
  rewrite bool_decide_eq_false_2; [done|].
  intros [H1 H2]. apply (hitAt_marks _ _ _ (step_marks e s)) in H1. congruence.
Qed.

(** Once the flag is set it does not go from false to true again. *)
Lemma flips_up_hit (events : list Event) i :
  ∀ s, hitAt i s = Some true →
       flips false true i (run showTranslations events s).1 = 0.
Proof.
  induction events as [|e events IH]; intros s Hs; [done|].
  rewrite run_cons. simpl fst.
  destruct (run_head events (step showTranslations e s).1) as [rest Hrest].
  pose proof (hitAt_marks _ _ _ (step_marks e s) Hs) as Hs1.
  specialize (IH _ Hs1). rewrite Hrest in IH |- *.
  rewrite flips_cons, IH, Nat.add_0_r.
  rewrite bool_decide_eq_false_2; [done|]. intros [H1 _]. congruence.
Qed.

Lemma flips_up (events : list Event) i :
  ∀ s, flips false true i (run showTranslations events s).1 ≤ 1.
Proof.
  induction events as [|e events IH]; intros s; [simpl; lia|].
  rewrite run_cons. simpl fst.
  destruct (run_head events (step showTranslations e s).1) as [rest Hrest].
  pose proof (IH (step showTranslations e s).1) as IH1.
  pose proof (flips_up_hit events i (step showTranslations e s).1) as Hhit.
  rewrite Hrest in IH1, Hhit |- *. rewrite flips_cons.
  destruct (bool_decide _) eqn:Hd; [|lia].
  apply bool_decide_eq_true in Hd as [_ H2]. rewrite (Hhit H2). lia.
Qed.

(** The judgments of a run: each is of a note that was unhit when the run
    started and is hit when it ends, and no note is judged twice. *)
Lemma run_log (events : list Event) :
  ∀ s,
    NoDup ((fun j => (j_closest j).1) <$> (run showTranslations events s).2)
    ∧ ∀ j, j ∈ (run showTranslations events s).2 →
           hitAt (j_closest j).1 s = Some false
           ∧ hitAt (j_closest j).1 (finalState showTranslations events s) = Some true.
Proof.
  induction events as [|e events IH]; intros s.
  - simpl. split; [constructor|]. by intros j ?%elem_of_nil.
  - rewrite run_cons. simpl snd. simpl finalState.
    destruct (step showTranslations e s) as [s1 js] eqn:Hstep. simpl.
    pose proof (step_ok _ _ _ _ _ Hstep) as (Hm & Hjs & Hnd & _).
    rewrite Forall_forall in Hjs.
    destruct (IH s1) as [Hnd1 Hlog1].
    assert (marks (notesRef s1)
              (notesRef (finalState showTranslations events s1))) as Hm1.
    { apply (run_marks events), finalState_in_run. }
    split.
    + rewrite fmap_app. apply NoDup_app. split; [done|]. split; [|done].
      intros i (j & -> & Hj)%list_elem_of_fmap (j1 & Heq & Hj1)%list_elem_of_fmap.
      destruct (Hjs j Hj) as (_ & _ & Hhit).
      destruct (Hlog1 j1 Hj1) as [Hun _]. rewrite <- Heq in Hun. congruence.
    + intros j [Hj|Hj]%elem_of_app.
      * destruct (Hjs j Hj) as ((t & _ & Hat) & _ & Hhit). split.
        -- apply (judgedAt_unhit showTranslations) in Hat. exact Hat.
        -- by apply (hitAt_marks s1).
      * destruct (Hlog1 j Hj) as [Hun Hhit]. split; [|done].
        by apply (hitAt_marks_false s s1).
Qed.

(** C9: along any run of key, touch and frame events, a note's [hit] flag
    never goes from true to false and goes from false to true at most once;
    a note that is hit or missed is hit in every later state; every judged
    note was unhit when the run started, so a note already hit or missed is
    never judged, and no note is judged twice. *)
Theorem hit_flag_once (events : list Event) (s : Session) :
  (∀ i, flips true false i (run showTranslations events s).1 = 0
        ∧ flips false true i (run showTranslations events s).1 ≤ 1)
  ∧ (∀ a b sa sb i,
       a ≤ b →
       (run showTranslations events s).1 !! a = Some sa →
       (run showTranslations events s).1 !! b = Some sb →
       hitAt i sa = Some true → hitAt i sb = Some true)
  ∧ NoDup ((fun j => (j_closest j).1) <$> (run showTranslations events s).2)
  ∧ (∀ j, j ∈ (run showTranslations events s).2 →
          hitAt (j_closest j).1 s = Some false
          ∧ hitAt (j_closest j).1 (finalState showTranslations events s) = Some true).
Proof.
  split; [|split].
  - intros i. split; [apply flips_down | apply flips_up].
  - intros a b sa sb i Hab Ha Hb. apply hitAt_marks.
    by eapply run_marks_between.
  - apply run_log.
Qed.

Lemma step_score (e : Event) (s : Session) :
  scoreRef s = (25 * totalHitsRef s)%Z →
  scoreRef (step showTranslations e s).1
  = (25 * totalHitsRef (step showTranslations e s).1)%Z.
Proof.
  destruct (step showTranslations e s) as [s' js] eqn:Hstep.
  apply step_ok in Hstep as (_ & _ & _ & Hs & Hh). simpl. lia.
Qed.

Lemma run_score (events : list Event) :
  ∀ s, scoreRef s = (25 * totalHitsRef s)%Z →
       Forall (fun st => scoreRef st = (25 * totalHitsRef st)%Z)
              (run showTranslations events s).1.
Proof.
  induction events as [|e events IH]; intros s Hs.
  - simpl. by constructor.
  - rewrite run_cons. simpl. constructor; [done|]. by apply IH, step_score.
Qed.

(** C10: a session starts with score and hit count at zero, and in every
    state of any run of key, touch and frame events from there the score is
    25 times the hit count. *)
Theorem score_is_25_per_hit (translateWord : string → string)
    (track : TimingData.t) (difficulty : Z) (before : Session)
    (events : list Event) :
  let start := startGame translateWord (Some track) difficulty before in
  scoreRef start = 0%Z
  ∧ totalHitsRef start = 0%Z
  ∧ comboRef start = 0%Z
  ∧ maxComboRef start = 0%Z
  ∧ Forall (fun st => scoreRef st = (25 * totalHitsRef st)%Z)
           (run showTranslations events start).1.
Proof.
  intros start. do 4 (split; [reflexivity|]). by apply run_score.
Qed.

Lemma run_scored (events : list Event) :
  ∀ s, scored s (finalState showTranslations events s)
              (length (run showTranslations events s).2).
Proof.
  induction events as [|e events IH]; intros s.
  - unfold scored. simpl. lia.
  - rewrite run_cons. simpl snd. simpl finalState. rewrite length_app.
    destruct (step showTranslations e s) as [s1 js] eqn:Hstep. simpl.
    apply step_ok in Hstep as (_ & _ & _ & Hs1).
    specialize (IH s1). unfold scored in *. lia.
Qed.

(** The hit count never exceeds the number of notes: each judgment takes
    a different note.  With the score at 25 per hit, both counters stay far
    inside the range in which a binary64 number is an exact integer. *)
Theorem hits_at_most_notes (translateWord : string → string)
    (track : TimingData.t) (difficulty : Z) (before : Session)
    (events : list Event) :
  let start := startGame translateWord (Some track) difficulty before in
  let final := finalState showTranslations events start in
  length (notesRef final) = length (notesRef start)
  ∧ (0 ≤ totalHitsRef final ≤ Z.of_nat (length (notesRef final)))%Z
  ∧ scoreRef final = (25 * totalHitsRef final)%Z.
Proof.
  intros start final.
  pose proof (run_scored events start) as [Hscore Hhits].
  destruct (run_log events start) as [Hnd Hlog].
  assert (marks (notesRef start) (notesRef final)) as Hm.
  { apply (run_marks events), finalState_in_run. }
  apply marks_length in Hm.
  assert (length (run showTranslations events start).2 ≤ length (notesRef start))
    as Hle.
  { apply NoDup_ListNoDup in Hnd.
    pose proof (NoDup_incl_length (l' := seq 0 (length (notesRef start))) Hnd)
      as Hincl.
    rewrite length_seq, length_fmap in Hincl. apply Hincl.
    intros i (j & -> & Hj)%list_elem_of_In%list_elem_of_fmap.
    destruct (Hlog j Hj) as [Hun _]. apply in_seq.
    unfold hitAt in Hun.
    destruct (notesRef start !! (j_closest j).1) eqn:Hl; [|done].
    apply lookup_lt_Some in Hl. lia. }
  fold final in Hscore, Hhits. change (totalHitsRef start) with 0%Z in Hhits.
  change (scoreRef start) with 0%Z in Hscore.
  split; [done|]. split; lia.
Qed.

End SessionProperties.

(** ** The properties at concrete inputs *)


Lemma createNotes_generate_witness :
  (1 ≤ 3 ≤ 5)%Z
  ∧ specGenerate (fun word => word) fourWords 3
    = Some (createNotes (fun word => word) (Some fourWords) 3).
Proof.
  split; [lia|].
  apply (createNotes_generate (fun word => word) fourWords 3). lia.
Defined.

Lemma tier_by_delta_witness :
  perfectPress ∈ (step true (keydown "ArrowLeft" (Some 1.02%float)) fourWordsSession).2
  ∧ j_tier perfectPress = PERFECT
  ∧ PrimFloat.leb (PrimFloat.abs (1.0 - 1.02)) 0.08%float = true
  ∧ j_points perfectPress = 25%Z.
Proof.
  assert (perfectPress
          ∈ (step true (keydown "ArrowLeft" (Some 1.02%float)) fourWordsSession).2)
    as Hin by (vm_compute; constructor).
  split; [exact Hin|].
  destruct (tier_by_delta true (keydown "ArrowLeft" (Some 1.02%float))
              fourWordsSession 1.02%float perfectPress eq_refl Hin)
    as (Hperfect & _ & _ & _ & _ & Hpoints & _).
  split; [reflexivity|]. split; [|exact Hpoints].
  apply Hperfect. reflexivity.
Defined.

Lemma judged_note_in_window_witness :
  perfectPress ∈ (step true (keydown "ArrowLeft" (Some 1.02%float)) fourWordsSession).2
  ∧ j_lane perfectPress ∈ pressedLanes (keydown "ArrowLeft" (Some 1.02%float))
  ∧ Note.hit (j_closest perfectPress).2 = false
  ∧ PrimFloat.leb (PrimFloat.abs (1.0 - 1.02)) 0.25%float = true.
Proof.
  assert (perfectPress
          ∈ (step true (keydown "ArrowLeft" (Some 1.02%float)) fourWordsSession).2)
    as Hin by (vm_compute; constructor).
  split; [exact Hin|].
  destruct (judged_note_in_window true (keydown "ArrowLeft" (Some 1.02%float))
              fourWordsSession 1.02%float perfectPress eq_refl Hin)
    as (Hlane & _ & _ & Hunhit & Hwindow & _).
  split; [exact Hlane|]. split; [exact Hunhit|]. exact Hwindow.
Defined.




Lemma no_candidate_no_effect_witness :
  candidatesOf 3 5.0 (notesRef fourWordsSession) = []
  ∧ judge true 3 5.0 fourWordsSession = (fourWordsSession, None).
Proof.
  assert (candidatesOf 3 5.0 (notesRef fourWordsSession) = []) as Hc
    by (vm_compute; reflexivity).
  split; [exact Hc|].
  exact (proj1 (no_candidate_no_effect true 3 5.0%float fourWordsSession Hc)).
Defined.

Lemma render_auto_miss_witness :
  PrimFloat.ltb (PrimFloat.abs 1.0) 0x1p45 = true
  ∧ hitAt 0 (render (Some (1.0 + 0.26)%float)
                    (mkSession [laneZeroNote "0-0" 1.0] 75 3 3 3))
    = Some true
  ∧ comboRef (render (Some (1.0 + 0.26)%float)
                     (mkSession [laneZeroNote "0-0" 1.0] 75 3 3 3))
    = 0%Z.
Proof.
  assert (PrimFloat.ltb (PrimFloat.abs 1.0) 0x1p45 = true) as Hbound
    by reflexivity.
  split; [exact Hbound|].
  destruct (render_auto_miss 1.0 noSession)
    as (_ & _ & _ & _ & _ & _ & _ & _ & _ & Hinstance & _).
  destruct (Hinstance (mkSession [laneZeroNote "0-0" 1.0] 75 3 3 3) 0
                      (laneZeroNote "0-0" 1.0) eq_refl eq_refl Hbound)
    as (Hhit & Hcombo & _).
  split; [exact Hhit | exact Hcombo].
Defined.

(** The bound on the timestamp in the auto-miss property stands for the
    resolution of the clock: at 1e17 seconds binary64 numbers are 16 s
    apart, timestamp + 0.26 and timestamp + 0.25 are the same number, and a
    pass at timestamp + 0.26 leaves the note unhit and the streak at 3. *)
Lemma late_note_not_swept :
  let note := laneZeroNote "0-0" 1e17 in
  let s := mkSession [note] 75 3 3 3 in
  Note.hit note = false
  ∧ render (Some (Note.timestamp note + 0.26)%float) s = s
  ∧ hitAt 0 (render (Some (Note.timestamp note + 0.26)%float) s) = Some false
  ∧ comboRef (render (Some (Note.timestamp note + 0.26)%float) s) = 3%Z
  ∧ ¬ (∀ s0 i n,
         notesRef s0 !! i = Some n → Note.hit n = false →
         hitAt i (render (Some (Note.timestamp n + 0.26)%float) s0) = Some true
         ∧ comboRef (render (Some (Note.timestamp n + 0.26)%float) s0) = 0%Z).
Proof.
  cbv zeta. do 4 (split; [reflexivity|]).
  intros H.
  destruct (H (mkSession [laneZeroNote "0-0" 1e17] 75 3 3 3) 0
              (laneZeroNote "0-0" 1e17) eq_refl eq_refl) as [_ Hcombo].
  vm_compute in Hcombo. discriminate.
Qed.

(** ** The counters of a session *)
Section CounterProperties.

Variable showTranslations : bool.

Lemma filter_hit_alter (notes : list Note.t) :
  ∀ i n, notes !! i = Some n → Note.hit n = false →
         length (List.filter Note.hit (alter (Note.set_hit true) i notes))
         = S (length (List.filter Note.hit notes)).
Proof.
  induction notes as [|x notes IH]; intros i n Hn Hh; [done|].
  destruct i as [|i]; simpl in *.
  - injection Hn as ->. by rewrite Hh.
  - pose proof (IH i n Hn Hh) as IH'. unfold alter in IH'.
    destruct (Note.hit x); simpl; by rewrite IH'.
Qed.

Lemma filter_hit_marks (notes notes' : list Note.t) :
  marks notes notes' →
  length (List.filter Note.hit notes) ≤ length (List.filter Note.hit notes').
Proof.
  induction 1 as [|n n' notes notes' [->|[Hh ->]] _ IH]; simpl; [done| |].
  - destruct (Note.hit n); simpl; lia.
  - rewrite Hh. lia.
Qed.

Lemma grows_refl (s : Session) : grows s s.
Proof. unfold grows. lia. Qed.

Lemma grows_trans (s1 s2 s3 : Session) : grows s1 s2 → grows s2 s3 → grows s1 s3.
Proof. unfold grows. lia. Qed.

Lemma judge_session_ok lane t (s s' : Session) (r : option Judgment) :
  judge showTranslations lane t s = (s', r) →
  session_ok s → session_ok s' ∧ grows s s'.
Proof.
  destruct r as [j|].
  - intros Hj (H0 & Hc & Hm & Hh & Hs).
    destruct (judge_closest_candidate _ _ _ _ _ _ Hj) as (Hin & _).
    apply elem_of_candidatesOf in Hin as [Hl (_ & Hun & _)%isCandidate_spec].
    apply judge_Some in Hj as (_ & _ & _ & _ & _ & _ & _ & Hp & _ & ->).
    rewrite Hp, pointsOf_25. unfold session_ok, grows, hitNotes. simpl.
    rewrite (filter_hit_alter _ _ _ Hl Hun). unfold hitNotes in Hh. lia.
  - intros [_ ->]%judge_None Hok. split; [done|apply grows_refl].
Qed.

Lemma handleTouch_loop_session_ok t (lanes : list Z) :
  ∀ s s' js,
    handleTouch_loop showTranslations lanes t s = (s', js) →
    session_ok s → session_ok s' ∧ grows s s'.
Proof.
  induction lanes as [|lane lanes IH]; intros s s' js; simpl.
  - intros [= <- <-] Hok. split; [done|apply grows_refl].
  - destruct ((lane <? 0) || (lane >? 3))%Z; [apply IH|].
    destruct (judge showTranslations (Z.to_nat lane) t s) as [s1 r] eqn:Hjudge.
    destruct (handleTouch_loop showTranslations lanes t s1) as [s2 js2] eqn:Hloop.
    intros [= <- <-] Hok.
    destruct (judge_session_ok _ _ _ _ _ Hjudge Hok) as [Hok1 Hg1].
    destruct (IH _ _ _ Hloop Hok1) as [Hok2 Hg2].
    split; [done|by eapply grows_trans].
Qed.

Lemma render_session_ok audio (s : Session) :
  session_ok s → session_ok (render audio s) ∧ grows s (render audio s).
Proof.
  intros (H0 & Hc & Hm & Hh & Hs).
  destruct audio as [t|]; [|split; [done|apply grows_refl]].
  pose proof (filter_hit_marks _ _ (render_marks (Some t) s)) as Hmono.
  rewrite render_Some in *. unfold session_ok, grows, hitNotes in *. simpl in *.
  destruct (existsb (expired t) (notesRef s)); lia.
Qed.

Lemma step_session_ok (e : Event) (s : Session) :
  session_ok s →
  session_ok (step showTranslations e s).1 ∧ grows s (step showTranslations e s).1.
Proof.
  intros Hok. destruct e as [key audio|lanes audio|audio]; simpl.
  - unfold handleKey. destruct (laneMap key) as [lane|]; [destruct audio as [t|]|];
      try (split; [done|apply grows_refl]).
    destruct (judge showTranslations lane t s) as [s1 r] eqn:Hjudge. simpl.
    by eapply judge_session_ok.
  - destruct audio as [t|]; simpl; [|split; [done|apply grows_refl]].
    destruct (handleTouch_loop showTranslations lanes t s) as [s1 js] eqn:Hloop.
    simpl. by eapply handleTouch_loop_session_ok.
  - by apply render_session_ok.
Qed.

Lemma run_session_ok (events : list Event) :
  ∀ s, session_ok s → Forall session_ok (run showTranslations events s).1.
Proof.
  induction events as [|e events IH]; intros s Hok.
  - simpl. by constructor.
  - rewrite run_cons. simpl. constructor; [done|].
    by apply IH, step_session_ok.
Qed.

Lemma run_grows (events : list Event) :
  ∀ s st, session_ok s → st ∈ (run showTranslations events s).1 → grows s st.
Proof.
  induction events as [|e events IH]; intros s st Hok.
  - simpl. intros ->%list_elem_of_singleton. apply grows_refl.
  - rewrite run_cons. simpl. intros [->|Hin]%elem_of_cons; [apply grows_refl|].
    destruct (step_session_ok e s Hok) as [Hok1 Hg].
    eapply grows_trans; [exact Hg | by apply IH].
Qed.

Lemma run_grows_between (events : list Event) :
  ∀ s a b sa sb,
    session_ok s → a ≤ b →
    (run showTranslations events s).1 !! a = Some sa →
    (run showTranslations events s).1 !! b = Some sb →
    grows sa sb.
Proof.
  induction events as [|e events IH]; intros s a b sa sb Hok Hab.
  - simpl. destruct a, b; simpl; try done.
    intros [= <-] [= <-]. apply grows_refl.
  - rewrite run_cons. simpl. destruct a as [|a], b as [|b]; simpl; try lia.
    + intros [= <-] [= <-]. apply grows_refl.
    + intros [= <-] Hb. apply (run_grows (e :: events)); [done|].
      rewrite run_cons. simpl. right. by eapply list_elem_of_lookup_2.
    + apply IH; [by apply step_session_ok | lia].
Qed.

Lemma startGame_session_ok (translateWord : string → string)
    (track : TimingData.t) (difficulty : Z) (before : Session) :
  session_ok (startGame translateWord (Some track) difficulty before).
Proof. unfold session_ok, hitNotes. simpl. lia. Qed.

(** X2: in every state of a session the counters are ordered
    0 <= streak <= best streak <= hit count <= number of flagged notes,
    the score is 25 times the hit count, and from any state to any later
    one score, best streak and hit count do not go down. *)
Theorem counters_ordered (translateWord : string → string)
    (track : TimingData.t) (difficulty : Z) (before : Session)
    (events : list Event) :
  let start := startGame translateWord (Some track) difficulty before in
  let states := (run showTranslations events start).1 in
  Forall session_ok states
  ∧ Forall (fun st => hitNotes st ≤ length (notesRef start)) states
  ∧ (∀ a b sa sb, a ≤ b → states !! a = Some sa → states !! b = Some sb →
                  grows sa sb).
Proof.
  intros start states.
  pose proof (startGame_session_ok translateWord track difficulty before) as Hok.
  fold start in Hok. split; [by apply run_session_ok|]. split.
  - apply Forall_forall. intros st Hst.
    apply run_marks, marks_length in Hst. unfold hitNotes.
    rewrite Hst. apply List.filter_length_le.
  - intros a b sa sb. by apply run_grows_between.
Qed.

End CounterProperties.

(** ** A press exactly on time *)
Section OnTime.

Import FloatOrder.

Variable showTranslations : bool.

Lemma sub_self_zero (x : float) :
  finite x → Prim2SF (x - x) = S754_zero false.
Proof.
  unfold finite. rewrite sub_spec.
  destruct (Prim2SF x) as [s|s| |s m e]; try done; intros _.
  - by destruct s.
  - cbv [SF64sub SFsub]. cbv zeta. by rewrite Z.sub_diag.
Qed.

Lemma timeDeltaOf_on_time (n : Note.t) :
  finite (Note.timestamp n) →
  Prim2SF (timeDeltaOf (Note.timestamp n) n) = S754_zero false.
Proof.
  intros Hf. unfold timeDeltaOf. by rewrite abs_spec, sub_self_zero.
Qed.

Lemma zero_leb_PERFECT (d : float) :
  Prim2SF d = S754_zero false → PrimFloat.leb d HIT_WINDOWS.PERFECT = true.
Proof. intros Hd. rewrite leb_spec, Hd. reflexivity. Qed.

Lemma zero_leb_MISS (d : float) :
  Prim2SF d = S754_zero false → PrimFloat.leb d HIT_WINDOWS.MISS = true.
Proof. intros Hd. rewrite leb_spec, Hd. reflexivity. Qed.

(** Zero is below every delta that is a number. *)
Lemma zero_leb_timeDelta (d : float) t (n : Note.t) :
  Prim2SF d = S754_zero false → ¬ is_nan (timeDeltaOf t n) →
  PrimFloat.leb d (timeDeltaOf t n) = true.
Proof.
  unfold is_nan, timeDeltaOf. intros Hd. rewrite leb_spec, Hd, abs_spec.
  destruct (Prim2SF (Note.timestamp n - t)) as [s|s| |s m e]; simpl; done.
Qed.

(** A press in the lane of an unhit note at its timestamp. *)
Lemma on_time_judge (s : Session) (i : nat) (n : Note.t) :
  notesRef s !! i = Some n →
  Note.hit n = false →
  finite (Note.timestamp n) →
  ∃ s' j,
    judge showTranslations (Note.lane n) (Note.timestamp n) s = (s', Some j)
    ∧ j_tier j = PERFECT
    ∧ Note.lane (j_closest j).2 = Note.lane n
    ∧ i ≤ (j_closest j).1
    ∧ PrimFloat.leb (timeDeltaOf (Note.timestamp n) (j_closest j).2)
                    (timeDeltaOf (Note.timestamp n) n) = true.
Proof.
  intros Hn Hh Hf.
  pose proof (timeDeltaOf_on_time n Hf) as Hzero.
  assert ((i, n) ∈ candidatesOf (Note.lane n) (Note.timestamp n) (notesRef s))
    as Hcand.
  { apply elem_of_candidatesOf. split; [done|]. apply isCandidate_spec.
    split; [done|]. split; [done|]. by apply zero_leb_MISS. }
  destruct (judge showTranslations (Note.lane n) (Note.timestamp n) s)
    as [s' [j|]] eqn:Hj.
  - exists s', j. split; [done|].
    destruct (judge_closest_candidate _ _ _ _ _ _ Hj) as (Hin & Hmin & Htie).
    pose proof (Hmin _ Hcand) as Hle. simpl in Hle.
    apply elem_of_candidatesOf in Hin as [_ Hc].
    pose proof (candidate_not_nan _ _ _ Hc) as Hnan.
    apply isCandidate_spec in Hc as (Hlane & _ & _).
    pose proof Hj as (_ & _ & _ & _ & _ & Htier & _)%judge_Some.
    split.
    { rewrite Htier. apply classify_PERFECT.
      eapply leb_trans; [exact Hle | by apply zero_leb_PERFECT]. }
    split; [done|]. split; [|done].
    apply (Htie (i, n) Hcand). simpl. by apply zero_leb_timeDelta.
  - apply judge_None in Hj as [Hnil _]. rewrite Hnil in Hcand.
    by apply elem_of_nil in Hcand.
Qed.

(** X3: pressing the lane of an unhit note exactly at its timestamp (a
    finite number) always judges a note, with tier PERFECT; the judged
    note is in that lane and is this note or a later one at the same
    distance; the key of that lane does it. *)
Theorem on_time_press_is_perfect (s : Session) (i : nat) (n : Note.t) :
  notesRef s !! i = Some n →
  Note.hit n = false →
  finite (Note.timestamp n) →
  ∃ s' j,
    judge showTranslations (Note.lane n) (Note.timestamp n) s = (s', Some j)
    ∧ j_tier j = PERFECT
    ∧ Note.lane (j_closest j).2 = Note.lane n
    ∧ i ≤ (j_closest j).1
    ∧ PrimFloat.leb (timeDeltaOf (Note.timestamp n) (j_closest j).2)
                    (timeDeltaOf (Note.timestamp n) n) = true
    ∧ (∀ key, laneMap key = Some (Note.lane n) →
              handleKey showTranslations key (Some (Note.timestamp n)) s
              = (s', Some j)).
Proof.
  intros Hn Hh Hf.
  destruct (on_time_judge s i n Hn Hh Hf) as (s' & j & Hj & Ht & Hl & Hi & Hd).
  exists s', j. do 5 (split; [done|]).
  intros key Hkey. unfold handleKey. by rewrite Hkey.
Qed.

End OnTime.

Lemma on_time_press_is_perfect_witness :
  finite 1.0
  ∧ ∃ s' j,
      judge true 0 1.0 fourWordsSession = (s', Some j) ∧ j_tier j = PERFECT.
Proof.
  assert (finite 1.0) as Hf by (vm_compute; exact I).
  split; [exact Hf|].
  destruct (on_time_press_is_perfect true fourWordsSession 0
              (Note.mk "uno" "uno" 1.0 0.5 0 false "0-0") eq_refl eq_refl Hf)
    as (s' & j & Hj & Ht & _).
  exists s', j. split; [exact Hj | exact Ht].
Defined.

(** ** The notes of a track and how many there are *)
Section NoteCounts.

Variable translateWord : string → string.

Ltac divlia := zify; Z.to_euclidean_division_equations; lia.

Lemma filter_from_snoc {A} (p : A → nat → bool) (l : list A) (x : A) :
  ∀ i, filter_from p i (l ++ [x])
       = filter_from p i l ++ (if p x (i + length l) then [x] else []).
Proof.
  induction l as [|y l IH]; intros i; simpl.
  - rewrite Nat.add_0_r. by destruct (p x i).
  - rewrite IH. replace (S i + length l) with (i + S (length l)) by lia.
    by destruct (p y i).
Qed.

Lemma keptNotes_succ (difficulty : Z) (n : nat) :
  keptNotes difficulty (S n)
  = keptNotes difficulty n + (if difficultyFilter difficulty n then 1 else 0).
Proof.
  unfold keptNotes, difficultyFilter.
  destruct (difficulty =? 5)%Z; [lia|].
  destruct (difficulty =? 4)%Z.
  { destruct (Nat.eqb_spec (n mod 4) 3); cbn [negb]; cbv iota; divlia. }
  destruct (difficulty =? 3)%Z.
  { destruct (Nat.eqb_spec (n mod 2) 0); cbv iota; divlia. }
  destruct (difficulty =? 2)%Z.
  { destruct (Nat.eqb_spec (n mod 3) 0); cbv iota; divlia. }
  destruct (Nat.eqb_spec (n mod 5) 0); cbv iota; divlia.
Qed.

Lemma filter_index_length {A} (difficulty : Z) (l : list A) :
  length (filter_index (fun _ index => difficultyFilter difficulty index) l)
  = keptNotes difficulty (length l).
Proof.
  unfold filter_index. induction l as [|x l IH] using rev_ind.
  - simpl. unfold keptNotes. by repeat destruct (_ =? _)%Z.
  - rewrite filter_from_snoc, !length_app, IH. simpl.
    rewrite Nat.add_1_r, keptNotes_succ.
    by destruct (difficultyFilter difficulty (length l)).
Qed.

Lemma specFlatten_length_from (ls : list KaraokeLine.t) :
  ∀ i acc,
    fold_left (fun sum line => sum + length (KaraokeLine.words line)) ls acc
    = acc + length (concat (imap (fun k line =>
                                    imap (specNote translateWord (i + k))
                                         (KaraokeLine.words line)) ls)).
Proof.
  induction ls as [|l ls IH]; intros i acc.
  - simpl. lia.
  - rewrite imap_cons. simpl. rewrite (IH (S i)), length_app, length_imap.
    rewrite <- Nat.add_assoc. do 4 f_equal.
    apply imap_ext. intros k x _. simpl.
    by replace (i + S k) with (S (i + k)) by lia.
Qed.

Lemma specFlatten_length (track : TimingData.t) :
  length (specFlatten translateWord track) = totalNotes (Some track).
Proof.
  unfold totalNotes, specFlatten.
  by rewrite (specFlatten_length_from (TimingData.lyrics track) 0 0).
Qed.

Lemma createNotes_filter (track : TimingData.t) (difficulty : Z) :
  createNotes translateWord (Some track) difficulty
  = filter_index (fun _ index => difficultyFilter difficulty index)
                 (specFlatten translateWord track).
Proof. unfold createNotes. cbv zeta. by rewrite allNotes_flatten. Qed.

Lemma elem_of_specFlatten (track : TimingData.t) (n : Note.t) :
  n ∈ specFlatten translateWord track →
  ∃ lineIndex line wordIndex word,
    TimingData.lyrics track !! lineIndex = Some line
    ∧ KaraokeLine.words line !! wordIndex = Some word
    ∧ n = specNote translateWord lineIndex wordIndex word.
Proof.
  unfold specFlatten.
  intros (notes & Hnotes & Hn)%list_elem_of_In%in_concat.
  apply list_elem_of_In, elem_of_lookup_imap in Hnotes as (li & line & -> & Hline).
  apply list_elem_of_In, elem_of_lookup_imap in Hn as (wi & word & -> & Hword).
  by exists li, line, wi, word.
Qed.

(** X4: every note [createNotes] returns is made from a word of the
    track at its (line, word) position: lane (line + word) mod 4, which is
    below 4, unhit, with the word's text, timestamp and duration and the
    translation of its text.  The number of notes depends only on the
    number of words: all of them at difficulty 5, all but every fourth at
    4, every second, third or fifth (rounded up) at 3, 2 and 1, and any
    other difficulty value counts as 1.  Unless the track has no words,
    there is at least one note. *)
Theorem createNotes_wellformed (track : TimingData.t) (difficulty : Z) :
  let notes := createNotes translateWord (Some track) difficulty in
  (∀ n, n ∈ notes →
        Note.lane n < 4 ∧ Note.hit n = false
        ∧ ∃ lineIndex line wordIndex word,
            TimingData.lyrics track !! lineIndex = Some line
            ∧ KaraokeLine.words line !! wordIndex = Some word
            ∧ Note.lane n = (lineIndex + wordIndex) mod 4
            ∧ Note.text n = KaraokeWord.text word
            ∧ Note.english n = translateWord (KaraokeWord.text word)
            ∧ Note.timestamp n = KaraokeWord.timestamp word
            ∧ Note.duration n = KaraokeWord.duration word)
  ∧ length notes = keptNotes difficulty (totalNotes (Some track))
  ∧ (¬ (1 ≤ difficulty ≤ 5)%Z →
     notes = createNotes translateWord (Some track) 1)
  ∧ (notes = [] ↔ totalNotes (Some track) = 0).
Proof.
  intros notes. subst notes.
  assert (length (createNotes translateWord (Some track) difficulty)
          = keptNotes difficulty (totalNotes (Some track))) as Hlen.
  { by rewrite createNotes_filter, filter_index_length, specFlatten_length. }
  split; [|split; [done|split]].
  - intros n Hn.
    assert (n ∈ specFlatten translateWord track) as Hin.
    { eapply elem_of_sublist; [exact Hn|].
      rewrite createNotes_filter. apply filter_from_sublist. }
    apply elem_of_specFlatten in Hin as (li & line & wi & word & Hl & Hw & ->).
    split; [apply (Nat.mod_upper_bound (li + wi) 4); lia|]. split; [done|].
    by exists li, line, wi, word.
  - intros Hd. rewrite !createNotes_filter. unfold filter_index.
    apply filter_from_ext. intros _ i. unfold difficultyFilter.
    destruct (Z.eqb_spec difficulty 5); [lia|].
    destruct (Z.eqb_spec difficulty 4); [lia|].
    destruct (Z.eqb_spec difficulty 3); [lia|].
    destruct (Z.eqb_spec difficulty 2); [lia|].
    reflexivity.
  - rewrite <- length_zero_iff_nil, Hlen. unfold keptNotes.
    repeat destruct (_ =? _)%Z; divlia.
Qed.

Lemma estimates_shown_10000 : allBelow estimateIsShown 10001 = true.
Proof. vm_compute. reflexivity. Qed.

Lemma estimateIsShown_spec (k difficulty : Z) :
  estimateIsShown k = true → (1 ≤ difficulty ≤ 4)%Z →
  floorText (estimateOf difficulty (toNumber k))
  = pretty (shownNotes difficulty k).
Proof.
  unfold estimateIsShown. rewrite forallb_forall. intros H Hd.
  specialize (H difficulty). unfold floorText.
  destruct (Prim2SF (estimateOf difficulty (toNumber k))) eqn:Hp.
  - f_equal. apply Z.eqb_eq, H.
    assert (difficulty = 1 ∨ difficulty = 2 ∨ difficulty = 3 ∨ difficulty = 4)%Z
      as [->|[->|[->| ->]]] by lia; simpl; tauto.
  - exfalso. enough (false = true) by done. apply H.
    assert (difficulty = 1 ∨ difficulty = 2 ∨ difficulty = 3 ∨ difficulty = 4)%Z
      as [->|[->|[->| ->]]] by lia; simpl; tauto.
  - exfalso. enough (false = true) by done. apply H.
    assert (difficulty = 1 ∨ difficulty = 2 ∨ difficulty = 3 ∨ difficulty = 4)%Z
      as [->|[->|[->| ->]]] by lia; simpl; tauto.
  - f_equal. apply Z.eqb_eq, H.
    assert (difficulty = 1 ∨ difficulty = 2 ∨ difficulty = 3 ∨ difficulty = 4)%Z
      as [->|[->|[->| ->]]] by lia; simpl; tauto.
Qed.

(** X5: the note count on the setup screen.  At difficulty 5 the text is
    "All N notes!" with N the number of notes the game will have, for a
    track of any length.  At difficulties 1 to 4, for a track of up to
    10000 words, the text is "~K notes" where K is the number of words
    divided by 5, 3 or 2, or three quarters of it, rounded down; K is never
    more than the number of notes the game will have and at most one less,
    for a track of any length.  For any other difficulty the text is
    empty. *)
Theorem getNoteCountText_estimate (track : TimingData.t) (difficulty : Z) :
  let total := totalNotes (Some track) in
  let notes := createNotes translateWord (Some track) difficulty in
  (difficulty = 5%Z →
   getNoteCountText (Some track) difficulty
   = "All " +:+ pretty (length notes) +:+ " notes!")
  ∧ ((1 ≤ difficulty ≤ 4)%Z →
     ((Z.of_nat total ≤ 10000)%Z →
      getNoteCountText (Some track) difficulty
      = "~" +:+ pretty (shownNotes difficulty (Z.of_nat total)) +:+ " notes")
     ∧ (shownNotes difficulty (Z.of_nat total) ≤ Z.of_nat (length notes)
        ≤ shownNotes difficulty (Z.of_nat total) + 1)%Z
     ∧ shownNotes difficulty (Z.of_nat total)
       = (if (difficulty =? 1)%Z then Z.of_nat total / 5
          else if (difficulty =? 2)%Z then Z.of_nat total / 3
          else if (difficulty =? 3)%Z then Z.of_nat total / 2
          else 3 * Z.of_nat total / 4)%Z)
  ∧ (¬ (1 ≤ difficulty ≤ 5)%Z → getNoteCountText (Some track) difficulty = "").
Proof.
  intros total notes.
  assert (length notes = keptNotes difficulty total) as Hlen.
  { subst notes total.
    by rewrite createNotes_filter, filter_index_length, specFlatten_length. }
  split; [|split].
  - intros ->. unfold getNoteCountText. simpl. fold total.
    rewrite Hlen. reflexivity.
  - intros Hd. split; [|split; [|reflexivity]].
    + intros Hbound. unfold getNoteCountText. fold total.
      assert (((1 <=? difficulty) && (difficulty <=? 4))%Z = true) as ->.
      { apply andb_true_iff. split; apply Z.leb_le; lia. }
      unfold estimatedNotes.
      rewrite (estimateIsShown_spec (Z.of_nat total) difficulty); [done| |done].
      apply (allBelow_spec _ _ estimates_shown_10000). lia.
    + rewrite Hlen.
      assert (difficulty = 1 ∨ difficulty = 2 ∨ difficulty = 3 ∨ difficulty = 4)%Z
        as [->|[->|[->| ->]]] by lia;
        cbv beta iota fix delta [shownNotes keptNotes Z.eqb Pos.eqb]; divlia.
  - intros Hd. unfold getNoteCountText.
    assert (((1 <=? difficulty) && (difficulty <=? 4))%Z = false) as ->.
    { apply andb_false_iff.
      destruct (Z.leb_spec 1 difficulty); [|by left].
      right. apply Z.leb_gt. lia. }
    destruct (Z.eqb_spec difficulty 5); [lia|done].
Qed.

End NoteCounts.

Lemma getNoteCountText_estimate_witness :
  (Z.of_nat (totalNotes (Some fourWords)) ≤ 10000)%Z
  ∧ getNoteCountText (Some fourWords) 4 = "~3 notes"
  ∧ length (createNotes (fun word => word) (Some fourWords) 4) = 3
  ∧ getNoteCountText (Some fourWords) 5 = "All 4 notes!".
Proof.
  assert (Z.of_nat (totalNotes (Some fourWords)) ≤ 10000)%Z as Hb
    by (vm_compute; discriminate).
  split; [exact Hb|].
  pose proof (getNoteCountText_estimate (fun word => word) fourWords 4)
    as (_ & H4 & _).
  pose proof (getNoteCountText_estimate (fun word => word) fourWords 5)
    as (H5 & _).
  destruct H4 as (Htext & _); [lia|].
  split; [exact (Htext Hb)|]. split; [reflexivity|]. exact (H5 eq_refl).
Defined.

(** ** The hit effect *)
Section HitEffect.

Import FloatOrder.

Variable showTranslations : bool.

(** [find] returns the first element that passes, when one does. *)
Lemma find_first {A} (p : A → bool) (l : list A) :
  ∀ k x, l !! k = Some x → p x = true →
         ∃ k' y, List.find p l = Some y ∧ l !! k' = Some y ∧ p y = true
                 ∧ k' ≤ k
                 ∧ ∀ i z, i < k' → l !! i = Some z → p z = false.
Proof.
  induction l as [|a l IH]; intros k x Hk Hx; [done|].
  simpl. destruct (p a) eqn:Ha.
  - exists 0, a. repeat split; try done; [lia|]. intros i z Hi. lia.
  - destruct k as [|k]; simpl in Hk; [congruence|].
    destruct (IH k x Hk Hx) as (k' & y & Hf & Hl & Hy & Hle & Hmin).
    exists (S k'), y. repeat split; try done; [lia|].
    intros [|i] z Hi Hz; simpl in Hz; [congruence|]. apply (Hmin i); [lia|done].
Qed.

Lemma MISS_le_effect_window :
  PrimFloat.leb HIT_WINDOWS.MISS (HIT_WINDOWS.MISS + 0.1) = true.
Proof. reflexivity. Qed.

(** X6: after a successful judgment the note [showHitEffect] looks up for
    the coin is always found; it is a hit note of the pressed lane within
    the effect window, it is the first such note of the array, and so it
    comes no later than the judged note.  It is the judged note when no
    earlier note passes that test, and otherwise an earlier one: with the
    lane-0 note at 1.0 already hit, a press at 1.2 judges the note at 1.2
    and shows the note at 1.0.  The flash colour is always one of the six
    rainbow colours and repeats every six hits. *)
Theorem hit_effect_note (lane : nat) (t : float) (s s' : Session) (j : Judgment) :
  judge showTranslations lane t s = (s', Some j) →
  (∃ k shown,
     hitNoteOf lane (Some t) (notesRef s') = Some shown
     ∧ notesRef s' !! k = Some shown
     ∧ k ≤ (j_closest j).1
     ∧ Note.lane shown = lane
     ∧ Note.hit shown = true
     ∧ PrimFloat.leb (timeDeltaOf t shown) (HIT_WINDOWS.MISS + 0.1) = true
     ∧ (∀ i n, i < k → notesRef s' !! i = Some n → isHitNote lane t n = false)
     ∧ ((∀ i n, i < (j_closest j).1 → notesRef s !! i = Some n →
                isHitNote lane t n = false) →
        shown = Note.set_hit true (j_closest j).2))
  ∧ (∃ s1 j1,
       judge showTranslations 0 1.2 afterFirstHit = (s1, Some j1)
       ∧ j_closest j1 = (1, laneZeroNote "0-4" 1.2)
       ∧ hitNoteOf 0 (Some 1.2%float) (notesRef s1)
         = Some (hitLaneZeroNote "0-0" 1.0))
  ∧ (∀ hits, is_Some (rainbowColor hits)
             ∧ rainbowColor (hits + 6) = rainbowColor hits).
Proof.
  intros Hj. split; [|split].
  - pose proof (judge_hit_after _ _ _ _ _ _ Hj) as Hafter.
    destruct (judge_closest_candidate _ _ _ _ _ _ Hj) as (Hin & _).
    apply elem_of_candidatesOf in Hin as [Hl (Hlane & Hun & Hmiss)%isCandidate_spec].
    assert (isHitNote lane t (Note.set_hit true (j_closest j).2) = true) as Hp.
    { unfold isHitNote. simpl. rewrite Hlane, Nat.eqb_refl. simpl.
      exact (leb_trans (timeDeltaOf t (j_closest j).2) HIT_WINDOWS.MISS
                       (HIT_WINDOWS.MISS + 0.1)%float Hmiss MISS_le_effect_window). }
    destruct (find_first _ _ _ _ Hafter Hp) as (k & shown & Hf & Hk & Hs & Hle & Hmin).
    exists k, shown. split; [exact Hf|]. split; [done|]. split; [done|].
    unfold isHitNote in Hs.
    apply andb_true_iff in Hs as [[Hsl%Nat.eqb_eq Hsh]%andb_true_iff Hsw].
    do 3 (split; [done|]). split; [exact Hmin|].
    intros Hnone.
    destruct (decide (k = (j_closest j).1)) as [->|Hne].
    + rewrite Hafter in Hk. by injection Hk.
    + assert (k < (j_closest j).1) as Hlt by lia.
      apply judge_Some in Hj as (_ & _ & _ & _ & _ & _ & _ & _ & _ & ->).
      simpl in Hk. rewrite list_lookup_alter_ne in Hk by lia.
      specialize (Hnone k shown Hlt Hk).
      unfold isHitNote in Hnone. rewrite Hsl, Hsh, Hsw, Nat.eqb_refl in Hnone.
      discriminate.
  - eexists _, _. split; [reflexivity|]. split; reflexivity.
  - intros hits. unfold rainbowColor. split.
    + apply lookup_lt_is_Some. apply Nat.mod_upper_bound. discriminate.
    + f_equal. change (length RAINBOW_COLORS) with 6.
      rewrite <- (Nat.Div0.add_mod_idemp_r hits 6 6). simpl (6 mod 6).
      by rewrite Nat.add_0_r.
Qed.

End HitEffect.

Lemma hit_effect_note_witness :
  judge true 0 1.2 afterFirstHit
    = ((judge true 0 1.2 afterFirstHit).1,
       Some (mkJudgment 0 PERFECT "PERFECT" 25 "text-yellow-300"
                        (1, laneZeroNote "0-4" 1.2)))
  ∧ ∃ k shown,
      hitNoteOf 0 (Some 1.2%float) (notesRef (judge true 0 1.2 afterFirstHit).1)
        = Some shown
      ∧ k ≤ 1.
Proof.
  assert (judge true 0 1.2 afterFirstHit
          = ((judge true 0 1.2 afterFirstHit).1,
             Some (mkJudgment 0 PERFECT "PERFECT" 25 "text-yellow-300"
                              (1, laneZeroNote "0-4" 1.2)))) as Hj
    by (vm_compute; reflexivity).
  split; [exact Hj|].
  destruct (hit_effect_note true 0 1.2%float afterFirstHit _ _ Hj)
    as [(k & shown & Hf & _ & Hle & _) _].
  exists k, shown. split; [exact Hf | exact Hle].
Defined.

(** ** Encouragement messages *)
Section Encouragement.

Ltac inlist := repeat (first [by left | right]).

Lemma spanishMessages_Some (combo : Z) :
  is_Some (spanishMessages combo) ↔ combo ∈ milestones.
Proof.
  unfold spanishMessages, milestones. rewrite !elem_of_cons, elem_of_nil.
  repeat match goal with
  | |- context [(combo =? ?k)%Z] =>
      destruct (Z.eqb_spec combo k) as [->|?];
      [split; [intros _; tauto | intros _; by eexists]|]
  end.
  split; [by intros [? ?]|]. intros H. exfalso. intuition congruence.
Qed.

(** X7: a streak gets an encouragement message exactly when it is one of
    3, 5, 8, 10, 13, 15, 18, 20, 25, 30, 35, 40, 45, 50 or a multiple of 25
    above 50.  No streak below 3 has one, every multiple of 25 from 25 on
    has one, and the overflow message is used above 50 only; up to 50 the
    next message is at most 5 hits away. *)
Theorem checkEncouragement_streaks (combo : Z) :
  (is_Some (checkEncouragement combo)
   ↔ combo ∈ milestones ∨ (50 < combo ∧ combo mod 25 = 0)%Z)
  ∧ (is_Some (checkEncouragement combo) → (3 ≤ combo)%Z)
  ∧ ((25 ≤ combo)%Z → (combo mod 25 = 0)%Z → is_Some (checkEncouragement combo))
  ∧ (checkEncouragement combo = Some overflowMsg → (50 < combo)%Z)
  ∧ ((50 < combo)%Z → is_Some (checkEncouragement combo) →
     checkEncouragement combo = Some overflowMsg)
  ∧ ((0 ≤ combo < 50)%Z →
     ∃ next, (combo < next ≤ combo + 5)%Z ∧ is_Some (checkEncouragement next)).
Proof.
  assert (is_Some (checkEncouragement combo)
          ↔ combo ∈ milestones ∨ (50 < combo ∧ combo mod 25 = 0)%Z) as Hiff.
  { unfold checkEncouragement.
    pose proof (spanishMessages_Some combo) as Hs.
    destruct (spanishMessages combo) as [m|].
    - split; [intros _; left; apply Hs; by eexists | by eexists].
    - destruct (Z.ltb_spec 50 combo), (Z.eqb_spec (combo mod 25) 0); simpl;
        (split; [intros [? ?]; try done; by right|intros [Hm|[? ?]]]);
        try (exfalso; lia); try (by eexists);
        apply Hs in Hm; by destruct Hm. }
  assert (∀ c, c ∈ milestones → (3 ≤ c ≤ 50)%Z) as Hrange.
  { intros c. unfold milestones. rewrite !elem_of_cons, elem_of_nil. lia. }
  split; [exact Hiff|]. split; [|split; [|split; [|split]]].
  - intros [Hm|[? ?]]%Hiff; [by apply Hrange|lia].
  - intros Hge Hmod. apply Hiff.
    destruct (Z.ltb_spec 50 combo); [by right|]. left.
    assert (combo = 25 ∨ combo = 50)%Z as [->| ->]
      by (zify; Z.to_euclidean_division_equations; lia);
      unfold milestones; rewrite !elem_of_cons; inlist.
  - unfold checkEncouragement.
    pose proof (spanishMessages_Some combo) as Hs.
    destruct (spanishMessages combo) as [m|] eqn:Hm.
    + intros [= ->]. exfalso. revert Hm. unfold spanishMessages.
      repeat match goal with
      | |- context [(combo =? ?k)%Z] =>
          destruct (Z.eqb_spec combo k); [discriminate|]
      end.
      done.
    + destruct (Z.ltb_spec 50 combo); [done|]. simpl. done.
  - intros Hgt [m Hm]. unfold checkEncouragement in *.
    pose proof (spanishMessages_Some combo) as Hs.
    destruct (spanishMessages combo) as [m'|].
    + assert (combo ∈ milestones) as Hin by (apply Hs; by eexists).
      apply Hrange in Hin. lia.
    + by destruct ((50 <? combo)%Z && (combo mod 25 =? 0)%Z).
  - intros Hc.
    assert (∃ next, (combo < next ≤ combo + 5)%Z ∧ next ∈ milestones)
      as (next & Hn & Hin).
    { unfold milestones. setoid_rewrite elem_of_cons.
      destruct (Z.ltb_spec combo 3); [exists 3%Z; split; [lia|inlist]|].
      destruct (Z.ltb_spec combo 5); [exists 5%Z; split; [lia|inlist]|].
      destruct (Z.ltb_spec combo 8); [exists 8%Z; split; [lia|inlist]|].
      destruct (Z.ltb_spec combo 10); [exists 10%Z; split; [lia|inlist]|].
      destruct (Z.ltb_spec combo 13); [exists 13%Z; split; [lia|inlist]|].
      destruct (Z.ltb_spec combo 15); [exists 15%Z; split; [lia|inlist]|].
      destruct (Z.ltb_spec combo 18); [exists 18%Z; split; [lia|inlist]|].
      destruct (Z.ltb_spec combo 20); [exists 20%Z; split; [lia|inlist]|].
      destruct (Z.ltb_spec combo 25); [exists 25%Z; split; [lia|inlist]|].
      destruct (Z.ltb_spec combo 30); [exists 30%Z; split; [lia|inlist]|].
      destruct (Z.ltb_spec combo 35); [exists 35%Z; split; [lia|inlist]|].
      destruct (Z.ltb_spec combo 40); [exists 40%Z; split; [lia|inlist]|].
      destruct (Z.ltb_spec combo 45); [exists 45%Z; split; [lia|inlist]|].
      exists 50%Z; split; [lia|inlist]. }
    exists next. split; [done|].
    unfold checkEncouragement. apply spanishMessages_Some in Hin as [m ->].
    by eexists.
Qed.

End Encouragement.

(** ** The grade and the hit count *)
Section GradeOrder.

Lemma gradeRank_exactGrade (hits : Z) (total : nat) :
  gradeRank (exactGrade hits total) = exactRank hits total.
Proof.
  unfold exactGrade, exactRank. destruct total as [|total]; [reflexivity|].
  cbv zeta. repeat (destruct (_ <=? _)%Z; [reflexivity|]). reflexivity.
Qed.

Lemma exactRank_mono (h1 h2 : Z) (total : nat) :
  (h1 ≤ h2)%Z → exactRank h1 total ≤ exactRank h2 total.
Proof.
  intros Hle. unfold exactRank. destruct total as [|total]; [done|]. cbv zeta.
  repeat match goal with
  | |- context [(?a <=? ?b)%Z] => destruct (Z.leb_spec a b)
  end; lia.
Qed.

Lemma exactGrade_all (total : nat) :
  0 < total → exactGrade (Z.of_nat total) total = "A+".
Proof.
  intros Ht. unfold exactGrade. destruct total as [|total]; [lia|]. cbv zeta.
  destruct (Z.leb_spec (97 * Z.of_nat (S total)) (100 * Z.of_nat (S total)));
    [done|lia].
Qed.

Lemma exactGrade_fail (hits : Z) (total : nat) :
  (100 * hits < 60 * Z.of_nat total)%Z → exactGrade hits total = "F".
Proof.
  intros Hlt. unfold exactGrade. destruct total as [|total]; [done|]. cbv zeta.
  repeat match goal with
  | |- context [(?a <=? ?b)%Z] => destruct (Z.leb_spec a b); [lia|]
  end.
  reflexivity.
Qed.

(** X8: for a game of up to 300 notes, hitting more notes never gives a
    lower grade; hitting every note gives A+, and hitting fewer than 60 in
    100 gives F. *)
Theorem grade_follows_hits (total hits1 hits2 : nat) :
  total ≤ 300 → hits1 ≤ hits2 → hits2 ≤ total →
  gradeRank (grade (gradeOf (Z.of_nat hits1) total))
  ≤ gradeRank (grade (gradeOf (Z.of_nat hits2) total))
  ∧ (0 < total → grade (gradeOf (Z.of_nat total) total) = "A+")
  ∧ (100 * hits1 < 60 * total → grade (gradeOf (Z.of_nat hits1) total) = "F").
Proof.
  intros Ht H12 H2.
  rewrite !(gradesExactUpTo_spec 300 total) by (apply gradesExact_300 || lia).
  split; [|split].
  - rewrite !gradeRank_exactGrade. apply exactRank_mono. lia.
  - apply exactGrade_all.
  - intros Hlt. apply exactGrade_fail. lia.
Qed.

End GradeOrder.

Lemma grade_follows_hits_witness :
  100 ≤ 300 ∧ 59 ≤ 90 ∧ 90 ≤ 100
  ∧ gradeRank (grade (gradeOf 59 100)) ≤ gradeRank (grade (gradeOf 90 100)).
Proof.
  assert (100 ≤ 300) as H1 by lia.
  assert (59 ≤ 90) as H2 by lia.
  assert (90 ≤ 100) as H3 by lia.
  repeat (split; [assumption|]).
  exact (proj1 (grade_follows_hits 100 59 90 H1 H2 H3)).
Defined.

(** ** The component as a whole *)
Section Component.

Variable translateWord : string → string.

Lemma handleTouch_loop_nil showTranslations t (lanes : list Z) :
  ∀ s s', handleTouch_loop showTranslations lanes t s = (s', []) → s' = s.
Proof.
  induction lanes as [|lane lanes IH]; intros s s'; simpl.
  - by intros [= <-].
  - destruct ((lane <? 0) || (lane >? 3))%Z; [apply IH|].
    destruct (judge showTranslations (Z.to_nat lane) t s) as [s1 [j|]] eqn:Hj.
    + destruct (handleTouch_loop showTranslations lanes t s1). by intros [= _ ?].
    + apply judge_None in Hj as [_ ->].
      destruct (handleTouch_loop showTranslations lanes t s) as [s2 js] eqn:Hloop.
      simpl. intros [= <- ->]. by apply IH.
Qed.

(** An input event that judges nothing leaves the reference cells alone,
    unless it is a frame. *)
Lemma step_nil showTranslations (e : Event) (s s' : Session) :
  (∀ audio, e ≠ animationFrame audio) →
  step showTranslations e s = (s', []) → s' = s.
Proof.
  intros Hne. destruct e as [key audio|lanes audio|audio]; simpl.
  - unfold handleKey. destruct (laneMap key) as [lane|]; [|by intros [= <-]].
    destruct audio as [t|]; [|by intros [= <-]].
    destruct (judge showTranslations lane t s) as [s1 [j|]] eqn:Hj; [done|].
    apply judge_None in Hj as [_ ->]. by intros [= <-].
  - destruct audio as [t|]; simpl; [apply handleTouch_loop_nil | by intros [= <-]].
  - by destruct (Hne audio).
Qed.

Lemma afterJudgments_ok (g : Game.t) (e : Event) (s' : Session) (js : list Judgment) :
  Game.gameState g = playing →
  (∀ audio, e ≠ animationFrame audio) →
  step (Game.showTranslations g) e (Game.refs g) = (s', js) →
  game_ok translateWord g →
  game_ok translateWord (afterJudgments g s' (length js)).
Proof.
  intros Hplaying Hne Hstep. unfold game_ok. rewrite Hplaying.
  intros (Hok & _ & Hshow & data & Hdata & Hmarks).
  pose proof (step_session_ok (Game.showTranslations g) e _ Hok) as [Hok' _].
  pose proof (step_marks (Game.showTranslations g) e (Game.refs g)) as Hm.
  rewrite Hstep in Hok', Hm. simpl in Hok', Hm.
  destruct js as [|j js]; simpl; rewrite Hplaying.
  - apply step_nil in Hstep as ->; [|done].
    split; [done|]. split; [by left|]. split; [done|]. by exists data.
  - split; [done|]. split; [by left|]. split; [done|]. exists data.
    split; [done|]. by eapply marks_trans.
Qed.

Lemma afterFrame_ok (g : Game.t) (audio : option float) :
  Game.gameState g = playing →
  game_ok translateWord g → game_ok translateWord (afterFrame g audio).
Proof.
  intros Hplaying Hg. destruct audio as [t|]; [|exact Hg].
  revert Hg. unfold game_ok, afterFrame.
  cbn [Game.gameState Game.timingData Game.refs Game.difficulty].
  rewrite Hplaying.
  intros (Hok & _ & (Hs & Hc & Hm & Ht) & data & Hdata & Hmarks).
  assert (shows_refs
            (afterFrame g (Some t))) as Hshow.
  { unfold shows_refs, afterFrame.
    cbn [Game.score Game.combo Game.maxCombo Game.totalHits Game.refs].
    rewrite render_Some. cbn [scoreRef comboRef maxComboRef totalHitsRef].
    rewrite Hc. done. }
  split; [by apply render_session_ok|]. split; [by left|]. split; [exact Hshow|].
  exists data. split; [done|].
  eapply marks_trans; [exact Hmarks | apply render_marks].
Qed.

Lemma pressStartUI_ok (g : Game.t) (audio : option float) :
  Game.gameState g = setup →
  game_ok translateWord g → game_ok translateWord (pressStartUI translateWord audio g).
Proof.
  intros Hsetup Hg. unfold pressStartUI.
  destruct (Game.timingData g) as [data|] eqn:Hdata; [|exact Hg].
  apply afterFrame_ok; unfold startGameUI; rewrite Hdata; [done|].
  unfold game_ok.
  cbn [Game.gameState Game.timingData Game.refs Game.difficulty].
  split; [apply startGame_session_ok|]. split; [by left|]. split; [done|].
  exists data. split; [done|]. apply marks_refl.
Qed.

Lemma fadeEndsUI_ok (g : Game.t) :
  game_ok translateWord g → game_ok translateWord (fadeEndsUI g).
Proof.
  intros Hg. unfold fadeEndsUI.
  destruct (Game.fadeIntervals g) as [|rest] eqn:Hfades; [exact Hg|].
  revert Hg. unfold game_ok. simpl.
  intros (Hok & Hshow & Hscreen). split; [done|]. split; [done|].
  destruct (Game.gameState g).
  - destruct Hscreen as [_ H0]. congruence.
  - done.
  - destruct Hscreen as (_ & data & -> & _). by eexists.
  - done.
Qed.

Lemma act_ok (a : Action) (g : Game.t) :
  game_ok translateWord g → game_ok translateWord (act translateWord a g).
Proof.
  intros Hg. unfold act.
  destruct a as [data| |value|audio| |[key audio|lanes audio|audio]| | |],
    (Game.gameState g) eqn:Hstate;
    try exact Hg;
    try (by apply fadeEndsUI_ok);
    try (unfold game_ok in *; simpl; rewrite Hstate in *; simpl; exact Hg).
  - unfold game_ok in *. rewrite Hstate in Hg. simpl.
    destruct Hg as (Hok & Hshow & _). split; [done|]. split; [done|]. by eexists.
  - by apply pressStartUI_ok.
  - unfold game_ok in *. rewrite Hstate in Hg. simpl.
    destruct Hg as (Hok & _ & Hdata). split; [done|]. split; [by right|]. done.
  - destruct (step (Game.showTranslations g) (keydown key audio) (Game.refs g))
      as [s' js] eqn:Hstep.
    by apply (afterJudgments_ok g (keydown key audio)).
  - destruct (step (Game.showTranslations g) (touchstart lanes audio) (Game.refs g))
      as [s' js] eqn:Hstep.
    by apply (afterJudgments_ok g (touchstart lanes audio)).
  - by apply afterFrame_ok.
  - unfold game_ok in *. rewrite Hstate in Hg. simpl.
    destruct Hg as (Hok & _ & Hshow & data & -> & _).
    split; [done|]. split; [by left|]. by eexists.
Qed.

Lemma play_ok (actions : list Action) : game_ok translateWord (play translateWord actions).
Proof.
  unfold play. induction actions as [|a actions IH] using rev_ind.
  - unfold game_ok. simpl. split; [unfold session_ok, hitNotes; simpl; lia|].
    split; [by left|]. done.
  - rewrite fold_left_app. simpl. by apply act_ok.
Qed.

Lemma game_ok_matches (g : Game.t) :
  Game.gameState g = playing → game_ok translateWord g →
  matches_engine translateWord g.
Proof.
  intros Hplaying. unfold game_ok. rewrite Hplaying.
  intros (Hok & _ & Hshow & data & Hdata & Hmarks).
  exists data.
  assert (length (notesRef (Game.refs g))
          = keptNotes (Game.difficulty g) (totalNotes (Some data))) as Hlen.
  { rewrite <- (marks_length _ _ Hmarks).
    by rewrite createNotes_filter, filter_index_length, specFlatten_length. }
  pose proof Hshow as (Hs & Hc & Hm & Ht).
  destruct Hok as (H0 & Hcm & Hmt & Hth & Hscore).
  assert (hitNotes (Game.refs g) ≤ length (notesRef (Game.refs g))) as Hhit.
  { apply List.filter_length_le. }
  split; [done|]. split; [done|]. split; [done|]. split; [done|].
  split; [lia|]. split; [lia|]. split; [lia|].
  unfold getGrade. by rewrite Hlen, Ht.
Qed.

(** The screen changes from "playing" to "ended" without any change to
    what is displayed or to the reference cells. *)
Lemma playing_to_ended (a : Action) (g : Game.t) :
  Game.gameState g = playing →
  Game.gameState (act translateWord a g) = ended →
  Game.timingData (act translateWord a g) = Game.timingData g
  ∧ Game.difficulty (act translateWord a g) = Game.difficulty g
  ∧ Game.refs (act translateWord a g) = Game.refs g
  ∧ (Game.score (act translateWord a g), Game.combo (act translateWord a g),
     Game.maxCombo (act translateWord a g), Game.totalHits (act translateWord a g))
    = (Game.score g, Game.combo g, Game.maxCombo g, Game.totalHits g).
Proof.
  intros Hplaying. unfold act. rewrite Hplaying.
  destruct a as [data| |value|audio| |[key audio|lanes audio|audio]| | |];
    try (rewrite Hplaying; discriminate); try done.
  - destruct (step (Game.showTranslations g) (keydown key audio) (Game.refs g))
      as [s' js].
    destruct js; simpl; rewrite Hplaying; discriminate.
  - destruct (step (Game.showTranslations g) (touchstart lanes audio) (Game.refs g))
      as [s' js].
    destruct js; simpl; rewrite Hplaying; discriminate.
  - destruct audio; simpl; rewrite Hplaying; discriminate.
  - unfold fadeEndsUI. destruct (Game.fadeIntervals g); [|done].
    rewrite Hplaying. discriminate.
Qed.

(** X9: whatever the player, the clock and the timers do from mounting on,
    on the playing screen the displayed score, streak, best streak and hit
    count are those of the engine; the notes are the ones generated from
    the loaded track for the difficulty chosen on the setup screen, some of
    them flagged; the displayed counters are ordered
    0 <= streak <= best <= hits <= number of notes with score = 25 * hits;
    and the grade is the grade of the displayed hit count over the number
    of notes of that difficulty.  All this still holds on the end screen
    when it comes up from the playing screen.  On the end screen in general
    the displayed counters are those of the engine or all zero: the
    fade-out interval is not cleared by Play Again, and when it ends on the
    setup screen it brings up the end screen with the displayed counters at
    zero and the grade of the game before; after a game with all four notes
    hit this shows 0 hits and the grade A+. *)
Theorem screen_matches_engine (actions : list Action) (a : Action) :
  let g := play translateWord actions in
  let g' := play translateWord (actions ++ [a]) in
  let stale := play translateWord (fullGameThenPlayAgain ++ [fadeEnds]) in
  (Game.gameState g = playing → matches_engine translateWord g)
  ∧ (Game.gameState g = playing → Game.gameState g' = ended →
     matches_engine translateWord g')
  ∧ (Game.gameState g = ended →
     session_ok (Game.refs g) ∧ is_Some (Game.timingData g)
     ∧ (shows_refs g ∨ shows_zero g))
  ∧ (Game.gameState (play translateWord fullGameThenPlayAgain) = setup
     ∧ Game.gameState stale = ended
     ∧ (Game.score stale, Game.combo stale, Game.maxCombo stale,
        Game.totalHits stale) = (0, 0, 0, 0)%Z
     ∧ (scoreRef (Game.refs stale), totalHitsRef (Game.refs stale))
       = (100, 4)%Z
     ∧ grade (getGrade (Game.refs stale)) = "A+").
Proof.
  intros g g' stale.
  pose proof (play_ok actions) as Hg. fold g in Hg.
  split; [intros Hplaying; by apply game_ok_matches|]. split; [|split].
  - intros Hplaying Hended.
    assert (g' = act translateWord a g) as Hg'.
    { subst g' g. unfold play. by rewrite fold_left_app. }
    rewrite Hg' in *.
    destruct (playing_to_ended a g Hplaying Hended) as (Hd & Hdiff & Hrefs & Hshown).
    destruct (game_ok_matches g Hplaying Hg)
      as (data & Hdata & (Hs & Hc & Hm & Ht) & Hmarks & Hlen & Hscore & Hcombo
          & Hhits & Hgrade).
    injection Hshown as Hs' Hc' Hm' Ht'.
    exists data. unfold shows_refs.
    rewrite Hd, Hdiff, Hrefs, Hs', Hc', Hm', Ht'. done.
  - intros Hended. unfold game_ok in Hg. rewrite Hended in Hg.
    destruct Hg as (Hok & Hshow & Hdata). done.
  - subst stale. split; [reflexivity|]. split; [reflexivity|].
    split; [reflexivity|]. split; reflexivity.
Qed.

End Component.

(** ** The ids of the notes *)
Section NoteIds.

Variable translateWord : string → string.

Lemma pretty_N_go_noDash (x : N) :
  ∀ s, noDash s → noDash (pretty_N_go x s).
Proof.
  induction (N.lt_wf_0 x) as [x _ IH]; intros s Hs.
  assert (x = 0 ∨ 0 < x)%N as [->|Hpos] by lia.
  - by rewrite pretty_N_go_0.
  - rewrite pretty_N_go_step by done. apply IH; [by apply N.div_lt|].
    split; [|done]. unfold pretty_N_char. by repeat case_match.
Qed.

(** The decimal form of a number has no dash. *)
Lemma pretty_nat_noDash (n : nat) : noDash (pretty n).
Proof.
  unfold pretty, pretty_nat, pretty, pretty_N.
  case_decide; [by split|]. by apply pretty_N_go_noDash.
Qed.

(** Two texts split at their first dash agree part by part. *)
Lemma dash_split (d1 : string) :
  ∀ d2 r1 r2,
    noDash d1 → noDash d2 →
    d1 +:+ String "-" r1 = d2 +:+ String "-" r2 → d1 = d2 ∧ r1 = r2.
Proof.
  induction d1 as [|c d1 IH]; intros [|c' d2] r1 r2; simpl.
  - by intros _ _ [= ->].
  - intros _ [Hc _] [= <- _]. done.
  - intros [Hc _] _ [= -> _]. done.
  - intros [_ H1] [_ H2] [= -> Heq].
    destruct (IH d2 r1 r2 H1 H2 Heq) as [-> ->]. done.
Qed.

Lemma noteId_inj (li wi li' wi' : nat) :
  noteId li wi = noteId li' wi' → li = li' ∧ wi = wi'.
Proof.
  unfold noteId. intros H.
  apply dash_split in H as [Hl Hw]; try apply pretty_nat_noDash.
  split; by apply (inj pretty).
Qed.

Lemma specNote_id (li wi : nat) (word : KaraokeWord.t) :
  Note.id (specNote translateWord li wi word) = noteId li wi.
Proof. reflexivity. Qed.

Lemma elem_of_lines_from (ls : list KaraokeLine.t) (i : nat) (n : Note.t) :
  n ∈ concat (imap (fun k line =>
                      imap (specNote translateWord (i + k)) (KaraokeLine.words line))
                   ls) →
  ∃ k wordIndex word, n = specNote translateWord (i + k) wordIndex word.
Proof.
  intros (notes & Hnotes & Hn)%list_elem_of_In%in_concat.
  apply list_elem_of_In, elem_of_lookup_imap in Hnotes as (k & line & -> & _).
  apply list_elem_of_In, elem_of_lookup_imap in Hn as (wi & word & -> & _).
  by exists k, wi, word.
Qed.

Lemma ids_NoDup_from (ls : list KaraokeLine.t) :
  ∀ i, NoDup (Note.id <$>
              concat (imap (fun k line =>
                              imap (specNote translateWord (i + k))
                                   (KaraokeLine.words line)) ls)).
Proof.
  induction ls as [|l ls IH]; intros i; [constructor|].
  rewrite imap_cons. simpl concat. rewrite fmap_app.
  assert (imap ((fun k line =>
                   imap (specNote translateWord (i + k)) (KaraokeLine.words line))
                ∘ S) ls
          = imap (fun k line =>
                    imap (specNote translateWord (S i + k)) (KaraokeLine.words line))
                 ls) as ->.
  { apply imap_ext. intros k x _. simpl.
    by replace (i + S k) with (S (i + k)) by lia. }
  apply NoDup_app. split; [|split; [|apply IH]].
  - apply NoDup_alt. intros a b x.
    rewrite !list_lookup_fmap, !list_lookup_imap.
    intros (na & (wa & _ & ->)%fmap_Some & ->)%fmap_Some
           (nb & (wb & _ & ->)%fmap_Some & H)%fmap_Some.
    rewrite !specNote_id in H. by apply noteId_inj in H as [_ ->].
  - intros x (n & -> & Hn)%list_elem_of_fmap (n' & Heq & Hn')%list_elem_of_fmap.
    apply elem_of_lookup_imap in Hn as (wi & word & -> & _).
    apply elem_of_lines_from in Hn' as (k & wi' & word' & ->).
    rewrite !specNote_id in Heq. apply noteId_inj in Heq as [Hl _]. lia.
Qed.

(** X10: the ids of the notes of a game are pairwise different, at every
    difficulty: two positions of the note array with the same id are the
    same position.  Each id is the line index and the word index in
    decimal with a dash between, it has that one reading only, and the
    lane is the sum of the two indices modulo 4. *)
Theorem createNotes_ids_unique (track : TimingData.t) (difficulty : Z) :
  let notes := createNotes translateWord (Some track) difficulty in
  NoDup (Note.id <$> notes)
  ∧ (∀ a b na nb,
       notes !! a = Some na → notes !! b = Some nb →
       Note.id na = Note.id nb → a = b)
  ∧ (∀ n, n ∈ notes →
       ∃ lineIndex wordIndex,
         Note.id n = noteId lineIndex wordIndex
         ∧ Note.lane n = (lineIndex + wordIndex) mod 4
         ∧ ∀ li wi, Note.id n = noteId li wi → li = lineIndex ∧ wi = wordIndex).
Proof.
  intros notes.
  assert (notes `sublist_of` specFlatten translateWord track) as Hsub.
  { subst notes. unfold createNotes. cbv zeta. rewrite allNotes_flatten.
    apply filter_from_sublist. }
  assert (NoDup (Note.id <$> notes)) as Hnd.
  { eapply sublist_NoDup; [|by apply fmap_sublist].
    apply (ids_NoDup_from (TimingData.lyrics track) 0). }
  split; [exact Hnd|]. split.
  - intros a b na nb Ha Hb Heq.
    apply (proj1 (NoDup_alt _) Hnd a b (Note.id na)).
    + by rewrite list_lookup_fmap, Ha.
    + by rewrite list_lookup_fmap, Hb, Heq.
  - intros n Hn.
    assert (n ∈ specFlatten translateWord track) as Hin
      by (by eapply elem_of_sublist).
    apply (elem_of_lines_from (TimingData.lyrics track) 0)
      in Hin as (k & wi & word & ->).
    exists k, wi. split; [done|]. split; [done|].
    intros li' wi' Heq. rewrite specNote_id in Heq.
    by apply noteId_inj in Heq as [<- <-].
Qed.

End NoteIds.

(** ** Every note can be played *)
Section Playable.

Variable translateWord : string → string.
Variable showTranslations : bool.

Lemma createNotes_lane (track : TimingData.t) (difficulty : Z) (n : Note.t) :
  n ∈ createNotes translateWord (Some track) difficulty → Note.lane n < 4.
Proof.
  intros Hn.
  assert (n ∈ specFlatten translateWord track) as Hin.
  { eapply elem_of_sublist; [exact Hn|].
    rewrite createNotes_filter. apply filter_from_sublist. }
  apply elem_of_specFlatten in Hin as (li & line & wi & word & _ & _ & ->).
  apply (Nat.mod_upper_bound (li + wi) 4). lia.
Qed.

(** Each of the four lanes has its arrow key. *)
Lemma laneMap_onto (lane : nat) :
  lane < 4 → ∃ key, laneMap key = Some lane.
Proof.
  intros Hl.
  assert (lane = 0 ∨ lane = 1 ∨ lane = 2 ∨ lane = 3) as [->|[->|[->| ->]]] by lia.
  - by exists "ArrowLeft".
  - by exists "ArrowDown".
  - by exists "ArrowUp".
  - by exists "ArrowRight".
Qed.

(** A key only ever names one of the four lanes. *)
Lemma laneMap_range (key : string) (lane : nat) :
  laneMap key = Some lane → lane < 4.
Proof.
  unfold laneMap. repeat case_match; intros [= <-]; lia.
Qed.

Lemma handleTouch_one (lane : nat) (t : float) (s s' : Session) (j : Judgment) :
  lane < 4 →
  judge showTranslations lane t s = (s', Some j) →
  handleTouch showTranslations [Z.of_nat lane] (Some t) s = (s', [j]).
Proof.
  intros Hl Hj. unfold handleTouch. cbn [handleTouch_loop].
  assert (((Z.of_nat lane <? 0) || (Z.of_nat lane >? 3))%Z = false) as ->.
  { apply orb_false_iff. split; [apply Z.ltb_ge; lia|].
    rewrite Z.gtb_ltb. apply Z.ltb_ge. lia. }
  by rewrite Nat2Z.id, Hj.
Qed.

(** X11: in every state of a game, a note that is still unflagged (with a
    finite timestamp) can be played: one of the four arrow keys is the key
    of its lane, and that key, or a touch in that lane, at the note's
    timestamp is judged PERFECT, adding 25 points and one hit.  No key names
    a lane outside 0..3. *)
Theorem unflagged_note_playable (track : TimingData.t) (difficulty : Z)
    (before : Session) (events : list Event) (st : Session) (i : nat)
    (n : Note.t) :
  let start := startGame translateWord (Some track) difficulty before in
  st ∈ (run showTranslations events start).1 →
  notesRef st !! i = Some n →
  Note.hit n = false →
  finite (Note.timestamp n) →
  Note.lane n < 4
  ∧ (∃ key s' j,
       laneMap key = Some (Note.lane n)
       ∧ handleKey showTranslations key (Some (Note.timestamp n)) st
         = (s', Some j)
       ∧ handleTouch showTranslations [Z.of_nat (Note.lane n)]
                     (Some (Note.timestamp n)) st
         = (s', [j])
       ∧ j_lane j = Note.lane n
       ∧ j_tier j = PERFECT
       ∧ scoreRef s' = (scoreRef st + 25)%Z
       ∧ totalHitsRef s' = (totalHitsRef st + 1)%Z)
  ∧ (∀ key lane, laneMap key = Some lane → lane < 4).
Proof.
  intros start Hst Hn Hhit Hfin.
  assert (Note.lane n < 4) as Hlane.
  { apply run_marks in Hst.
    pose proof (marks_unhit _ _ _ _ Hst Hn Hhit) as Hstart.
    apply (createNotes_lane track difficulty).
    by eapply list_elem_of_lookup_2. }
  split; [exact Hlane|]. split; [|exact laneMap_range].
  destruct (laneMap_onto _ Hlane) as [key Hkey].
  destruct (on_time_judge showTranslations st i n Hn Hhit Hfin)
    as (s' & j & Hj & Htier & _).
  exists key, s', j. split; [done|].
  split; [unfold handleKey; by rewrite Hkey|].
  split; [by apply handleTouch_one|].
  pose proof Hj as (_ & _ & _ & _ & Hjl & _ & _ & Hp & _ & ->)%judge_Some.
  split; [done|]. split; [done|]. simpl. rewrite Hp, Htier. simpl. done.
Qed.

End Playable.

Lemma unflagged_note_playable_witness :
  finite 1.0
  ∧ ∃ s',
      handleKey true "ArrowLeft" (Some 1.0%float)
                (startGame (fun word => word) (Some fourWords) 5 noSession)
      = (s', Some (mkJudgment 0 PERFECT "PERFECT" 25 "text-yellow-300"
                              (0, Note.mk "uno" "uno" 1.0 0.5 0 false "0-0"))).
Proof.
  assert (finite 1.0) as Hf by (vm_compute; exact I).
  split; [exact Hf|].
  destruct (unflagged_note_playable (fun word => word) true fourWords 5 noSession
              [] (startGame (fun word => word) (Some fourWords) 5 noSession)
              0 (Note.mk "uno" "uno" 1.0 0.5 0 false "0-0")
              ltac:(left) eq_refl eq_refl Hf)
    as (_ & (key & s' & j & _ & _ & Ht & _) & _).
  exists s'. revert Ht. vm_compute. by intros [= <- <-].
Defined.

(** ** Playing again *)
Section PlayAgain.

Variable translateWord : string → string.

Ltac fields :=
  unfold afterFrame;
  cbn [Game.gameState Game.timingData Game.score Game.combo Game.maxCombo
       Game.totalHits Game.difficulty Game.showTranslations Game.encouragement
       Game.refs Game.hitColorIndexRef Game.fadeIntervals
       notesRef scoreRef comboRef maxComboRef totalHitsRef].

Lemma createNotes_unhit (track : TimingData.t) (difficulty : Z) :
  Forall (fun n => Note.hit n = false)
         (createNotes translateWord (Some track) difficulty).
Proof.
  apply Forall_forall. intros n Hn.
  assert (n ∈ specFlatten translateWord track) as Hin.
  { eapply elem_of_sublist; [exact Hn|].
    rewrite createNotes_filter. apply filter_from_sublist. }
  by apply elem_of_specFlatten in Hin as (li & line & wi & word & _ & _ & ->).
Qed.

(** Changing settings stays on the setup screen and changes the two
    settings only. *)
Lemma settings_keep (settings : list Action) :
  ∀ g,
    Game.gameState g = setup →
    forallb isSetting settings = true →
    let g1 := fold_left (fun g a => act translateWord a g) settings g in
    g1 = Game.mk setup (Game.timingData g) (Game.score g) (Game.combo g)
                 (Game.maxCombo g) (Game.totalHits g) (Game.difficulty g1)
                 (Game.showTranslations g1) (Game.encouragement g)
                 (Game.refs g) (Game.hitColorIndexRef g) (Game.fadeIntervals g)
    ∧ (settings = [] → g1 = g).
Proof.
  induction settings as [|a settings IH]; intros g Hsetup Hall.
  - simpl. split; [|done]. destruct g. simpl in *. by subst.
  - simpl in Hall. apply andb_true_iff in Hall as [Ha Hall]. simpl.
    split; [|done].
    destruct a; try discriminate; unfold act; rewrite Hsetup;
      match goal with
      | |- context [fold_left _ settings ?g0] =>
          destruct (IH g0 eq_refl Hall) as [Heq _]; exact Heq
      end.
Qed.

(** X12: from the end screen, Play Again, any changes of the settings and
    Start give a new game that depends on the game before in three things
    only, the message being shown, the index of the flash colour and the
    fade-out intervals still running: the state after Start is the first
    run of [render] on the playing screen with the same track, the
    settings as they are now, every displayed counter and reference cell
    at zero and the notes generated anew.  So the counters are zero after
    Start, and a note is flagged then only if the clock of that first run
    is already more than 0.25 s past it. *)
Theorem play_again_is_fresh (actions settings : list Action)
    (audio : option float) :
  let g := play translateWord actions in
  let g' := play translateWord
                 (actions ++ pressPlayAgain :: settings ++ [pressStart audio]) in
  Game.gameState g = ended →
  forallb isSetting settings = true →
  ∃ data,
    Game.timingData g = Some data
    ∧ g' = afterFrame
             (Game.mk playing (Some data) 0 0 0 0 (Game.difficulty g')
                      (Game.showTranslations g') (Game.encouragement g)
                      (mkSession (createNotes translateWord (Some data)
                                              (Game.difficulty g'))
                                 0 0 0 0)
                      (Game.hitColorIndexRef g) (Game.fadeIntervals g))
             audio
    ∧ Game.gameState g' = playing
    ∧ (settings = [] → Game.difficulty g' = Game.difficulty g
                       ∧ Game.showTranslations g' = Game.showTranslations g)
    ∧ (Game.score g', Game.combo g', Game.maxCombo g', Game.totalHits g')
      = (0, 0, 0, 0)%Z
    ∧ (scoreRef (Game.refs g'), comboRef (Game.refs g'),
       maxComboRef (Game.refs g'), totalHitsRef (Game.refs g'))
      = (0, 0, 0, 0)%Z
    ∧ marks (createNotes translateWord (Some data) (Game.difficulty g'))
            (notesRef (Game.refs g'))
    ∧ (∀ i n, notesRef (Game.refs g') !! i = Some n → Note.hit n = true →
              ∃ t, audio = Some t
                   ∧ PrimFloat.ltb (Note.timestamp n + 0.25) t = true)
    ∧ (audio = None →
       notesRef (Game.refs g')
       = createNotes translateWord (Some data) (Game.difficulty g')).
Proof.
  intros g g' Hended Hall.
  pose proof (play_ok translateWord actions) as Hg. fold g in Hg.
  unfold game_ok in Hg. rewrite Hended in Hg.
  destruct Hg as (_ & _ & data & Hdata).
  exists data. split; [done|].
  assert (g' = pressStartUI translateWord audio
                 (fold_left (fun g a => act translateWord a g) settings
                            (resetGame g))) as Hg'.
  { subst g'. unfold play. rewrite fold_left_app. fold (play translateWord actions).
    fold g. cbn [fold_left]. rewrite fold_left_app. cbn [fold_left].
    assert (act translateWord pressPlayAgain g = resetGame g) as ->
      by (unfold act; by rewrite Hended).
    destruct (settings_keep settings (resetGame g) eq_refl Hall) as [Hg1 _].
    cbv zeta in Hg1. unfold act at 1. by rewrite Hg1. }
  destruct (settings_keep settings (resetGame g) eq_refl Hall) as [Hg1 Hnil].
  cbv zeta in Hg1, Hnil.
  set (g1 := fold_left (fun g a => act translateWord a g) settings (resetGame g))
    in *.
  cbn [resetGame Game.timingData Game.score Game.combo Game.maxCombo
       Game.totalHits Game.encouragement Game.refs Game.hitColorIndexRef
       Game.fadeIntervals] in Hg1.
  rewrite Hdata in Hg1.
  assert (Game.difficulty g' = Game.difficulty g1
          ∧ Game.showTranslations g' = Game.showTranslations g1) as [Hd Hst].
  { rewrite Hg', Hg1. unfold pressStartUI, startGameUI. simpl.
    by destruct audio. }
  assert (g' = afterFrame
                 (Game.mk playing (Some data) 0 0 0 0 (Game.difficulty g')
                          (Game.showTranslations g') (Game.encouragement g)
                          (mkSession (createNotes translateWord (Some data)
                                                  (Game.difficulty g'))
                                     0 0 0 0)
                          (Game.hitColorIndexRef g) (Game.fadeIntervals g))
                 audio) as Heq.
  { rewrite Hd, Hst. rewrite Hg' at 1. rewrite Hg1 at 1.
    unfold pressStartUI, startGameUI. simpl. reflexivity. }
  split; [exact Heq|].
  set (d := Game.difficulty g') in *. set (st := Game.showTranslations g') in *.
  clearbody d st. rewrite Heq.
  split; [by destruct audio|].
  split.
  { intros ->. specialize (Hnil eq_refl). rewrite Hnil in Hd, Hst.
    by rewrite Hd, Hst. }
  split; [destruct audio as [t|]; fields; [|done];
          by destruct (existsb _ _)|].
  split; [destruct audio as [t|]; fields; [|done];
          rewrite render_Some; fields; by destruct (existsb _ _)|].
  split.
  { destruct audio as [t|]; fields; [|apply marks_refl].
    exact (render_marks (Some t)
             (mkSession (createNotes translateWord (Some data) d) 0 0 0 0)). }
  split.
  - intros i n. destruct audio as [t|]; fields.
    + rewrite render_Some. cbn [notesRef]. rewrite list_lookup_fmap.
      destruct (createNotes translateWord (Some data) d !! i) as [n0|] eqn:Hn0;
        [|done].
      pose proof (createNotes_unhit data d) as Hun.
      rewrite Forall_forall in Hun.
      assert (Note.hit n0 = false) as Hh0
        by (apply Hun; by eapply list_elem_of_lookup_2).
      cbn [fmap option_fmap option_map]. destruct (expired t n0) eqn:He.
      * intros [= <-] _. exists t. split; [done|].
        unfold expired in He. by apply andb_true_iff in He as [_ He].
      * intros [= <-] Hh. congruence.
    + intros Hn Hh. pose proof (createNotes_unhit data d) as Hun.
      rewrite Forall_forall in Hun.
      assert (Note.hit n = false) as Hh0
        by (apply Hun; by eapply list_elem_of_lookup_2).
      congruence.
  - intros ->. by fields.
Qed.

End PlayAgain.

Lemma play_again_is_fresh_witness :
  Game.gameState
    (play (fun word => word)
          [timingLoaded fourWords; pressStart (Some 0%float);
           inputEvent (keydown "ArrowLeft" (Some 1.02%float)); songEnds])
  = ended
  ∧ (let g' :=
       play (fun word => word)
            ([timingLoaded fourWords; pressStart (Some 0%float);
              inputEvent (keydown "ArrowLeft" (Some 1.02%float)); songEnds]
             ++ pressPlayAgain :: [changeDifficulty 3]
                ++ [pressStart (Some 0%float)]) in
     Game.gameState g' = playing
     ∧ (Game.score g', Game.combo g', Game.maxCombo g', Game.totalHits g')
       = (0, 0, 0, 0)%Z).
Proof.
  assert (Game.gameState
            (play (fun word => word)
                  [timingLoaded fourWords; pressStart (Some 0%float);
                   inputEvent (keydown "ArrowLeft" (Some 1.02%float)); songEnds])
          = ended) as Hended by (vm_compute; reflexivity).
  split; [exact Hended|].
  destruct (play_again_is_fresh (fun word => word) _ [changeDifficulty 3]
              (Some 0%float) Hended eq_refl)
    as (data & _ & _ & Hplaying & _ & Hzero & _).
  split; [exact Hplaying | exact Hzero].
Defined.
